(** * Drone delivery demo: the decision core of [script.js]

    A shallow embedding of the route computation of [script.js]: the
    haversine distance, the graph statistics, the suitability scoring
    with its stable ranking, the explanation selector, and the session
    state the page keeps (points, layers, last ranking).

    JavaScript numbers are IEEE 754 binary64 values; they are embedded
    as Rocq's primitive floats.  Scores are small integers (bases
    between 55 and 90, adjustments of at most 30), on which binary64
    arithmetic is exact, so they are embedded in [Z]. *)

From Stdlib Require Import Floats ZArith List Bool Lia Permutation Sorted.
From Stdlib Require Import Strings.String Strings.Ascii DecimalString.
Import ListNotations.

Local Open Scope string_scope.
Local Open Scope list_scope.
Local Open Scope Z_scope.

(** ** Data model *)

(** A Leaflet [LatLng]: decimal degrees. *)
Record LatLng := mkLatLng { lat : float; lng : float }.

(** An entry of the [algorithms] table. *)
Record Algorithm := mkAlgorithm { name : string; time : string; base : Z }.

(** The object [{ ...a, score }] built by the scoring callback: a copy
    of the descriptor's fields together with the adjusted score. *)
Record Scored := mkScored { algo : Algorithm; score : Z }.

(** The object returned by [analyzeGraph]. *)
Record Analysis := mkAnalysis { n : nat; spread : float; density : float }.

(** ** The catalog ([const algorithms]) *)

Definition algorithms : list Algorithm :=
  [ mkAlgorithm "Dijkstra" "O(E log V)" 90;
    mkAlgorithm "A*" "O(E log V)" 88;
    mkAlgorithm "BFS" "O(V+E)" 82;
    mkAlgorithm "DFS" "O(V+E)" 65;
    mkAlgorithm "Bellman-Ford" "O(VE)" 70;
    mkAlgorithm "Floyd-Warshall" "O(VÂ³)" 60;
    mkAlgorithm "Prim" "O(E log V)" 78;
    mkAlgorithm "Kruskal" "O(E log E)" 76;
    mkAlgorithm "Bidirectional Dijkstra" "O(E log V)" 85;
    mkAlgorithm "Johnson" "O(VÂ² log V)" 72;
    mkAlgorithm "Ant Colony Optimization" "Iterative" 68;
    mkAlgorithm "Naive Greedy" "O(VÂ²)" 55 ].

(** ** Scoring (the callback of [algorithms.map] in [computeRoute]) *)

(** [a > b] on numbers is [b < a]; both are false on NaN. *)
Definition gtb (a b : float) : bool := PrimFloat.ltb b a.

#[warnings="-inexact-float"]
Definition spread_threshold : float := 0.3%float.

Definition density_threshold : float := 10%float.

Definition scoreAlgorithm (analysis : Analysis) (a : Algorithm) : Scored :=
  let score := base a in
  (* Small graphs *)
  let score :=
    if (n analysis <=? 3)%nat && ((name a =? "BFS")%string || (name a =? "DFS")%string)
    then score + 20 else score in
  (* Medium weighted graphs *)
  let score :=
    if (4 <=? n analysis)%nat && (n analysis <=? 7)%nat && (name a =? "Dijkstra")%string
    then score + 25 else score in
  (* Straight / sparse: heuristic advantage *)
  let score :=
    if gtb (spread analysis) spread_threshold
       && PrimFloat.ltb (density analysis) density_threshold
       && (name a =? "A*")%string
    then score + 25 else score in
  (* Large graphs *)
  let score :=
    if (7 <? n analysis)%nat && (name a =? "Bidirectional Dijkstra")%string
    then score + 20 else score in
  (* Penalize heavy algorithms on small graphs *)
  let score :=
    if (n analysis <? 5)%nat && (name a =? "Floyd-Warshall")%string
    then score - 30 else score in
  let score := Z.max 0 (Z.min 100 score) in
  mkScored a score.

(** ** [Array.prototype.sort]

    ECMAScript (since ES2019) requires [sort] to be stable; which
    algorithm runs is left to the engine.  It is modelled by a stable
    insertion sort driven by the comparator: a result [<= 0] keeps the
    first argument in front.  For a comparator that subtracts keys, as
    the script's, every stable sort returns the same list
    ([stable_sort_is_sort] below). *)

Section Sort.
Context {A : Type}.
Variable cmp : A -> A -> Z.

Fixpoint insert (x : A) (l : list A) : list A :=
  match l with
  | [] => [x]
  | y :: l' => if cmp x y <=? 0 then x :: y :: l' else y :: insert x l'
  end.

Fixpoint sort (l : list A) : list A :=
  match l with
  | [] => []
  | x :: l' => insert x (sort l')
  end.
End Sort.

(** The comparator [(a,b) => b.score - a.score]. *)
Definition byScoreDesc (a b : Scored) : Z := score b - score a.

(** [lastScored] as [computeRoute] leaves it: scored, then sorted. *)
Definition rank (analysis : Analysis) : list Scored :=
  sort byScoreDesc (map (scoreAlgorithm analysis) algorithms).

(** ** The explanation selector (the [if]/[else if] chain on [best.name]) *)

Definition explanation_Dijkstra : string :=
  ("Dijkstra was selected because the delivery network is moderately sized and weighted. " ++
  "It guarantees the optimal shortest path while maintaining acceptable computational efficiency.")%string.

Definition explanation_AStar : string :=
  ("A* was selected because the delivery points are spatially well-distributed, allowing " ++
  "heuristic guidance to reduce unnecessary exploration and speed up pathfinding.")%string.

Definition explanation_BFS : string :=
  ("BFS was selected due to the very small size of the delivery network, where a simple " ++
  "level-based traversal is sufficient and computationally efficient.")%string.

Definition explanation_Bidirectional : string :=
  ("Bidirectional Dijkstra was selected because the network is large, and searching from " ++
  "both the source and destination significantly reduces the search space.")%string.

Definition explanation_BellmanFord : string :=
  ("Bellman-Ford was selected due to its robustness and ability to handle complex edge conditions, " ++
  "despite higher computational cost.")%string.

Definition explanation_fallback : string :=
  ("This algorithm was selected based on its balance between performance, scalability, " ++
  "and suitability for the current network characteristics.")%string.

Definition explain (best_name : string) : string :=
  if (best_name =? "Dijkstra")%string then explanation_Dijkstra
  else if (best_name =? "A*")%string then explanation_AStar
  else if (best_name =? "BFS")%string then explanation_BFS
  else if (best_name =? "Bidirectional Dijkstra")%string then explanation_Bidirectional
  else if (best_name =? "Bellman-Ford")%string then explanation_BellmanFord
  else explanation_fallback.

(** ** Numbers

    The parts of the ECMAScript number library the script calls.
    [Math.min] and [Math.max] are fully specified by the standard and
    are written out; [Math.sin], [Math.cos], [Math.asin], [Math.sqrt],
    the exponentiation operator and [Number.prototype.toFixed] are
    implementation-approximated (or long-winded) and are taken from the
    engine, an interface the model is parametric in. *)

Definition is_pos_zero (x : float) : bool :=
  match classify x with PZero => true | _ => false end.

Definition is_neg_zero (x : float) : bool :=
  match classify x with NZero => true | _ => false end.

(** Neither NaN nor an infinity. *)
Definition finite (x : float) : bool :=
  match classify x with NaN | PInf | NInf => false | _ => true end.

(** [Math.min(a, b)]: NaN if either is NaN, [-0] below [+0]. *)
Definition Math_min (a b : float) : float :=
  if is_nan a || is_nan b then nan
  else if is_pos_zero a && is_neg_zero b then b
  else if PrimFloat.ltb b a then b else a.

(** [Math.max(a, b)]: NaN if either is NaN, [+0] above [-0]. *)
Definition Math_max (a b : float) : float :=
  if is_nan a || is_nan b then nan
  else if is_neg_zero a && is_pos_zero b then b
  else if gtb b a then b else a.

(** [Math.PI]. *)
#[warnings="-inexact-float"]
Definition Math_PI : float := 3.141592653589793%float.

(** The number whose value is the length [k] of an array. *)
Definition Number_of_nat (k : nat) : float :=
  SF2Prim (binary_normalize prec emax (Z.of_nat k) 0 false).

(** [String(k)] for an array length [k]: its decimal digits. *)
Definition String_of_nat (k : nat) : string :=
  NilZero.string_of_uint (Nat.to_uint k).

Class Engine := {
  Math_sin : float -> float;
  Math_cos : float -> float;
  Math_asin : float -> float;
  Math_sqrt : float -> float;
  (** [x ** y] *)
  Math_pow : float -> float -> float;
  (** [x.toFixed(2)] *)
  toFixed2 : float -> string
}.

(** ** Haversine distance and the length of the route *)

Section Distance.
Context {E : Engine}.
Local Open Scope float_scope.

Definition haversine (a b : LatLng) : float :=
  let R := 6371 in
  let dLat := (lat b - lat a) * Math_PI / 180 in
  let dLon := (lng b - lng a) * Math_PI / 180 in
  2 * R * Math_asin (Math_sqrt (
    Math_pow (Math_sin (dLat / 2)) 2 +
    Math_cos (lat a * Math_PI / 180) *
    Math_cos (lat b * Math_PI / 180) *
    Math_pow (Math_sin (dLon / 2)) 2)).

(** One turn of the loop [dist += haversine(points[i], points[i+1])];
    reading past the end of [points] yields [undefined], whose [lat]
    is a [TypeError] ([None]). *)
Definition distStep (points : list LatLng) (dist : option float) (i : nat)
  : option float :=
  match dist, nth_error points i, nth_error points (i + 1) with
  | Some d, Some a, Some b => Some (d + haversine a b)
  | _, _, _ => None
  end.

(** [let dist = 0; for (let i = 0; i < points.length - 1; i++) ...].
    With no point the bound is [-1] and the body never runs, as with
    the truncated subtraction here. *)
Definition routeDistance (points : list LatLng) : option float :=
  fold_left (distStep points) (seq 0 (List.length points - 1)) (Some 0).
End Distance.

(** ** Graph statistics ([analyzeGraph]) *)

Record Bounds := mkBounds {
  minLat : float; maxLat : float; minLng : float; maxLng : float }.

(** The callback of [points.forEach]. *)
Definition extend (b : Bounds) (p : LatLng) : Bounds :=
  mkBounds (Math_min (minLat b) (lat p)) (Math_max (maxLat b) (lat p))
           (Math_min (minLng b) (lng p)) (Math_max (maxLng b) (lng p)).

#[warnings="-inexact-float"]
Definition epsilon : float := 0.0001%float.

Definition analyzeGraph (points : list LatLng) : Analysis :=
  let n := List.length points in
  let b := fold_left extend points
             (mkBounds infinity neg_infinity infinity neg_infinity) in
  let spread := ((maxLat b - minLat b) + (maxLng b - minLng b))%float in
  let density := (Number_of_nat n / (spread + epsilon))%float in
  mkAnalysis n spread density.

(** ** The page's state

    The globals of the script ([points], [markers], [polylines],
    [droneMarker], [lastScored]) and what its calls act on: the layers
    on the Leaflet map, the text of the result elements, the top-3
    panel, the scheduled animation steps and the alerts shown.  Layer
    objects are identified by the order of their creation.  The page
    is taken to hold every element the script writes to. *)

Inductive Shape :=
| TileShape
| MarkerShape (pos : LatLng)
| PolylineShape (a b : LatLng)
| DroneShape (pos : LatLng).

Record Layer := mkLayer { layer_id : nat; shape : Shape }.

(** A card of the top-3 panel: rank, name, time, score, and whether it
    carries the recommendation badge. *)
Record TopCard := mkTopCard {
  card_rank : nat; card_name : string; card_time : string;
  card_score : Z; card_badge : bool }.

(** A pending [setTimeout(move, 900)] with the index [move] will show. *)
Record Timer := mkTimer { timer_delay : Z; timer_index : nat }.

Record State := mkState {
  points : list LatLng;
  markers : list nat;
  polylines : list nat;
  droneMarker : option nat;
  lastScored : list Scored;
  map_layers : list Layer;
  next_layer : nat;
  innerText : string -> string;
  topAlgorithms : list TopCard;
  timers : list Timer;
  alerts : list string }.

(** The state once the script is loaded: only the tile layer is on the
    map; [dom] is the text the page's markup gives each element. *)
Definition initial (dom : string -> string) : State :=
  mkState [] [] [] None [] [mkLayer 0 TileShape] 1 dom [] [] [].

(** *** Leaflet calls *)

(** [layer.addTo(map)] for a fresh layer; yields its identity. *)
Definition addTo (s : Shape) (st : State) : nat * State :=
  (next_layer st,
   mkState (points st) (markers st) (polylines st) (droneMarker st)
     (lastScored st) (map_layers st ++ [mkLayer (next_layer st) s])
     (S (next_layer st)) (innerText st) (topAlgorithms st) (timers st)
     (alerts st)).

(** [map.removeLayer(l)]. *)
Definition removeLayer (l : nat) (st : State) : State :=
  mkState (points st) (markers st) (polylines st) (droneMarker st)
    (lastScored st)
    (filter (fun x => negb (layer_id x =? l)%nat) (map_layers st))
    (next_layer st) (innerText st) (topAlgorithms st) (timers st)
    (alerts st).

(** [droneMarker.setLatLng(p)] on the layer [l]. *)
Definition setLatLng (l : nat) (p : LatLng) (st : State) : State :=
  mkState (points st) (markers st) (polylines st) (droneMarker st)
    (lastScored st)
    (map (fun x => if (layer_id x =? l)%nat then mkLayer l (DroneShape p) else x)
         (map_layers st))
    (next_layer st) (innerText st) (topAlgorithms st) (timers st)
    (alerts st).

(** *** Assignments to the globals and to the page *)

Definition set_points (v : list LatLng) (st : State) : State :=
  mkState v (markers st) (polylines st) (droneMarker st) (lastScored st)
    (map_layers st) (next_layer st) (innerText st) (topAlgorithms st)
    (timers st) (alerts st).

Definition set_markers (v : list nat) (st : State) : State :=
  mkState (points st) v (polylines st) (droneMarker st) (lastScored st)
    (map_layers st) (next_layer st) (innerText st) (topAlgorithms st)
    (timers st) (alerts st).

Definition set_polylines (v : list nat) (st : State) : State :=
  mkState (points st) (markers st) v (droneMarker st) (lastScored st)
    (map_layers st) (next_layer st) (innerText st) (topAlgorithms st)
    (timers st) (alerts st).

Definition set_droneMarker (v : option nat) (st : State) : State :=
  mkState (points st) (markers st) (polylines st) v (lastScored st)
    (map_layers st) (next_layer st) (innerText st) (topAlgorithms st)
    (timers st) (alerts st).

Definition set_lastScored (v : list Scored) (st : State) : State :=
  mkState (points st) (markers st) (polylines st) (droneMarker st) v
    (map_layers st) (next_layer st) (innerText st) (topAlgorithms st)
    (timers st) (alerts st).

Definition set_topAlgorithms (v : list TopCard) (st : State) : State :=
  mkState (points st) (markers st) (polylines st) (droneMarker st)
    (lastScored st) (map_layers st) (next_layer st) (innerText st) v
    (timers st) (alerts st).

(** [document.getElementById(id).innerText = v]. *)
Definition set_innerText (id v : string) (st : State) : State :=
  mkState (points st) (markers st) (polylines st) (droneMarker st)
    (lastScored st) (map_layers st) (next_layer st)
    (fun k => if (k =? id)%string then v else innerText st k)
    (topAlgorithms st) (timers st) (alerts st).

(** [setTimeout(move, 900)], [move] being about to show index [i]. *)
Definition setTimeout (i : nat) (st : State) : State :=
  mkState (points st) (markers st) (polylines st) (droneMarker st)
    (lastScored st) (map_layers st) (next_layer st) (innerText st)
    (topAlgorithms st) (timers st ++ [mkTimer 900 i]) (alerts st).

(** [alert(msg)]. *)
Definition alert (msg : string) (st : State) : State :=
  mkState (points st) (markers st) (polylines st) (droneMarker st)
    (lastScored st) (map_layers st) (next_layer st) (innerText st)
    (topAlgorithms st) (timers st) (alerts st ++ [msg]).

(** *** The script's operations *)

(** The [click] handler of the map. *)
Definition addPoint (latlng : LatLng) (st : State) : State :=
  let st := set_points (points st ++ [latlng]) st in
  let '(m, st) := addTo (MarkerShape latlng) st in
  set_markers (markers st ++ [m]) st.

(** One turn of the loop of [drawPath]; as in [distStep], an index
    outside [points] is a [TypeError]. *)
Definition drawStep (st : option State) (i : nat) : option State :=
  match st with
  | Some st =>
      match nth_error (points st) i, nth_error (points st) (i + 1) with
      | Some a, Some b =>
          let '(l, st) := addTo (PolylineShape a b) st in
          Some (set_polylines (polylines st ++ [l]) st)
      | _, _ => None
      end
  | None => None
  end.

Definition drawPath (st : State) : option State :=
  let st := fold_left (fun st p => removeLayer p st) (polylines st) st in
  let st := set_polylines [] st in
  fold_left drawStep (seq 0 (List.length (points st) - 1)) (Some st).

(** [animateDrone(path)], up to the first [setTimeout]: the later steps
    run from the timer.  [L.marker(path[0])] needs a first point. *)
Definition animateDrone (path : list LatLng) (st : State) : option State :=
  let st := match droneMarker st with
            | Some d => removeLayer d st
            | None => st
            end in
  match path with
  | [] => None
  | p0 :: _ =>
      let '(d, st) := addTo (DroneShape p0) st in
      let st := set_droneMarker (Some d) st in
      (* move(), with i = 0 *)
      let st := setLatLng d p0 st in
      Some (setTimeout 1 st)
  end.

(** [renderTopAlgorithms]: a card for each of the first three entries
    of [lastScored], the first one with the badge. *)
Definition renderTopAlgorithms (st : State) : State :=
  let st := set_topAlgorithms [] st in
  fst (fold_left
    (fun '(st, i) a =>
       (set_topAlgorithms
          (topAlgorithms st ++
           [mkTopCard (i + 1) (name (algo a)) (time (algo a)) (score a) (i =? 0)%nat])
          st, S i))
    (firstn 3 (lastScored st)) (st, 0%nat)).

Definition resetMap (st : State) : State :=
  let st := set_points [] st in
  let st := fold_left (fun st m => removeLayer m st) (markers st) st in
  let st := fold_left (fun st p => removeLayer p st) (polylines st) st in
  let st := match droneMarker st with
            | Some d => removeLayer d st
            | None => st
            end in
  set_polylines [] (set_markers [] st).

Section ComputeRoute.
Context {E : Engine}.

(** [computeRoute]; [None] stands for an uncaught [TypeError]. *)
Definition computeRoute (st : State) : option State :=
  if (List.length (points st) <? 2)%nat
  then Some (alert "Add at least 2 points" st)
  else
    match drawPath st with
    | None => None
    | Some st =>
    match animateDrone (points st) st with
    | None => None
    | Some st =>
    match routeDistance (points st) with
    | None => None
    | Some dist =>
        let analysis := analyzeGraph (points st) in
        (* AI scoring with reasons *)
        let st := set_lastScored (map (scoreAlgorithm analysis) algorithms) st in
        let st := set_lastScored (sort byScoreDesc (lastScored st)) st in
        match lastScored st with
        | [] => None
        | best :: _ =>
            (* update UI *)
            let st := set_innerText "algoName" (name (algo best)) st in
            let st := set_innerText "bestAlgo" (name (algo best)) st in
            let st := set_innerText "distance" (toFixed2 dist ++ " km")%string st in
            let st := set_innerText "points" (String_of_nat (List.length (points st))) st in
            let st := set_innerText "iterations" (String_of_nat (List.length (points st))) st in
            let st := set_innerText "complexity" (time (algo best)) st in
            (* explanation *)
            let explanation := explain (name (algo best)) in
            let st := set_innerText "bestReason"
              "Algorithm selected based on structural analysis of the delivery network." st in
            let st := set_innerText "aiExplanation" explanation st in
            Some (renderTopAlgorithms st)
        end
    end end end.
End ComputeRoute.

(** ** The specification's reading of the core

    Definitions that follow the words of the specification, to be
    compared with the code above. *)

(** A row of the adjustment table: a condition on the statistics, the
    names it applies to, and the adjustment. *)
Record Rule := mkRule {
  applies : Analysis -> bool; targets : list string; adjustment : Z }.

Definition rule_table : list Rule :=
  [ mkRule (fun s => (n s <=? 3)%nat) ["BFS"; "DFS"] 20;
    mkRule (fun s => (4 <=? n s)%nat && (n s <=? 7)%nat) ["Dijkstra"] 25;
    mkRule (fun s => gtb (spread s) spread_threshold
                     && PrimFloat.ltb (density s) density_threshold) ["A*"] 25;
    mkRule (fun s => (7 <? n s)%nat) ["Bidirectional Dijkstra"] 20;
    mkRule (fun s => (n s <? 5)%nat) ["Floyd-Warshall"] (-30) ].

Definition matching (s : Analysis) (a : Algorithm) (r : Rule) : bool :=
  applies r s && existsb (String.eqb (name a)) (targets r).

Definition clamp (x : Z) : Z := Z.max 0 (Z.min 100 x).

(** Base score plus the sum of all matching adjustments, clamped once. *)
Definition table_score (s : Analysis) (a : Algorithm) : Z :=
  clamp (base a + fold_right Z.add 0 (map adjustment (filter (matching s a) rule_table))).

(** The score the scoring callback gives the catalog entry called [nm]. *)
Definition scoreOf (s : Analysis) (nm : string) : option Z :=
  option_map (fun a => score (scoreAlgorithm s a))
    (find (fun a => (name a =? nm)%string) algorithms).

(** The lookup table of bespoke explanations. *)
Definition explanation_table : list (string * string) :=
  [ ("Dijkstra", explanation_Dijkstra);
    ("A*", explanation_AStar);
    ("BFS", explanation_BFS);
    ("Bidirectional Dijkstra", explanation_Bidirectional);
    ("Bellman-Ford", explanation_BellmanFord) ].

Definition table_explain (nm : string) : string :=
  match find (fun e => (fst e =? nm)%string) explanation_table with
  | Some e => snd e
  | None => explanation_fallback
  end.

(** [x] occurs before [y] in [l]. *)
Definition Before {A : Type} (x y : A) (l : list A) : Prop :=
  exists l1 l2 l3, l = l1 ++ x :: l2 ++ y :: l3.

Section SpecDistance.
Context {E : Engine}.

(** The sum, in path order, of the distances between consecutive
    points. *)
Definition sum_consecutive (points : list LatLng) : float :=
  fold_left (fun d ab => (d + haversine (fst ab) (snd ab))%float)
    (combine points (tl points)) 0%float.
End SpecDistance.

(** The extrema of a list of numbers. *)
Definition max_of (l : list float) : float := fold_left Math_max l neg_infinity.
Definition min_of (l : list float) : float := fold_left Math_min l infinity.

(** Weakly decreasing keys, for a list ordered by [key(b) - key(a)]. *)
Definition desc {A : Type} (key : A -> Z) (a b : A) : Prop := key b <= key a.

(** [st'] differs from [st] at most in the map, the polylines, the
    drone marker and the timers: what drawing and animating may touch. *)
Definition same_session (st st' : State) : Prop :=
  points st' = points st /\ markers st' = markers st /\
  lastScored st' = lastScored st /\ innerText st' = innerText st /\
  topAlgorithms st' = topAlgorithms st /\ alerts st' = alerts st.

(** ** Magnitudes of spec floats

    [sf_le X f]: [f] is a zero or a finite number whose exponent is at
    most [X]. *)
Definition sf_le (X : Z) (f : spec_float) : Prop :=
  match f with
  | S754_zero _ => True
  | S754_finite _ _ e => e <= X
  | _ => False
  end.

(** [f] is a zero or a finite number. *)
Definition sf_finite (f : spec_float) : Prop :=
  match f with
  | S754_zero _ | S754_finite _ _ _ => True
  | _ => False
  end.

(** NaN, a zero, or a positive number. *)
Definition sf_nonneg (f : spec_float) : Prop :=
  match f with
  | S754_nan | S754_zero _ => True
  | S754_infinity s | S754_finite s _ _ => s = false
  end.

(** The extrema of [analyzeGraph] after a first point: both NaN (a NaN
    was met), or in order. *)
Definition ordered (a b : float) : Prop :=
  (Prim2SF a = S754_nan /\ Prim2SF b = S754_nan) \/ (a <=? b)%float = true.

(** ** What is assumed of the engine

    ECMAScript fixes [Math.sin(+0)], [Math.asin(+0)], [Math.sqrt(+0)]
    and [(+0) ** 2] to [+0]; a cosine lies between -1 and 1 in every
    engine. *)
Class EngineLaws (E : Engine) : Prop := {
  sin_zero : Math_sin 0 = 0%float;
  asin_zero : Math_asin 0 = 0%float;
  sqrt_zero : Math_sqrt 0 = 0%float;
  pow_zero : Math_pow 0 2 = 0%float;
  cos_range : forall x, finite x = true -> (abs (Math_cos x) <=? 1)%float = true
}.

(** The sine is odd and a square is even, as delivered by the engines'
    math libraries (the standard leaves it to them). *)
Class EngineSymmetry (E : Engine) : Prop := {
  sin_odd : forall x, Math_sin (- x) = (- Math_sin x)%float;
  pow_even : forall x, Math_pow (- x) 2 = Math_pow x 2
}.

(** A coordinate of the globe: a latitude between -90 and 90 and a
    finite longitude (Leaflet lets the longitude run past 180 when the
    map wraps around). *)
Definition on_globe (a : LatLng) : bool :=
  (abs (lat a) <=? 90)%float && finite (lng a).

(** ** An engine to run the model with

    The small-angle approximations of the circular functions, the
    correctly rounded square root, the product for a square, and
    [toFixed(2)] by exact decimal rounding (for numbers below
    [10^21]). *)

Definition two_digits (k : Z) : string :=
  ((if (k <? 10)%Z then "0" else "") ++ NilZero.string_of_uint (N.to_uint (Z.to_N k)))%string.

Definition decimal_toFixed2 (x : float) : string :=
  match Prim2SF x with
  | S754_nan => "NaN"
  | S754_infinity s => if s then "-Infinity" else "Infinity"
  | S754_zero _ => "0.00"
  | S754_finite s m e =>
      (* the integer nearest to 100 * m * 2^e, the larger one on a tie *)
      let k := if 0 <=? e then Z.pos m * 2 ^ e * 100
               else (Z.pos m * 200 + 2 ^ (- e)) / (2 * 2 ^ (- e)) in
      ((if s then "-" else "") ++
       NilZero.string_of_uint (N.to_uint (Z.to_N (k / 100))) ++ "." ++
       two_digits (k mod 100))%string
  end.

Definition small_angle_engine : Engine := {|
  Math_sin := fun x => x;
  Math_cos := fun _ => 1%float;
  Math_asin := fun x => x;
  Math_sqrt := PrimFloat.sqrt;
  Math_pow := fun x _ => (x * x)%float;
  toFixed2 := decimal_toFixed2
|}.

Definition point_a : LatLng := mkLatLng 12.5 77.5.
Definition point_b : LatLng := mkLatLng 13 80.25.

(** Two clicks on the freshly loaded page. *)
Definition two_clicks : State :=
  addPoint point_b (addPoint point_a (initial (fun _ => ""))).

(** The page after a route was computed for the two clicks. *)
Definition after_route : State :=
  match computeRoute (E := small_angle_engine) two_clicks with
  | Some st => st
  | None => two_clicks
  end.

(** A single click. *)
Definition one_click : State := addPoint point_a (initial (fun _ => "")).

(** The layer [x] is one of [ls]. *)
Definition removed (ls : list nat) (x : Layer) : bool :=
  existsb (Nat.eqb (layer_id x)) ls.

(** The layers [resetMap] takes off the map. *)
Definition reset_layers (st : State) : list nat :=
  markers st ++ polylines st ++
  match droneMarker st with Some d => [d] | None => [] end.

(** The names with a bespoke explanation, and the others of the catalog. *)
Definition bespoke_names : list string :=
  ["Dijkstra"; "A*"; "BFS"; "Bidirectional Dijkstra"; "Bellman-Ford"].

Definition other_names : list string :=
  ["DFS"; "Floyd-Warshall"; "Prim"; "Kruskal"; "Johnson";
   "Ant Colony Optimization"; "Naive Greedy"].

(** ** The rest of the script

    What the statements above leave out: the timer callback of the
    animation, the layers as the map has them, the pages the script
    can reach, and the three listeners around the map. *)

(** *** The timer callback *)

Definition set_timers (v : list Timer) (st : State) : State :=
  mkState (points st) (markers st) (polylines st) (droneMarker st)
    (lastScored st) (map_layers st) (next_layer st) (innerText st)
    (topAlgorithms st) v (alerts st).

(** The callback [move] of [animateDrone], about to show index [i] of
    [path]: the array the animation was started on, as it is when the
    timer fires.  [droneMarker] is the global, read at that moment;
    on [null] the call of [setLatLng] is a [TypeError]. *)
Definition move (path : list LatLng) (i : nat) (st : State) : option State :=
  if (List.length path <=? i)%nat then Some st
  else
    match droneMarker st, nth_error path i with
    | Some d, Some p => Some (setTimeout (i + 1) (setLatLng d p st))
    | _, _ => None
    end.

(** The oldest pending timer fires (all delays are equal, so timers
    fire in the order they were set); with none pending nothing
    happens. *)
Definition fire (path : list LatLng) (st : State) : option State :=
  match timers st with
  | [] => Some st
  | t :: rest => move path (timer_index t) (set_timers rest st)
  end.

Fixpoint fire_times (path : list LatLng) (k : nat) (st : State) : option State :=
  match k with
  | O => Some st
  | S k' =>
      match fire path st with
      | Some st' => fire_times path k' st'
      | None => None
      end
  end.

(** *** The layers of the map, by kind

    [map_layers] holds the layers the script itself puts on the map
    and keeps a handle of.  What Leaflet adds on its own account (the
    renderer it creates for the first polyline, which stays on the
    map) is not among them: the statements about the map are
    therefore made kind by kind. *)

Definition is_tile (l : Layer) : bool :=
  match shape l with TileShape => true | _ => false end.

Definition is_marker (l : Layer) : bool :=
  match shape l with MarkerShape _ => true | _ => false end.

Definition is_polyline (l : Layer) : bool :=
  match shape l with PolylineShape _ _ => true | _ => false end.

Definition is_drone (l : Layer) : bool :=
  match shape l with DroneShape _ => true | _ => false end.

(** Layers created one after the other from the identity [base] on. *)
Fixpoint new_layers (base : nat) (shapes : list Shape) : list Layer :=
  match shapes with
  | [] => []
  | s :: rest => mkLayer base s :: new_layers (S base) rest
  end.

(** The segments of a path: one polyline per pair of consecutive points. *)
Definition segments (ps : list LatLng) : list Shape :=
  map (fun ab => PolylineShape (fst ab) (snd ab)) (combine ps (tl ps)).

(** One marker per point, under the handles of [markers]. *)
Definition marker_layers (st : State) : list Layer :=
  map (fun mp => mkLayer (fst mp) (MarkerShape (snd mp)))
      (combine (markers st) (points st)).

(** What [setLatLng] makes of a layer. *)
Definition relocate (d : nat) (p : LatLng) (x : Layer) : Layer :=
  if (layer_id x =? d)%nat then mkLayer d (DroneShape p) else x.

(** The bookkeeping of the layers: identities are fresh and distinct,
    the tile layer is there, the markers are those of the points, the
    polylines those recorded, and the drone marker, if it is on the
    map, is the one [droneMarker] names. *)
Record wf (st : State) : Prop := mkWf {
  wf_fresh : Forall (fun l => (layer_id l < next_layer st)%nat) (map_layers st);
  wf_nodup : NoDup (map layer_id (map_layers st));
  wf_tile : filter is_tile (map_layers st) = [mkLayer 0 TileShape];
  wf_markers : filter is_marker (map_layers st) = marker_layers st;
  wf_count : List.length (markers st) = List.length (points st);
  wf_polylines : map layer_id (filter is_polyline (map_layers st)) = polylines st;
  wf_drone :
    match droneMarker st with
    | None => filter is_drone (map_layers st) = []
    | Some d =>
        (d < next_layer st)%nat /\
        ((exists p, filter is_drone (map_layers st) = [mkLayer d (DroneShape p)]) \/
         (filter is_drone (map_layers st) = [] /\ ~ In d (map layer_id (map_layers st))))
    end
}.

(** The drone marker [d] is on the map at [p], and one timer is
    pending, for index [k + 1]. *)
Definition showing (d k : nat) (p : LatLng) (st : State) : Prop :=
  wf st /\ droneMarker st = Some d /\
  filter is_drone (map_layers st) = [mkLayer d (DroneShape p)] /\
  timers st = [mkTimer 900 (S k)].

Ltac kinds :=
  intros; unfold is_tile, is_marker, is_polyline, is_drone;
  match goal with |- context [shape ?x] => destruct (shape x) end; reflexivity.

(** *** The panel and the page, in closed form *)

(** The cards for the entries [l], ranked from [i + 1] on. *)
Fixpoint cards (i : nat) (l : list Scored) : list TopCard :=
  match l with
  | [] => []
  | a :: l' =>
      mkTopCard (i + 1) (name (algo a)) (time (algo a)) (score a) (i =? 0)%nat
      :: cards (S i) l'
  end.

(** The texts of the result elements once [computeRoute] is through,
    [old] being the texts before. *)
Definition result_text {E : Engine} (best : Scored) (dist : float) (count : nat)
    (old : string -> string) : string -> string :=
  fun k =>
    if (k =? "aiExplanation")%string then explain (name (algo best))
    else if (k =? "bestReason")%string then
      "Algorithm selected based on structural analysis of the delivery network."
    else if (k =? "complexity")%string then time (algo best)
    else if (k =? "iterations")%string then String_of_nat count
    else if (k =? "points")%string then String_of_nat count
    else if (k =? "distance")%string then (toFixed2 dist ++ " km")%string
    else if (k =? "bestAlgo")%string then name (algo best)
    else if (k =? "algoName")%string then name (algo best)
    else old k.

(** The elements [computeRoute] writes to. *)
Definition result_ids : list string :=
  ["algoName"; "bestAlgo"; "distance"; "points"; "iterations"; "complexity";
   "bestReason"; "aiExplanation"].

(** The name at the head of the ranking, in closed form. *)
Definition recommended (s : Analysis) : string :=
  if (4 <=? n s)%nat && (n s <=? 7)%nat then "Dijkstra"
  else if gtb (spread s) spread_threshold && PrimFloat.ltb (density s) density_threshold
  then "A*"
  else if (n s <=? 3)%nat then "BFS"
  else "Bidirectional Dijkstra".

(** Its complexity label in the catalog. *)
Definition recommended_time (s : Analysis) : string :=
  if (recommended s =? "BFS")%string then "O(V+E)" else "O(E log V)".

(** What the page keeps besides the layers: a pending timer has a
    drone marker to move, the panel shows the head of the last
    ranking, and the last ranking is empty or the ranking of some two
    points or more. *)
Record page_ok (st : State) : Prop := mkPageOk {
  ok_timers : timers st <> [] -> droneMarker st <> None;
  ok_panel : topAlgorithms st = cards 0 (firstn 3 (lastScored st));
  ok_ranking :
    lastScored st = [] \/
    exists pts, (2 <= List.length pts)%nat /\ lastScored st = rank (analyzeGraph pts)
}.

(** *** The states the page can be in

    The initial one, and what a click on the map, the two buttons and
    an expiring timer make of a state the page can be in.  A timer's
    closure holds the array the animation was started on, which later
    clicks extend and a reset replaces: the relation admits every
    path, so it covers the states of the script and possibly more. *)
Section Reachable.
Context {E : Engine}.

Inductive reachable (dom : string -> string) : State -> Prop :=
| reach_initial : reachable dom (initial dom)
| reach_click st p : reachable dom st -> reachable dom (addPoint p st)
| reach_compute st st' :
    reachable dom st -> computeRoute st = Some st' -> reachable dom st'
| reach_reset st : reachable dom st -> reachable dom (resetMap st)
| reach_timer st st' path :
    reachable dom st -> fire path st = Some st' -> reachable dom st'.
End Reachable.

(** ** The page around the map

    [classList] is a [DOMTokenList]: an ordered set of class names. *)

Definition classList_contains (c : string) (cl : list string) : bool :=
  existsb (String.eqb c) cl.

Definition classList_add (c : string) (cl : list string) : list string :=
  if classList_contains c cl then cl else cl ++ [c].

Definition classList_remove (c : string) (cl : list string) : list string :=
  filter (fun x => negb (String.eqb c x)) cl.

(** [classList.toggle(c, force)]. *)
Definition classList_toggle (c : string) (force : bool) (cl : list string)
  : list string :=
  if force then classList_add c cl else classList_remove c cl.

(** *** Scroll observer

    The elements are named by numbers; the document maps each to its
    class list. *)
Record Entry := mkEntry { target : nat; isIntersecting : bool }.

Definition Document := nat -> list string.

(** The callback of the [IntersectionObserver], for one entry and
    for the entries of one call. *)
Definition reveal (doc : Document) (entry : Entry) : Document :=
  if isIntersecting entry
  then fun el => if (el =? target entry)%nat
                 then classList_add "visible" (doc (target entry))
                 else doc el
  else doc.

Definition observerCallback (entries : list Entry) (doc : Document) : Document :=
  fold_left reveal entries doc.

(** *** Navbar

    The [scroll] listener; [navbar] is what
    [document.querySelector(".navbar")] finds. *)
Definition onScroll (scrollY : float) (navbar : option (list string))
  : option (list string) :=
  match navbar with
  | None => None
  | Some cl =>
      Some (if gtb scrollY 60%float then classList_add "shrink" cl
            else classList_remove "shrink" cl)
  end.

(** *** Theme switch *)

(** What the handler of [DOMContentLoaded] reads and writes: whether
    the button exists, the classes of [body], the [theme] item of
    [localStorage], the button's text and whether it listens to
    clicks. *)
Record ThemePage := mkThemePage {
  has_toggle : bool;
  body_classes : list string;
  storage_theme : option string;
  toggle_text : string;
  toggle_listens : bool
}.

Definition icon_light : string := "â˜€ï¸".
Definition icon_dark : string := "ðŸŒ™".

Definition setTheme (mode : string) (pg : ThemePage) : ThemePage :=
  mkThemePage (has_toggle pg)
    (classList_toggle "light" (mode =? "light")%string (body_classes pg))
    (Some mode)
    (if (mode =? "light")%string then icon_light else icon_dark)
    (toggle_listens pg).

(** [localStorage.getItem("theme") || "dark"]: the empty string is
    falsy as [null] is. *)
Definition savedTheme (pg : ThemePage) : string :=
  match storage_theme pg with
  | Some s => if (s =? "")%string then "dark" else s
  | None => "dark"
  end.

Definition onDOMContentLoaded (pg : ThemePage) : ThemePage :=
  if negb (has_toggle pg) then pg
  else
    let pg := setTheme (savedTheme pg) pg in
    mkThemePage (has_toggle pg) (body_classes pg) (storage_theme pg)
      (toggle_text pg) true.

(** A click on the button: nothing listens unless the handler above
    got as far as [addEventListener]. *)
Definition onToggleClick (pg : ThemePage) : ThemePage :=
  if toggle_listens pg
  then
    let newTheme :=
      if classList_contains "light" (body_classes pg) then "dark" else "light" in
    setTheme newTheme pg
  else pg.

(** The page is loaded again from its HTML [html]; [localStorage]
    stays. *)
Definition reload (html pg : ThemePage) : ThemePage :=
  mkThemePage (has_toggle html) (body_classes html) (storage_theme pg)
    (toggle_text html) false.

(** Body class, stored item and button text agree on the mode. *)
Definition theme_sync (pg : ThemePage) : Prop :=
  exists mode,
    storage_theme pg = Some mode /\
    classList_contains "light" (body_classes pg) = (mode =? "light")%string /\
    toggle_text pg = (if (mode =? "light")%string then icon_light else icon_dark) /\
    toggle_listens pg = true.

(** A first visit: the button is there, nothing is stored yet. *)
Definition theme_first_visit : ThemePage := mkThemePage true ["app"] None "" false.

(** * Properties *)

(** ** Properties of the scoring *)

Lemma score_range s a : 0 <= score (scoreAlgorithm s a) <= 100.
Proof. unfold scoreAlgorithm; cbn [score]; lia. Qed.

Lemma score_table s a : score (scoreAlgorithm s a) = table_score s a.
Proof.
  unfold scoreAlgorithm, table_score, matching, clamp; cbn [score].
  cbn -[Z.add Z.sub Z.max Z.min String.eqb Nat.leb Nat.ltb PrimFloat.ltb gtb].
  rewrite !orb_false_r.
  repeat match goal with
         | |- context [if ?c then _ else _] => destruct c
         end; cbn [fold_right map adjustment]; lia.
Qed.

Lemma scored_catalog s : map algo (map (scoreAlgorithm s) algorithms) = algorithms.
Proof. rewrite map_map. apply map_id. Qed.

(** ** Properties of the sort *)

Section SortFacts.
Context {A : Type}.
Variable key : A -> Z.

(** The comparator shape of the script: [(a,b) => key(b) - key(a)]. *)
Local Abbreviation cmp := (fun a b : A => key b - key a).

Lemma insert_perm x l : Permutation (insert cmp x l) (x :: l).
Proof.
  induction l as [|y l IH]; cbn; [reflexivity|].
  destruct (key y - key x <=? 0); [reflexivity|].
  rewrite IH. apply perm_swap.
Qed.

Lemma sort_perm l : Permutation (sort cmp l) l.
Proof.
  induction l as [|x l IH]; cbn; [constructor|].
  rewrite insert_perm. now constructor.
Qed.

Lemma insert_sorted x l : Sorted (desc key) l -> Sorted (desc key) (insert cmp x l).
Proof.
  induction 1 as [|y l Hs IH Hhd]; cbn.
  - repeat constructor.
  - destruct (Z.leb_spec (key y - key x) 0) as [Hle|Hgt].
    + constructor; [now constructor|]. constructor. unfold desc. lia.
    + constructor; [exact IH|].
      destruct Hhd as [|z l Hz]; cbn.
      * constructor. unfold desc. lia.
      * destruct (key z - key x <=? 0); constructor; unfold desc in *; lia.
Qed.

Lemma sort_sorted l : Sorted (desc key) (sort cmp l).
Proof.
  induction l as [|x l IH]; cbn; [constructor|]. now apply insert_sorted.
Qed.

Lemma sort_strongly_sorted l : StronglySorted (desc key) (sort cmp l).
Proof.
  apply Sorted_StronglySorted; [|apply sort_sorted].
  intros a b c; unfold desc; lia.
Qed.

(** Stability: among the elements of one key, insertion and sorting
    change nothing. *)
Lemma insert_filter v x l :
  filter (fun e => key e =? v) (insert cmp x l) =
  filter (fun e => key e =? v) (x :: l).
Proof.
  induction l as [|y l IH]; [reflexivity|].
  cbn [insert]. destruct (Z.leb_spec (key y - key x) 0) as [Hle|Hgt]; [reflexivity|].
  cbn [filter] in *. rewrite IH.
  destruct (Z.eqb_spec (key x) v), (Z.eqb_spec (key y) v); try reflexivity; lia.
Qed.

Lemma sort_filter v l :
  filter (fun e => key e =? v) (sort cmp l) = filter (fun e => key e =? v) l.
Proof.
  induction l as [|x l IH]; [reflexivity|].
  cbn [sort]. rewrite insert_filter. cbn [filter]. now rewrite IH.
Qed.

(** Two lists in decreasing order of key that agree on the elements of
    every key are equal. *)
Lemma sorted_stable_unique l1 : forall l2,
  StronglySorted (desc key) l1 -> StronglySorted (desc key) l2 ->
  (forall v, filter (fun e => key e =? v) l1 = filter (fun e => key e =? v) l2) ->
  l1 = l2.
Proof.
  assert (Hhead : forall x t l,
    StronglySorted (desc key) (x :: t) -> StronglySorted (desc key) l ->
    (forall v, filter (fun e => key e =? v) (x :: t) = filter (fun e => key e =? v) l) ->
    exists y u, l = y :: u /\ key x <= key y).
  { intros x t l S1 S2 H. specialize (H (key x)). cbn in H.
    rewrite Z.eqb_refl in H.
    destruct l as [|y u]; [discriminate H|]. exists y, u. split; [reflexivity|].
    assert (In x (filter (fun e => key e =? key x) (y :: u))) as Hin
      by (rewrite <- H; now left).
    apply filter_In in Hin as [[->|Hin] _]; [lia|].
    apply StronglySorted_inv in S2 as [_ Hall].
    rewrite Forall_forall in Hall. exact (Hall x Hin). }
  induction l1 as [|x t IH]; intros l2 S1 S2 H.
  - destruct l2 as [|y u]; [reflexivity|].
    specialize (H (key y)). cbn in H. rewrite Z.eqb_refl in H. discriminate H.
  - destruct (Hhead x t l2 S1 S2 H) as (y & u & -> & Hxy).
    destruct (Hhead y u (x :: t) S2 S1 (fun v => eq_sym (H v))) as (x' & t' & [= <- <-] & Hyx).
    assert (Hk : key x = key y) by lia.
    pose proof (H (key x)) as H0. cbn in H0. rewrite <- Hk, Z.eqb_refl in H0.
    injection H0 as <- H0. f_equal.
    apply StronglySorted_inv in S1 as [S1 _]. apply StronglySorted_inv in S2 as [S2 _].
    apply IH; [exact S1|exact S2|]. intros v. specialize (H v). cbn in H.
    destruct (key x =? v); [now injection H|exact H].
Qed.

(** Whatever stable sort the engine runs, it returns what [sort] does. *)
Lemma stable_sort_is_sort l l' :
  StronglySorted (desc key) l' ->
  (forall v, filter (fun e => key e =? v) l' = filter (fun e => key e =? v) l) ->
  l' = sort cmp l.
Proof.
  intros S H. apply sorted_stable_unique; [exact S|apply sort_strongly_sorted|].
  intros v. now rewrite sort_filter.
Qed.
End SortFacts.

(** ** Relative order *)

Section BeforeFacts.
Context {A : Type}.

Lemma filter_cons_inv (p : A -> bool) l x v :
  filter p l = x :: v ->
  exists pre post, l = pre ++ x :: post /\ filter p post = v.
Proof.
  induction l as [|a l IH]; cbn; [discriminate|].
  destruct (p a).
  - intros [= -> <-]. now exists [], l.
  - intros H. destruct (IH H) as (pre & post & -> & Hp).
    now exists (a :: pre), post.
Qed.

Lemma filter_app_inv (p : A -> bool) l u v :
  filter p l = u ++ v ->
  exists l1 l2, l = l1 ++ l2 /\ filter p l2 = v.
Proof.
  revert l. induction u as [|x u IH]; intros l H.
  - now exists [], l.
  - cbn in H. apply filter_cons_inv in H as (pre & post & -> & Hp).
    destruct (IH _ Hp) as (l1 & l2 & -> & H2).
    exists (pre ++ x :: l1), l2. split; [|exact H2].
    now rewrite <- app_assoc.
Qed.

Lemma Before_filter_inv (p : A -> bool) x y l :
  Before x y (filter p l) -> Before x y l.
Proof.
  intros (u1 & u2 & u3 & H).
  apply filter_app_inv in H as (l1 & l2 & -> & H).
  apply filter_cons_inv in H as (pre & post & -> & H).
  apply filter_app_inv in H as (m1 & m2 & -> & H).
  apply filter_cons_inv in H as (pre' & post' & -> & _).
  exists (l1 ++ pre), (m1 ++ pre'), post'.
  now rewrite <- !app_assoc.
Qed.

Lemma Before_filter (p : A -> bool) x y l :
  p x = true -> p y = true -> Before x y l -> Before x y (filter p l).
Proof.
  intros Hx Hy (l1 & l2 & l3 & ->).
  exists (filter p l1), (filter p l2), (filter p l3).
  rewrite filter_app. cbn. rewrite Hx, filter_app. cbn. now rewrite Hy.
Qed.

Lemma Before_map {B : Type} (f : A -> B) x y l :
  Before x y l -> Before (f x) (f y) (map f l).
Proof.
  intros (l1 & l2 & l3 & ->).
  exists (map f l1), (map f l2), (map f l3).
  now rewrite map_app; cbn; rewrite map_app.
Qed.
End BeforeFacts.

Lemma rank_before s x y :
  Before x y (rank s) -> score x = score y -> Before (algo x) (algo y) algorithms.
Proof.
  intros Hb He. unfold rank in Hb.
  apply (Before_filter (fun e => score e =? score x)) in Hb;
    [|apply Z.eqb_refl|rewrite He; apply Z.eqb_refl].
  change (sort byScoreDesc) with (sort (fun a b : Scored => score b - score a)) in Hb.
  rewrite sort_filter in Hb. apply Before_filter_inv in Hb.
  apply (Before_map algo) in Hb. now rewrite scored_catalog in Hb.
Qed.

(** ** What the operations leave alone *)

Lemma same_session_refl st : same_session st st.
Proof. now repeat split. Qed.

Lemma same_session_trans st1 st2 st3 :
  same_session st1 st2 -> same_session st2 st3 -> same_session st1 st3.
Proof.
  unfold same_session. intros (?&?&?&?&?&?) (?&?&?&?&?&?).
  repeat split; congruence.
Qed.

Lemma removeLayers_same ls st :
  same_session st (fold_left (fun st l => removeLayer l st) ls st).
Proof.
  revert st. induction ls as [|l ls IH]; intros st; cbn.
  - apply same_session_refl.
  - eapply same_session_trans; [|apply IH]. now repeat split.
Qed.

Lemma drawSteps_some len : forall start st,
  (start + len <= List.length (points st) - 1)%nat ->
  exists st', fold_left drawStep (seq start len) (Some st) = Some st' /\
              same_session st st'.
Proof.
  induction len as [|len IH]; intros start st Hb; cbn [seq fold_left].
  - exists st. split; [reflexivity|apply same_session_refl].
  - unfold drawStep at 2.
    destruct (nth_error (points st) start) as [a|] eqn:Ha;
      [|apply nth_error_None in Ha; lia].
    destruct (nth_error (points st) (start + 1)) as [b|] eqn:Hb';
      [|apply nth_error_None in Hb'; lia].
    cbn. match goal with |- context [Some ?s] =>
      destruct (IH (S start) s) as (st' & Hf & Hs) end.
    + cbn. lia.
    + exists st'. split; [exact Hf|].
      eapply same_session_trans; [|exact Hs]. now repeat split.
Qed.

Lemma drawPath_some st :
  exists st', drawPath st = Some st' /\ same_session st st'.
Proof.
  unfold drawPath.
  pose proof (removeLayers_same (polylines st) st) as H0.
  set (st0 := fold_left _ (polylines st) st) in *.
  destruct (drawSteps_some (List.length (points (set_polylines [] st0)) - 1) 0
              (set_polylines [] st0)) as (st' & Hf & Hs); [lia|].
  exists st'. split; [exact Hf|].
  eapply same_session_trans; [exact H0|].
  eapply same_session_trans; [|exact Hs]. now repeat split.
Qed.

Lemma animateDrone_some p ps st :
  exists st', animateDrone (p :: ps) st = Some st' /\ same_session st st'.
Proof.
  unfold animateDrone. eexists. split; [reflexivity|].
  destruct (droneMarker st); now repeat split.
Qed.

Lemma renderTop_fold l : forall st i,
  let st' := fst (fold_left
    (fun '(st, i) a =>
       (set_topAlgorithms
          (topAlgorithms st ++
           [mkTopCard (i + 1) (name (algo a)) (time (algo a)) (score a) (i =? 0)%nat])
          st, S i)) l (st, i)) in
  points st' = points st /\ lastScored st' = lastScored st /\
  innerText st' = innerText st /\ alerts st' = alerts st.
Proof.
  induction l as [|a l IH]; intros st i; cbn; [now repeat split|].
  match goal with |- context [fold_left _ l (?s, ?j)] => specialize (IH s j) end.
  cbn in IH. exact IH.
Qed.

Lemma renderTopAlgorithms_keeps st :
  points (renderTopAlgorithms st) = points st /\
  lastScored (renderTopAlgorithms st) = lastScored st /\
  innerText (renderTopAlgorithms st) = innerText st /\
  alerts (renderTopAlgorithms st) = alerts st.
Proof.
  unfold renderTopAlgorithms.
  exact (renderTop_fold (firstn 3 (lastScored st)) (set_topAlgorithms [] st) 0%nat).
Qed.

(** ** The loop of the distance *)

Section DistanceFacts.
Context {E : Engine}.

Lemma dist_loop ps : forall pre d,
  fold_left (distStep (pre ++ ps)) (seq (List.length pre) (List.length ps - 1)) (Some d) =
  Some (fold_left (fun d ab => (d + haversine (fst ab) (snd ab))%float)
          (combine ps (tl ps)) d).
Proof.
  induction ps as [|a ps IH]; intros pre d; [reflexivity|].
  destruct ps as [|b ps]; [reflexivity|].
  cbn [List.length Nat.sub seq fold_left combine tl fst snd].
  unfold distStep at 2.
  rewrite nth_error_app2, Nat.sub_diag by lia. cbn [nth_error].
  rewrite nth_error_app2 by lia.
  replace (List.length pre + 1 - List.length pre)%nat with 1%nat by lia.
  cbn [nth_error].
  specialize (IH (pre ++ [a]) (d + haversine a b)%float).
  rewrite length_app in IH. cbn [List.length] in IH.
  rewrite Nat.add_1_r in IH. cbn [Nat.sub] in IH. rewrite Nat.sub_0_r in IH.
  rewrite <- app_assoc in IH. cbn [app] in IH. exact IH.
Qed.

Lemma routeDistance_sum ps : routeDistance ps = Some (sum_consecutive ps).
Proof. exact (dist_loop ps [] 0%float). Qed.
End DistanceFacts.

(** ** The route computation as a whole *)

Lemma rank_perm s : Permutation (rank s) (map (scoreAlgorithm s) algorithms).
Proof. apply (sort_perm score). Qed.

Lemma rank_length s : List.length (rank s) = 12%nat.
Proof. now rewrite (Permutation_length (rank_perm s)). Qed.

Lemma rank_cons s : exists best rest, rank s = best :: rest.
Proof.
  pose proof (rank_length s) as H.
  destruct (rank s) as [|best rest]; [discriminate|]. now exists best, rest.
Qed.

Section RouteFacts.
Context {E : Engine}.

(** With two points or more, [computeRoute] runs to its end, and what
    it leaves in [lastScored] and on the page is determined by the
    points alone. *)
Lemma computeRoute_run st :
  (2 <= List.length (points st))%nat ->
  exists best rest st',
    rank (analyzeGraph (points st)) = best :: rest /\
    computeRoute st = Some st' /\
    points st' = points st /\
    lastScored st' = rank (analyzeGraph (points st)) /\
    innerText st' "distance" =
      (toFixed2 (sum_consecutive (points st)) ++ " km")%string /\
    innerText st' "aiExplanation" = explain (name (algo best)) /\
    alerts st' = alerts st.
Proof.
  intros Hn. destruct (rank_cons (analyzeGraph (points st))) as (best & rest & Hr).
  exists best, rest. unfold computeRoute.
  destruct (Nat.ltb_spec (List.length (points st)) 2) as [Hlt|_]; [lia|].
  destruct (drawPath_some st) as (st1 & -> & Hp1 & _ & _ & _ & _ & Ha1).
  destruct (points st1) as [|p ps] eqn:Hps; [rewrite <- Hp1 in Hn; cbn in Hn; lia|].
  destruct (animateDrone_some p ps st1) as (st2 & -> & Hp2 & _ & _ & _ & _ & Ha2).
  rewrite routeDistance_sum.
  cbn [lastScored set_lastScored].
  fold (rank (analyzeGraph (points st2))).
  assert (Hpts : points st2 = points st) by congruence.
  rewrite Hpts, Hr.
  eexists. split; [reflexivity|]. split; [reflexivity|].
  destruct (renderTopAlgorithms_keeps
    (set_innerText "aiExplanation" (explain (name (algo best)))
    (set_innerText "bestReason"
       "Algorithm selected based on structural analysis of the delivery network."
    (set_innerText "complexity" (time (algo best))
    (set_innerText "iterations" (String_of_nat (List.length (points st)))
    (set_innerText "points" (String_of_nat (List.length (points st)))
    (set_innerText "distance" (toFixed2 (sum_consecutive (points st)) ++ " km")%string
    (set_innerText "bestAlgo" (name (algo best))
    (set_innerText "algoName" (name (algo best))
    (set_lastScored (best :: rest)
    (set_lastScored (map (scoreAlgorithm (analyzeGraph (points st))) algorithms) st2)))))))))))
    as (Kp & Kl & Ki & Ka).
  cbn [points set_innerText set_lastScored] in *.
  rewrite Hpts in *.
  match goal with |- points ?s = _ /\ _ => set (res := s) in * end.
  split; [exact Kp|]. split; [exact Kl|].
  rewrite Ki. split; [reflexivity|]. split; [reflexivity|].
  rewrite Ka. cbn. congruence.
Qed.
End RouteFacts.

(** ** Facts on the specification of binary64 arithmetic

    The sign of a product, a quotient or a difference follows the signs
    of the operands: rounding to nearest even is symmetric. *)

Section SpecFloatFacts.
Variables prec emax : Z.

Lemma binary_round_aux_opp s m e l :
  binary_round_aux prec emax (negb s) m e l =
  SFopp (binary_round_aux prec emax s m e l).
Proof.
  unfold binary_round_aux.
  destruct (shr_fexp prec emax m e l) as [mrs' e'].
  destruct (shr_fexp prec emax _ e' loc_Exact) as [mrs'' e''].
  destruct (shr_m mrs''); [reflexivity| |reflexivity].
  now destruct (e'' <=? emax - prec).
Qed.

Lemma binary_round_opp s m e :
  binary_round prec emax (negb s) m e = SFopp (binary_round prec emax s m e).
Proof.
  unfold binary_round. destruct (shl_align m e _) as [mz ez].
  apply binary_round_aux_opp.
Qed.

Lemma binary_normalize_opp m e :
  m <> 0 ->
  binary_normalize prec emax (- m) e false =
  SFopp (binary_normalize prec emax m e false).
Proof.
  destruct m as [|p|p]; intros H; [congruence| |]; cbn.
  - apply (binary_round_opp false).
  - apply (binary_round_opp true).
Qed.

Lemma SFmul_opp_l x y :
  SFmul prec emax (SFopp x) y = SFopp (SFmul prec emax x y).
Proof.
  destruct x as [sx|sx| |sx mx ex], y as [sy|sy| |sy my ey]; cbn;
    try reflexivity; try (now destruct sx, sy).
  rewrite <- binary_round_aux_opp. now destruct sx, sy.
Qed.

Lemma SFdiv_opp_l x y :
  SFdiv prec emax (SFopp x) y = SFopp (SFdiv prec emax x y).
Proof.
  destruct x as [sx|sx| |sx mx ex], y as [sy|sy| |sy my ey]; cbn;
    try reflexivity; try (now destruct sx, sy).
  destruct (SFdiv_core_binary prec emax _ ex _ ey) as [[mz ez] lz].
  rewrite <- binary_round_aux_opp. now destruct sx, sy.
Qed.

Lemma SFmul_comm x y : SFmul prec emax x y = SFmul prec emax y x.
Proof.
  destruct x as [sx|sx| |sx mx ex], y as [sy|sy| |sy my ey]; cbn;
    try reflexivity; try (now destruct sx, sy).
  now rewrite Pos.mul_comm, Z.add_comm, xorb_comm.
Qed.

Lemma SFsub_swap x y :
  SFsub prec emax y x = SFsub prec emax x y \/
  SFsub prec emax y x = SFopp (SFsub prec emax x y).
Proof.
  destruct x as [sx|sx| |sx mx ex], y as [sy|sy| |sy my ey]; cbn;
    try (now left); try (now right); try (now destruct sx, sy; auto).
  rewrite (Z.min_comm ey ex).
  set (ez := Z.min ex ey).
  set (A := cond_Zopp sx _). set (B := cond_Zopp sy _).
  destruct (Z.eq_dec (A - B) 0) as [H0|Hn].
  - left. replace (B - A) with 0 by lia. now rewrite H0.
  - right. replace (B - A) with (- (A - B)) by lia.
    now apply binary_normalize_opp.
Qed.

Lemma SFsub_self x : sf_finite x -> SFsub prec emax x x = S754_zero false.
Proof.
  destruct x as [s|s| |s m e]; cbn; try tauto; intros _.
  - now destruct s.
  - now rewrite Z.sub_diag.
Qed.
End SpecFloatFacts.

(** Rounding cannot overflow when mantissa and exponent are small. *)

Lemma fexp_eq k : fexp prec emax k = Z.max (k - 53) (-1074).
Proof. reflexivity. Qed.

Lemma digits2_size p : digits2_pos p = Pos.size p.
Proof. induction p; cbn; congruence. Qed.

Lemma Zdigits2_bound m D : 0 <= D -> 0 <= m < 2 ^ D -> 0 <= Zdigits2 m <= D.
Proof.
  intros HD [H0 H1]. destruct m as [|p|p]; cbn; [lia| |lia].
  rewrite digits2_size. split; [lia|].
  pose proof (Pos.size_le p) as Hs.
  assert (2 ^ Z.pos (Pos.size p) <= 2 * Z.pos p) as Hs'.
  { assert (Z.pos (2 ^ Pos.size p) <= Z.pos p~0) as H by exact Hs.
    now rewrite Pos2Z.inj_pow, Pos2Z.inj_xO in H. }
  destruct (Z.le_gt_cases (Z.pos (Pos.size p)) D) as [|Hgt]; [assumption|].
  assert (2 ^ (D + 1) <= 2 ^ Z.pos (Pos.size p)) by (apply Z.pow_le_mono_r; lia).
  rewrite Z.pow_add_r in H by lia. lia.
Qed.

Lemma pos_lt_pow_size p : Z.pos p < 2 ^ Z.pos (digits2_pos p).
Proof.
  rewrite digits2_size. pose proof (Pos.size_gt p) as H.
  assert (Z.pos p < Z.pos (2 ^ Pos.size p)) as H' by exact H.
  now rewrite Pos2Z.inj_pow in H'.
Qed.

Lemma shr_1_bound mrs : 0 <= shr_m mrs -> 0 <= shr_m (shr_1 mrs) <= shr_m mrs.
Proof.
  destruct mrs as [m r s]; cbn. destruct m as [|[p|p|]|[p|p|]]; cbn; lia.
Qed.

Lemma shr_iter_bound p : forall mrs,
  0 <= shr_m mrs -> 0 <= shr_m (SpecFloat.iter_pos shr_1 p mrs) <= shr_m mrs.
Proof.
  induction p as [p IH|p IH|]; intros mrs H; cbn.
  - pose proof (shr_1_bound mrs H). pose proof (IH (shr_1 mrs) ltac:(lia)).
    pose proof (IH (SpecFloat.iter_pos shr_1 p (shr_1 mrs)) ltac:(lia)). lia.
  - pose proof (IH mrs H). pose proof (IH (SpecFloat.iter_pos shr_1 p mrs) ltac:(lia)). lia.
  - now apply shr_1_bound.
Qed.

Lemma shr_record_of_loc_m m l : shr_m (shr_record_of_loc m l) = m.
Proof. now destruct l as [|[]]. Qed.

Lemma shr_fexp_bound m e l :
  0 <= m ->
  0 <= shr_m (fst (shr_fexp prec emax m e l)) <= m /\
  snd (shr_fexp prec emax m e l) = Z.max e (fexp prec emax (Zdigits2 m + e)).
Proof.
  intros Hm. unfold shr_fexp, shr.
  destruct (fexp prec emax (Zdigits2 m + e) - e) as [|p|p] eqn:Hn; cbn [fst snd].
  - rewrite shr_record_of_loc_m. lia.
  - pose proof (shr_iter_bound p (shr_record_of_loc m l)) as H.
    rewrite shr_record_of_loc_m in H. split; [now apply H|lia].
  - rewrite shr_record_of_loc_m. lia.
Qed.

Lemma round_nearest_even_bound m l :
  0 <= m -> m <= round_nearest_even m l <= m + 1.
Proof. intros. unfold round_nearest_even. destruct l as [|[]]; try destruct (Z.even m); lia. Qed.

(** Rounding a mantissa below [2^D] at an exponent of at most [X]. *)
Lemma binary_round_aux_bound s m e l D X :
  0 <= D -> 0 <= m < 2 ^ D -> e <= X ->
  let X1 := Z.max X (Z.max (D + X - 53) (-1074)) in
  let X2 := Z.max X1 (Z.max (D + 1 + X1 - 53) (-1074)) in
  X2 <= 971 ->
  sf_le X2 (binary_round_aux prec emax s m e l).
Proof.
  intros HD Hm He X1 X2 HX. unfold binary_round_aux.
  destruct (shr_fexp_bound m e l) as [Hm1 He1]; [lia|].
  destruct (shr_fexp prec emax m e l) as [mrs' e']. cbn [fst snd] in *.
  set (m1 := round_nearest_even _ _).
  pose proof (round_nearest_even_bound (shr_m mrs') (loc_of_shr_record mrs') ltac:(lia)) as Hr.
  fold m1 in Hr.
  destruct (shr_fexp_bound m1 e' loc_Exact) as [Hm2 He2]; [lia|].
  destruct (shr_fexp prec emax m1 e' loc_Exact) as [mrs'' e'']. cbn [fst snd] in *.
  pose proof (Zdigits2_bound m D HD Hm) as Hd.
  assert (0 <= m1 < 2 ^ (D + 1)) as Hm1b.
  { rewrite Z.pow_add_r by lia. lia. }
  pose proof (Zdigits2_bound m1 (D + 1) ltac:(lia) Hm1b) as Hd1.
  rewrite fexp_eq in He1, He2.
  assert (e' <= X1) by lia.
  assert (e'' <= X2) by lia.
  destruct (shr_m mrs'') as [|p|p]; cbn; [exact I| |lia].
  change (emax - prec) with 971.
  destruct (Z.leb_spec e'' 971); cbn; lia.
Qed.

Lemma valid_mantissa s m e :
  valid_binary (S754_finite s m e) = true -> Z.pos m < 2 ^ 53.
Proof.
  cbn. unfold bounded, canonical_mantissa. rewrite fexp_eq.
  intros H. apply andb_prop in H as [H _]. apply Z.eqb_eq in H.
  pose proof (pos_lt_pow_size m) as Hm.
  assert (2 ^ Z.pos (digits2_pos m) <= 2 ^ 53) by (apply Z.pow_le_mono_r; lia).
  lia.
Qed.

Lemma SFmul_bound x y X Y :
  valid_binary x = true -> valid_binary y = true ->
  sf_le X x -> sf_le Y y ->
  let X1 := Z.max (X + Y) (Z.max (106 + (X + Y) - 53) (-1074)) in
  let X2 := Z.max X1 (Z.max (106 + 1 + X1 - 53) (-1074)) in
  X2 <= 971 ->
  sf_le X2 (SFmul prec emax x y).
Proof.
  intros Vx Vy Hx Hy X1 X2 HX.
  destruct x as [sx|sx| |sx mx ex], y as [sy|sy| |sy my ey]; cbn in Hx, Hy;
    try contradiction; try exact I.
  cbn [SFmul].
  apply valid_mantissa in Vx, Vy.
  apply (binary_round_aux_bound _ _ _ _ 106 (X + Y)); try lia.
  change (2 ^ 106) with (2 ^ 53 * 2 ^ 53). rewrite Pos2Z.inj_mul. nia.
Qed.

Lemma SFdiv_bound x y X sy my ey :
  valid_binary x = true ->
  y = S754_finite sy my ey -> valid_binary y = true ->
  sf_le X x ->
  let X0 := X - ey in
  let X1 := Z.max X0 (Z.max (106 + X0 - 53) (-1074)) in
  let X2 := Z.max X1 (Z.max (106 + 1 + X1 - 53) (-1074)) in
  X2 <= 971 ->
  sf_le X2 (SFdiv prec emax x y).
Proof.
  intros Vx -> Vy Hx X0 X1 X2 HX.
  destruct x as [sx|sx| |sx mx ex]; cbn in Hx; try contradiction; try exact I.
  cbn [SFdiv]. unfold SFdiv_core_binary.
  set (d1 := Zdigits2 (Z.pos mx)). set (d2 := Zdigits2 (Z.pos my)).
  set (e' := Z.min _ _). set (sft := ex - ey - e').
  set (m' := match sft with Z.pos _ => Z.shiftl (Z.pos mx) sft | 0 => Z.pos mx | Z.neg _ => 0 end).
  assert (Hd1 : Z.pos mx < 2 ^ d1) by apply pos_lt_pow_size.
  assert (Hd2 : 0 < d2 <= 53).
  { unfold d2. cbn. apply valid_mantissa in Vy.
    pose proof (Zdigits2_bound (Z.pos my) 53 ltac:(lia) ltac:(lia)). cbn in H. lia. }
  assert (Hd1' : 0 < d1 <= 53).
  { unfold d1. cbn. apply valid_mantissa in Vx.
    pose proof (Zdigits2_bound (Z.pos mx) 53 ltac:(lia) ltac:(lia)). cbn in H. lia. }
  assert (He' : e' <= ex - ey) by (unfold e'; lia).
  assert (Hs : 0 <= sft <= 106 - d1).
  { unfold sft, e'. rewrite fexp_eq. lia. }
  assert (Hm' : 0 <= m' < 2 ^ 106).
  { assert (Z.pos mx * 2 ^ sft < 2 ^ 106).
    { replace 106 with (d1 + (106 - d1)) by lia. rewrite Z.pow_add_r by lia.
      assert (2 ^ sft <= 2 ^ (106 - d1)) by (apply Z.pow_le_mono_r; lia).
      assert (0 < 2 ^ sft) by (apply Z.pow_pos_nonneg; lia). nia. }
    unfold m'. destruct sft as [|p|p] eqn:Hp.
    - rewrite Z.pow_0_r in H. lia.
    - rewrite Z.shiftl_mul_pow2 by lia. split; [|exact H].
      apply Z.mul_nonneg_nonneg; [lia|]. apply Z.pow_nonneg. lia.
    - lia. }
  pose proof (Z_div_mod m' (Z.pos my) ltac:(lia)) as Hdm.
  destruct (Z.div_eucl m' (Z.pos my)) as [q r].
  destruct Hdm as [Hq Hr].
  apply (binary_round_aux_bound _ _ _ _ 106 X0); try lia.
  assert (0 <= q) by nia. split; [lia|]. nia.
Qed.

(** Rounding keeps a positive number positive. *)

Lemma shr_1_div mrs : 0 <= shr_m mrs -> shr_m (shr_1 mrs) = shr_m mrs / 2.
Proof.
  destruct mrs as [m r s]; cbn. destruct m as [|[p|p|]|[p|p|]]; cbn; try lia; intros _.
  - rewrite Pos2Z.inj_xI. apply Z.div_unique with 1; lia.
  - rewrite Pos2Z.inj_xO. apply Z.div_unique with 0; lia.
Qed.

Lemma shr_iter_div p : forall mrs,
  0 <= shr_m mrs ->
  shr_m (SpecFloat.iter_pos shr_1 p mrs) = shr_m mrs / 2 ^ Z.pos p.
Proof.
  induction p as [p IH|p IH|]; intros mrs H; cbn [SpecFloat.iter_pos].
  - pose proof (shr_1_bound mrs H).
    pose proof (shr_iter_bound p (shr_1 mrs) ltac:(lia)).
    rewrite !IH, shr_1_div by lia.
    rewrite !Z.div_div by (try apply Z.pow_pos_nonneg; lia).
    f_equal. change (Z.pos p~1) with (2 * Z.pos p + 1).
    replace (2 * Z.pos p + 1) with (1 + Z.pos p + Z.pos p) by lia.
    rewrite !Z.pow_add_r by lia. ring.
  - pose proof (shr_iter_bound p mrs H).
    rewrite !IH by lia.
    rewrite !Z.div_div by (try apply Z.pow_pos_nonneg; lia).
    f_equal. change (Z.pos p~0) with (2 * Z.pos p).
    replace (2 * Z.pos p) with (Z.pos p + Z.pos p) by lia.
    rewrite !Z.pow_add_r by lia. ring.
  - rewrite shr_1_div by lia. reflexivity.
Qed.

Lemma pow_size_le p : 2 ^ Z.pos (digits2_pos p) <= 2 * Z.pos p.
Proof.
  rewrite digits2_size. pose proof (Pos.size_le p) as Hs.
  assert (Z.pos (2 ^ Pos.size p) <= Z.pos p~0) as H by exact Hs.
  now rewrite Pos2Z.inj_pow, Pos2Z.inj_xO in H.
Qed.

(** Shifting to the format's exponent keeps a positive mantissa positive
    when the exponent is not below the smallest one. *)
Lemma shr_fexp_pos m e l :
  0 < m -> -1074 <= e ->
  0 < shr_m (fst (shr_fexp prec emax m e l)) /\
  -1074 <= snd (shr_fexp prec emax m e l).
Proof.
  intros Hm He. unfold shr_fexp, shr. rewrite fexp_eq.
  destruct m as [|p|p]; try lia. cbn [Zdigits2].
  destruct (Z.max (Z.pos (digits2_pos p) + e - 53) (-1074) - e) as [|n|n] eqn:Hn;
    cbn [fst snd]; rewrite ?shr_record_of_loc_m; try lia.
  rewrite shr_iter_div by (rewrite shr_record_of_loc_m; lia).
  rewrite shr_record_of_loc_m. split; [|lia].
  assert (Z.pos n = Z.pos (digits2_pos p) - 53) as -> by lia.
  pose proof (pow_size_le p) as Hs.
  set (d := Z.pos (digits2_pos p)) in *.
  assert (2 ^ d = 2 ^ (d - 53) * 2 ^ 53) as Hd.
  { rewrite <- Z.pow_add_r by lia. f_equal. lia. }
  assert (0 < 2 ^ (d - 53)) by (apply Z.pow_pos_nonneg; lia).
  apply Z.div_str_pos. split; [lia|]. nia.
Qed.

Lemma binary_round_aux_pos s m e l :
  0 < m -> -1074 <= e ->
  match binary_round_aux prec emax s m e l with
  | S754_infinity s' | S754_finite s' _ _ => s' = s
  | _ => False
  end.
Proof.
  intros Hm He. unfold binary_round_aux.
  destruct (shr_fexp_pos m e l Hm He) as [H1 H2].
  destruct (shr_fexp prec emax m e l) as [mrs' e']. cbn [fst snd] in *.
  pose proof (round_nearest_even_bound (shr_m mrs') (loc_of_shr_record mrs') ltac:(lia)) as Hr.
  destruct (shr_fexp_pos (round_nearest_even (shr_m mrs') (loc_of_shr_record mrs')) e' loc_Exact
              ltac:(lia) H2) as [H3 H4].
  destruct (shr_fexp prec emax _ e' loc_Exact) as [mrs'' e'']. cbn [fst snd] in *.
  destruct (shr_m mrs'') as [|p|p]; try lia.
  now destruct (e'' <=? emax - prec).
Qed.

Lemma binary_round_pos s m e :
  -1074 <= e ->
  match binary_round prec emax s m e with
  | S754_infinity s' | S754_finite s' _ _ => s' = s
  | _ => False
  end.
Proof.
  intros He. unfold binary_round, shl_align. rewrite fexp_eq.
  destruct (Z.max (Z.pos (digits2_pos m) + e - 53) (-1074) - e) as [|n|n] eqn:Hn;
    apply binary_round_aux_pos; lia.
Qed.

Lemma binary_normalize_nonneg m e :
  0 <= m -> sf_nonneg (binary_normalize prec emax m e false).
Proof.
  destruct m as [|p|p]; intros H; [exact I| |lia]. cbn.
  unfold binary_round. destruct (shl_align p e _) as [mz ez].
  unfold binary_round_aux.
  destruct (shr_fexp prec emax (Z.pos mz) ez loc_Exact) as [mrs' e'].
  destruct (shr_fexp prec emax _ e' loc_Exact) as [mrs'' e''].
  destruct (shr_m mrs''); cbn; auto.
  destruct (e'' <=? _); reflexivity.
Qed.

(** Canonical representations. *)

Lemma valid_exponent s m e :
  valid_binary (S754_finite s m e) = true -> -1074 <= e.
Proof.
  cbn. unfold bounded, canonical_mantissa. rewrite fexp_eq.
  intros H. apply andb_prop in H as [H _]. apply Z.eqb_eq in H. lia.
Qed.

(** Above the smallest exponent the mantissa has all its 53 digits. *)
Lemma valid_normal s m e :
  valid_binary (S754_finite s m e) = true -> -1074 < e -> 2 ^ 52 <= Z.pos m.
Proof.
  cbn. unfold bounded, canonical_mantissa. rewrite fexp_eq.
  intros H He. apply andb_prop in H as [H _]. apply Z.eqb_eq in H.
  assert (Hd : Z.pos (digits2_pos m) = 53) by lia.
  pose proof (pow_size_le m) as Hs. rewrite Hd in Hs.
  change (2 ^ 53) with (2 * 2 ^ 52) in Hs. lia.
Qed.

Lemma iter_xO m d : Z.pos (Pos.iter xO m d) = Z.pos m * 2 ^ Z.pos d.
Proof.
  induction d as [|d IH] using Pos.peano_ind.
  - cbn. lia.
  - rewrite Pos.iter_succ, Pos2Z.inj_xO, IH, Pos2Z.inj_succ, Z.pow_succ_r by lia. ring.
Qed.

Lemma shl_align_fst m e e' :
  e' <= e -> Z.pos (fst (shl_align m e e')) = Z.pos m * 2 ^ (e - e').
Proof.
  intros H. unfold shl_align.
  destruct (e' - e) as [|d|d] eqn:Hd; cbn [fst]; try lia.
  - replace (e - e') with 0 by lia. lia.
  - rewrite iter_xO. f_equal. f_equal. lia.
Qed.

(** With the larger exponent comes the larger number. *)
Lemma aligned_lt sx mx ex sy my ey :
  valid_binary (S754_finite sx mx ex) = true ->
  valid_binary (S754_finite sy my ey) = true ->
  ex < ey ->
  Z.pos (fst (shl_align mx ex (Z.min ey ex))) <
  Z.pos (fst (shl_align my ey (Z.min ey ex))).
Proof.
  intros Vx Vy H.
  pose proof (valid_exponent _ _ _ Vx). pose proof (valid_mantissa _ _ _ Vx).
  pose proof (valid_normal _ _ _ Vy ltac:(lia)).
  rewrite !shl_align_fst by lia.
  replace (Z.min ey ex) with ex by lia. rewrite Z.sub_diag, Z.mul_1_r.
  assert (2 ^ 1 <= 2 ^ (ey - ex)) by (apply Z.pow_le_mono_r; lia).
  change (2 ^ 53) with (2 ^ 52 * 2 ^ 1) in *. nia.
Qed.

Lemma aligned_same m e : Z.pos (fst (shl_align m e (Z.min e e))) = Z.pos m.
Proof. rewrite shl_align_fst by lia. rewrite Z.min_id, Z.sub_diag. lia. Qed.

(** The order of spec floats. *)

Lemma SFcompare_antisym x y :
  SFcompare y x = option_map CompOpp (SFcompare x y).
Proof.
  destruct x as [sx|sx| |sx mx ex], y as [sy|sy| |sy my ey]; cbn;
    try reflexivity; try (now destruct sx); try (now destruct sy);
    try (now destruct sx, sy).
  rewrite (Z.compare_antisym ex ey).
  destruct sx, sy; cbn; try reflexivity;
    destruct (ex ?= ey); cbn; try reflexivity;
    rewrite ?CompOpp_involutive, ?Pos.compare_cont_antisym; reflexivity.
Qed.

Lemma SFleb_sub_nonneg x y :
  valid_binary x = true -> valid_binary y = true ->
  SFleb x y = true -> sf_nonneg (SFsub prec emax y x).
Proof.
  intros Vx Vy. unfold SFleb.
  destruct x as [sx|sx| |sx mx ex], y as [sy|sy| |sy my ey]; cbn;
    try discriminate; try (destruct sx, sy; cbn; discriminate || reflexivity || exact (fun _ => I));
    try (destruct sx; cbn; discriminate || reflexivity || exact (fun _ => I));
    try (destruct sy; cbn; discriminate || reflexivity || exact (fun _ => I)).
  intros H. apply binary_normalize_nonneg.
  destruct sx, sy; try discriminate; cbn [cond_Zopp].
  - (* both negative *)
    destruct (Z.compare_spec ex ey) as [->|Hlt|Hgt]; try discriminate.
    + rewrite !aligned_same.
      change (Pos.compare_cont Eq mx my) with (mx ?= my)%positive in H.
      destruct (Pos.compare_spec mx my); cbn in H; try discriminate; lia.
    + pose proof (aligned_lt _ _ _ _ _ _ Vy Vx Hgt) as K.
      rewrite Z.min_comm in K. lia.
  - (* both positive *)
    destruct (Z.compare_spec ex ey) as [->|Hlt|Hgt]; try discriminate.
    + rewrite !aligned_same.
      change (Pos.compare_cont Eq mx my) with (mx ?= my)%positive in H.
      destruct (Pos.compare_spec mx my); cbn in H; try discriminate; lia.
    + pose proof (aligned_lt _ _ _ _ _ _ Vx Vy Hlt) as K. lia.
Qed.

Lemma SFadd_nonneg x y :
  sf_nonneg x -> sf_nonneg y -> sf_nonneg (SFadd prec emax x y).
Proof.
  destruct x as [sx|sx| |sx mx ex], y as [sy|sy| |sy my ey]; cbn;
    try (intros; subst; cbn; auto; fail).
  - intros _ _. now destruct sx, sy.
  - intros -> ->. apply binary_normalize_nonneg. cbn [cond_Zopp]. lia.
Qed.

(** Adding a positive number to a non-negative one gives a positive
    one, or NaN. *)
Lemma SFadd_pos x m e :
  valid_binary x = true -> valid_binary (S754_finite false m e) = true ->
  sf_nonneg x ->
  SFeqb (SFadd prec emax x (S754_finite false m e)) (S754_zero false) = false.
Proof.
  intros Vx Vy. destruct x as [sx|sx| |sx mx ex]; cbn [sf_nonneg SFadd].
  - reflexivity.
  - intros ->. reflexivity.
  - reflexivity.
  - intros ->.
    pose proof (valid_exponent _ _ _ Vx). pose proof (valid_exponent _ _ _ Vy).
    cbn [cond_Zopp].
    set (a := fst (shl_align mx ex (Z.min ex e))).
    set (b := fst (shl_align m e (Z.min ex e))).
    change (Z.pos a + Z.pos b) with (Z.pos (a + b)). cbn [binary_normalize].
    pose proof (binary_round_pos false (a + b) (Z.min ex e) ltac:(lia)) as H1.
    destruct (binary_round prec emax false (a + b) (Z.min ex e)); try contradiction;
      subst; reflexivity.
Qed.

Lemma SFcompare_refl' f : f <> S754_nan -> SFcompare f f = Some Eq.
Proof.
  destruct f as [s|s| |s m e]; cbn; try congruence; intros _;
    try (now destruct s).
  rewrite Z.compare_refl, Pos.compare_cont_refl. now destruct s.
Qed.

Lemma SFleb_refl f : f <> S754_nan -> SFleb f f = true.
Proof. intros H. unfold SFleb. now rewrite SFcompare_refl'. Qed.

Lemma SFltb_leb x y : SFltb x y = true -> SFleb x y = true.
Proof. unfold SFltb, SFleb. now destruct (SFcompare x y) as [[]|]. Qed.

(** Of two numbers one is below the other. *)
Lemma SFleb_total x y :
  x <> S754_nan -> y <> S754_nan -> SFltb y x = false -> SFleb x y = true.
Proof.
  intros Hx Hy. unfold SFltb, SFleb. rewrite (SFcompare_antisym x y).
  destruct (SFcompare x y) as [[]|] eqn:H; cbn; try congruence.
  destruct x, y; cbn in H; congruence.
Qed.

Lemma SFleb_trans x y z :
  SFleb x y = true -> SFleb y z = true -> SFleb x z = true.
Proof.
  unfold SFleb.
  destruct x as [sx|sx| |sx mx ex], y as [sy|sy| |sy my ey], z as [sz|sz| |sz mz ez];
    cbn; try discriminate; try reflexivity;
    try (destruct sx; cbn; try discriminate; try reflexivity);
    try (destruct sy; cbn; try discriminate; try reflexivity);
    try (destruct sz; cbn; try discriminate; try reflexivity).
  all: change (Pos.compare_cont Eq) with Pos.compare;
    destruct (Z.compare_spec ex ey), (Z.compare_spec ey ez), (Z.compare_spec ex ez);
    try discriminate; try reflexivity; try lia; subst;
    destruct (Pos.compare_spec mx my), (Pos.compare_spec my mz), (Pos.compare_spec mx mz);
    cbn; try discriminate; try reflexivity; try lia.
Qed.

(** ** Facts on primitive floats *)

Section FloatFacts.
Local Open Scope float_scope.

Lemma finite_sf x : finite x = true <-> sf_finite (Prim2SF x).
Proof.
  unfold finite. rewrite classify_spec. unfold SF64classify, SFclassify.
  destruct (Prim2SF x) as [[]|[]| |[] m e]; cbn;
    repeat match goal with
           | |- context [if ?c then _ else _] => destruct c
           end; easy.
Qed.

Lemma sf_le_finite X x : sf_le X (Prim2SF x) -> finite x = true.
Proof.
  intros H. apply finite_sf. destruct (Prim2SF x); cbn in *; tauto.
Qed.

Lemma SFcompare_refl f : sf_finite f -> SFcompare f f = Some Eq.
Proof.
  destruct f as [s|s| |s m e]; cbn; try tauto. intros _.
  rewrite Z.compare_refl, Pos.compare_cont_refl. now destruct s.
Qed.

Lemma is_nan_finite x : finite x = true -> is_nan x = false.
Proof.
  intros H. apply finite_sf in H. unfold is_nan.
  rewrite FloatAxioms.eqb_spec. unfold SFeqb. now rewrite SFcompare_refl.
Qed.

Lemma ltb_irrefl x : finite x = true -> (x <? x) = false.
Proof.
  intros H. apply finite_sf in H.
  rewrite FloatAxioms.ltb_spec. unfold SFltb. now rewrite SFcompare_refl.
Qed.

Lemma ltb_infinity x : finite x = true -> (x <? infinity) = true.
Proof.
  intros H. apply finite_sf in H. rewrite FloatAxioms.ltb_spec.
  change (Prim2SF infinity) with (S754_infinity false).
  now destruct (Prim2SF x).
Qed.

Lemma neg_infinity_ltb x : finite x = true -> (neg_infinity <? x) = true.
Proof.
  intros H. apply finite_sf in H. rewrite FloatAxioms.ltb_spec.
  change (Prim2SF neg_infinity) with (S754_infinity true).
  now destruct (Prim2SF x).
Qed.

Lemma not_both_zeros x : is_pos_zero x && is_neg_zero x = false.
Proof. unfold is_pos_zero, is_neg_zero. now destruct (classify x). Qed.

Lemma not_both_zeros' x : is_neg_zero x && is_pos_zero x = false.
Proof. unfold is_pos_zero, is_neg_zero. now destruct (classify x). Qed.

Lemma Math_min_same x : finite x = true -> Math_min x x = x.
Proof.
  intros H. unfold Math_min.
  now rewrite is_nan_finite, not_both_zeros, ltb_irrefl.
Qed.

Lemma Math_max_same x : finite x = true -> Math_max x x = x.
Proof.
  intros H. unfold Math_max, gtb.
  now rewrite is_nan_finite, not_both_zeros', ltb_irrefl.
Qed.

Lemma Math_min_infinity x : finite x = true -> Math_min infinity x = x.
Proof.
  intros H. unfold Math_min.
  rewrite (is_nan_finite x H), ltb_infinity by exact H. reflexivity.
Qed.

Lemma Math_max_neg_infinity x : finite x = true -> Math_max neg_infinity x = x.
Proof.
  intros H. unfold Math_max, gtb.
  rewrite (is_nan_finite x H), neg_infinity_ltb by exact H. reflexivity.
Qed.

Lemma sub_self x : finite x = true -> x - x = 0.
Proof.
  intros H. apply finite_sf in H. apply Prim2SF_inj.
  rewrite sub_spec. unfold SF64sub. now rewrite SFsub_self.
Qed.

Lemma mul_zero_r x : finite x = true -> x * 0 = 0 \/ x * 0 = -0.
Proof.
  intros H. apply finite_sf in H.
  assert (Prim2SF (x * 0) = S754_zero false \/ Prim2SF (x * 0) = S754_zero true) as [K|K].
  { rewrite mul_spec. change (Prim2SF 0) with (S754_zero false).
    destruct (Prim2SF x) as [[]|[]| |[] m e]; cbn in *; tauto. }
  - left. now apply Prim2SF_inj.
  - right. now apply Prim2SF_inj.
Qed.

Lemma mul_opp_l x y : (- x) * y = - (x * y).
Proof.
  apply Prim2SF_inj. rewrite mul_spec, !opp_spec, mul_spec. apply SFmul_opp_l.
Qed.

Lemma div_opp_l x y : (- x) / y = - (x / y).
Proof.
  apply Prim2SF_inj. rewrite div_spec, !opp_spec, div_spec. apply SFdiv_opp_l.
Qed.

Lemma mul_comm x y : x * y = y * x.
Proof. apply Prim2SF_inj. rewrite !mul_spec. apply SFmul_comm. Qed.

Lemma mul_opp_opp x : (- x) * (- x) = x * x.
Proof.
  rewrite mul_opp_l, (mul_comm x (- x)), mul_opp_l.
  apply Prim2SF_inj. rewrite !opp_spec.
  destruct (Prim2SF (x * x)) as [[]|[]| |[] m e]; reflexivity.
Qed.

Lemma sub_swap x y : y - x = x - y \/ y - x = - (x - y).
Proof.
  destruct (SFsub_swap prec emax (Prim2SF x) (Prim2SF y)) as [H|H].
  - left. apply Prim2SF_inj. now rewrite !sub_spec.
  - right. apply Prim2SF_inj. now rewrite opp_spec, !sub_spec.
Qed.

(** A bound on the absolute value bounds the exponent. *)
Lemma abs_leb_sf x b mb eb :
  Prim2SF b = S754_finite false mb eb ->
  (abs x <=? b) = true -> sf_le eb (Prim2SF x).
Proof.
  intros Hb. rewrite FloatAxioms.leb_spec, abs_spec, Hb. unfold SFleb.
  destruct (Prim2SF x) as [s|s| |s m e]; cbn; try easy.
  destruct (Z.compare_spec e eb); try lia; easy.
Qed.

Lemma mul_sf x y X Y :
  sf_le X (Prim2SF x) -> sf_le Y (Prim2SF y) ->
  let X1 := Z.max (X + Y) (Z.max (106 + (X + Y) - 53) (-1074)) in
  let X2 := Z.max X1 (Z.max (106 + 1 + X1 - 53) (-1074)) in
  (X2 <= 971)%Z ->
  sf_le X2 (Prim2SF (x * y)).
Proof.
  intros Hx Hy X1 X2 HX. rewrite mul_spec.
  apply SFmul_bound; auto using Prim2SF_valid.
Qed.

Lemma div_sf x y X sy my ey :
  sf_le X (Prim2SF x) -> Prim2SF y = S754_finite sy my ey ->
  let X0 := (X - ey)%Z in
  let X1 := Z.max X0 (Z.max (106 + X0 - 53) (-1074)) in
  let X2 := Z.max X1 (Z.max (106 + 1 + X1 - 53) (-1074)) in
  (X2 <= 971)%Z ->
  sf_le X2 (Prim2SF (x / y)).
Proof.
  intros Hx Hy X0 X1 X2 HX. rewrite div_spec.
  eapply SFdiv_bound; eauto using Prim2SF_valid.
Qed.
End FloatFacts.

(** ** Haversine *)

Section HaversineFacts.
Context {E : Engine}.
Local Open Scope float_scope.

Lemma radians_finite x :
  (abs x <=? 90) = true -> finite (x * Math_PI / 180) = true.
Proof.
  intros H.
  apply (abs_leb_sf x 90 6333186975989760 (-46) eq_refl) in H.
  pose proof (mul_sf x Math_PI (-46) (-51) H ltac:(cbn; lia) ltac:(cbn; lia)) as H1.
  pose proof (div_sf _ 180 _ false 6333186975989760 (-45) H1 eq_refl ltac:(cbn; lia)) as H2.
  exact (sf_le_finite _ _ H2).
Qed.

Lemma cos_product_zero `{!EngineLaws E} x y :
  finite x = true -> finite y = true ->
  0 + Math_cos x * Math_cos y * 0 = 0.
Proof.
  intros Hx Hy.
  pose proof (abs_leb_sf _ 1 4503599627370496 (-52) eq_refl (cos_range x Hx)) as Cx.
  pose proof (abs_leb_sf _ 1 4503599627370496 (-52) eq_refl (cos_range y Hy)) as Cy.
  pose proof (mul_sf _ _ _ _ Cx Cy ltac:(cbn; lia)) as Hm.
  apply sf_le_finite in Hm.
  destruct (mul_zero_r _ Hm) as [-> | ->]; reflexivity.
Qed.

Lemma haversine_same `{!EngineLaws E} a :
  on_globe a = true -> haversine a a = 0.
Proof.
  unfold on_globe. intros H. apply andb_prop in H as [Hlat Flng].
  assert (Flat : finite (lat a) = true).
  { exact (sf_le_finite _ _ (abs_leb_sf _ 90 6333186975989760 (-46) eq_refl Hlat)). }
  unfold haversine. rewrite !sub_self by assumption.
  change (0 * Math_PI / 180 / 2) with 0.
  rewrite sin_zero, pow_zero.
  rewrite cos_product_zero by (apply radians_finite; exact Hlat).
  rewrite sqrt_zero, asin_zero. reflexivity.
Qed.

Lemma half_angle_swap `{!EngineSymmetry E} x y :
  Math_pow (Math_sin ((y - x) * Math_PI / 180 / 2)) 2 =
  Math_pow (Math_sin ((x - y) * Math_PI / 180 / 2)) 2.
Proof.
  destruct (sub_swap x y) as [-> | ->]; [reflexivity|].
  now rewrite mul_opp_l, !div_opp_l, sin_odd, pow_even.
Qed.

Lemma haversine_sym `{!EngineSymmetry E} a b : haversine a b = haversine b a.
Proof.
  unfold haversine.
  rewrite (half_angle_swap (lat a) (lat b)), (half_angle_swap (lng a) (lng b)).
  now rewrite (mul_comm (Math_cos (lat a * Math_PI / 180))).
Qed.
End HaversineFacts.

Lemma small_angle_laws : EngineLaws small_angle_engine.
Proof. split; intros; reflexivity. Qed.

Lemma small_angle_symmetry : EngineSymmetry small_angle_engine.
Proof. split; intros; cbn; [reflexivity|apply mul_opp_opp]. Qed.

(** ** Graph statistics *)

Lemma extend_fold ps : forall b,
  fold_left extend ps b =
  mkBounds (fold_left Math_min (map lat ps) (minLat b))
           (fold_left Math_max (map lat ps) (maxLat b))
           (fold_left Math_min (map lng ps) (minLng b))
           (fold_left Math_max (map lng ps) (maxLng b)).
Proof.
  induction ps as [|p ps IH]; intros b; [now destruct b|].
  cbn [fold_left map]. now rewrite IH.
Qed.

Lemma min_repeat x k : finite x = true -> fold_left Math_min (repeat x k) x = x.
Proof.
  intros H. induction k as [|k IH]; [reflexivity|].
  cbn [repeat fold_left]. now rewrite Math_min_same.
Qed.

Lemma max_repeat x k : finite x = true -> fold_left Math_max (repeat x k) x = x.
Proof.
  intros H. induction k as [|k IH]; [reflexivity|].
  cbn [repeat fold_left]. now rewrite Math_max_same.
Qed.

Lemma min_of_repeat x k : finite x = true -> min_of (repeat x (S k)) = x.
Proof.
  intros H. unfold min_of. cbn [repeat fold_left].
  rewrite Math_min_infinity by exact H. now apply min_repeat.
Qed.

Lemma max_of_repeat x k : finite x = true -> max_of (repeat x (S k)) = x.
Proof.
  intros H. unfold max_of. cbn [repeat fold_left].
  rewrite Math_max_neg_infinity by exact H. now apply max_repeat.
Qed.

Lemma analyzeGraph_fields ps :
  n (analyzeGraph ps) = List.length ps /\
  spread (analyzeGraph ps) =
    ((max_of (map lat ps) - min_of (map lat ps)) +
     (max_of (map lng ps) - min_of (map lng ps)))%float /\
  density (analyzeGraph ps) =
    (Number_of_nat (List.length ps) / (spread (analyzeGraph ps) + epsilon))%float.
Proof.
  unfold analyzeGraph. rewrite extend_fold. cbn. now repeat split.
Qed.

Lemma spread_repeat p k :
  finite (lat p) = true -> finite (lng p) = true ->
  spread (analyzeGraph (repeat p (S k))) = 0%float.
Proof.
  intros Hlat Hlng.
  destruct (analyzeGraph_fields (repeat p (S k))) as (_ & -> & _).
  rewrite !map_repeat, !min_of_repeat, !max_of_repeat, !sub_self by assumption.
  reflexivity.
Qed.

(** ** The extrema kept by [analyzeGraph] *)

Section ExtremaFacts.
Local Open Scope float_scope.

Lemma is_nan_sf x : is_nan x = true <-> Prim2SF x = S754_nan.
Proof.
  unfold is_nan. rewrite FloatAxioms.eqb_spec. unfold SFeqb.
  destruct (Prim2SF x) as [s|s| |s m e] eqn:H.
  1,2,4: rewrite SFcompare_refl' by discriminate; split; discriminate.
  now split.
Qed.

Lemma is_nan_false_sf x : is_nan x = false <-> Prim2SF x <> S754_nan.
Proof.
  rewrite <- is_nan_sf. destruct (is_nan x); split; congruence.
Qed.

Lemma zero_classes a b :
  (is_pos_zero a && is_neg_zero b = true \/ is_neg_zero a && is_pos_zero b = true) ->
  (a <=? b) = true /\ (b <=? a) = true.
Proof.
  unfold is_pos_zero, is_neg_zero. rewrite !classify_spec, !FloatAxioms.leb_spec.
  unfold SF64classify, SFclassify.
  destruct (Prim2SF a) as [[]|[]| |[] ma ea], (Prim2SF b) as [[]|[]| |[] mb eb]; cbn;
    repeat match goal with
           | |- context [if ?c then _ else _] => destruct c
           end; cbn; intuition discriminate.
Qed.

Lemma leb_refl x : is_nan x = false -> (x <=? x) = true.
Proof.
  intros H. apply is_nan_false_sf in H. rewrite FloatAxioms.leb_spec.
  now apply SFleb_refl.
Qed.

Lemma leb_trans x y z : (x <=? y) = true -> (y <=? z) = true -> (x <=? z) = true.
Proof. rewrite !FloatAxioms.leb_spec. apply SFleb_trans. Qed.

Lemma ltb_leb x y : (x <? y) = true -> (x <=? y) = true.
Proof. rewrite FloatAxioms.ltb_spec, FloatAxioms.leb_spec. apply SFltb_leb. Qed.

Lemma leb_total x y :
  is_nan x = false -> is_nan y = false -> (y <? x) = false -> (x <=? y) = true.
Proof.
  rewrite !is_nan_false_sf, FloatAxioms.ltb_spec, FloatAxioms.leb_spec.
  apply SFleb_total.
Qed.

Lemma Math_min_le a b :
  is_nan a = false -> is_nan b = false ->
  (Math_min a b <=? a) = true /\ (Math_min a b <=? b) = true.
Proof.
  intros Ha Hb. unfold Math_min. rewrite Ha, Hb. cbn [orb].
  destruct (is_pos_zero a && is_neg_zero b) eqn:Hz.
  - destruct (zero_classes a b (or_introl Hz)). auto using leb_refl.
  - destruct (b <? a) eqn:Hlt.
    + auto using leb_refl, ltb_leb.
    + auto using leb_refl, leb_total.
Qed.

Lemma Math_max_ge a b :
  is_nan a = false -> is_nan b = false ->
  (a <=? Math_max a b) = true /\ (b <=? Math_max a b) = true.
Proof.
  intros Ha Hb. unfold Math_max, gtb. rewrite Ha, Hb. cbn [orb].
  destruct (is_neg_zero a && is_pos_zero b) eqn:Hz.
  - destruct (zero_classes a b (or_intror Hz)). auto using leb_refl.
  - destruct (a <? b) eqn:Hlt.
    + auto using leb_refl, ltb_leb.
    + auto using leb_refl, leb_total.
Qed.

Lemma Math_min_nan a b :
  is_nan a = true \/ is_nan b = true -> Prim2SF (Math_min a b) = S754_nan.
Proof. unfold Math_min. now intros [-> | ->]; rewrite ?orb_true_r. Qed.

Lemma Math_max_nan a b :
  is_nan a = true \/ is_nan b = true -> Prim2SF (Math_max a b) = S754_nan.
Proof. unfold Math_max. now intros [-> | ->]; rewrite ?orb_true_r. Qed.

Lemma leb_not_nan a b : (a <=? b) = true -> is_nan a = false /\ is_nan b = false.
Proof.
  rewrite FloatAxioms.leb_spec, !is_nan_false_sf. unfold SFleb.
  destruct (Prim2SF a), (Prim2SF b); cbn; try discriminate; split; discriminate.
Qed.

(** One more point keeps the extrema in order. *)
Lemma ordered_step lo hi x :
  ordered lo hi -> ordered (Math_min lo x) (Math_max hi x).
Proof.
  intros [[Hlo Hhi] | Hle].
  - left. apply is_nan_sf in Hlo, Hhi.
    split; [apply Math_min_nan|apply Math_max_nan]; auto.
  - destruct (is_nan x) eqn:Hx.
    + left. split; [apply Math_min_nan|apply Math_max_nan]; auto.
    + right. destruct (leb_not_nan _ _ Hle) as [Hlo Hhi].
      destruct (Math_min_le lo x Hlo Hx) as [H1 _].
      destruct (Math_max_ge hi x Hhi Hx) as [H2 _].
      eauto using leb_trans.
Qed.

(** The first point puts them in order. *)
Lemma ordered_first x : ordered (Math_min infinity x) (Math_max neg_infinity x).
Proof.
  destruct (is_nan x) eqn:Hx.
  - left. split; [apply Math_min_nan|apply Math_max_nan]; auto.
  - right.
    destruct (Math_min_le infinity x eq_refl Hx) as [_ H1].
    destruct (Math_max_ge neg_infinity x eq_refl Hx) as [_ H2].
    eauto using leb_trans.
Qed.

Lemma ordered_fold l : forall lo hi,
  ordered lo hi -> ordered (fold_left Math_min l lo) (fold_left Math_max l hi).
Proof.
  induction l as [|x l IH]; intros lo hi H; [exact H|].
  cbn [fold_left]. apply IH. now apply ordered_step.
Qed.

Lemma ordered_extrema x l : ordered (min_of (x :: l)) (max_of (x :: l)).
Proof. unfold min_of, max_of. cbn [fold_left]. apply ordered_fold, ordered_first. Qed.

(** The range of numbers in order is NaN, a zero or positive. *)
Lemma range_nonneg lo hi : ordered lo hi -> sf_nonneg (Prim2SF (hi - lo)).
Proof.
  rewrite sub_spec. intros [[Hlo Hhi] | Hle].
  - rewrite Hlo, Hhi. exact I.
  - rewrite FloatAxioms.leb_spec in Hle.
    apply SFleb_sub_nonneg; auto using Prim2SF_valid.
Qed.

(** The divisor of the density is never zero. *)
Lemma divisor_not_zero ps :
  (spread (analyzeGraph ps) + epsilon =? 0) = false.
Proof.
  destruct ps as [|p ps]; [reflexivity|].
  destruct (analyzeGraph_fields (p :: ps)) as (_ & -> & _).
  cbn [map].
  pose proof (range_nonneg _ _ (ordered_extrema (lat p) (map lat ps))) as H1.
  pose proof (range_nonneg _ _ (ordered_extrema (lng p) (map lng ps))) as H2.
  rewrite FloatAxioms.eqb_spec, add_spec.
  change (Prim2SF epsilon) with (S754_finite false 7378697629483821 (-66)).
  change (Prim2SF 0) with (S754_zero false).
  apply SFadd_pos; [apply Prim2SF_valid|reflexivity|].
  rewrite add_spec. now apply SFadd_nonneg.
Qed.
End ExtremaFacts.

(** ** Reset *)

Lemma removed_app l1 l2 x : removed (l1 ++ l2) x = removed l1 x || removed l2 x.
Proof. unfold removed. apply existsb_app. Qed.

Lemma filter_filter {A} (f g : A -> bool) l :
  filter f (filter g l) = filter (fun x => g x && f x) l.
Proof.
  induction l as [|x l IH]; [reflexivity|]. cbn.
  destruct (g x); cbn; [destruct (f x)|]; now rewrite IH.
Qed.

Lemma filter_all {A} (l : list A) : filter (fun _ => true) l = l.
Proof. induction l; cbn; congruence. Qed.

(** Removing layers changes the map and nothing else. *)
Lemma removeLayers_eq ls : forall st,
  fold_left (fun st l => removeLayer l st) ls st =
  mkState (points st) (markers st) (polylines st) (droneMarker st)
    (lastScored st)
    (filter (fun x => negb (removed ls x)) (map_layers st))
    (next_layer st) (innerText st) (topAlgorithms st) (timers st) (alerts st).
Proof.
  induction ls as [|l ls IH]; intros st; cbn [fold_left].
  - cbn. rewrite filter_all. now destruct st.
  - rewrite IH. cbn. f_equal. rewrite filter_filter.
    apply filter_ext. intros x. unfold removed. cbn.
    now destruct (layer_id x =? l)%nat.
Qed.

Lemma resetMap_eq st :
  resetMap st =
  mkState [] [] [] (droneMarker st) (lastScored st)
    (filter (fun x => negb (removed (reset_layers st) x)) (map_layers st))
    (next_layer st) (innerText st) (topAlgorithms st) (timers st) (alerts st).
Proof.
  unfold resetMap, reset_layers. rewrite !removeLayers_eq.
  cbn -[filter removed].
  destruct (droneMarker st) as [d|];
    unfold set_polylines, set_markers, removeLayer; cbn -[filter removed]; f_equal;
    rewrite ?filter_filter; apply filter_ext; intros x;
    rewrite !removed_app, !negb_orb; unfold removed; cbn.
  - now rewrite orb_false_r.
  - now rewrite andb_true_r.
Qed.


Lemma catalog_names_distinct : NoDup (map name algorithms).
Proof.
  cbn. repeat constructor; cbn; intros H;
    repeat (destruct H as [H|H]; [discriminate H|]); exact H.
Qed.

(** * The statements of the specification *)

(** C1: for all graph statistics, the scoring callback gives every
    descriptor (so each of the twelve of the catalog, in catalog order)
    its base score plus the sum of the adjustments of all matching rows
    of the five-row table, clamped once to [0,100].  In particular with
    three points BFS scores 100, DFS 85 and Floyd-Warshall 30, and with
    five points Dijkstra scores 100 and Floyd-Warshall stays at 60,
    whatever the spread and the density. *)
Theorem scoring_follows_rule_table :
  (forall s a, scoreAlgorithm s a = mkScored a (table_score s a)) /\
  (forall s, map (scoreAlgorithm s) algorithms =
             map (fun a => mkScored a (table_score s a)) algorithms) /\
  List.length algorithms = 12%nat /\
  (forall sp de,
     scoreOf (mkAnalysis 3 sp de) "BFS" = Some 100 /\
     scoreOf (mkAnalysis 3 sp de) "DFS" = Some 85 /\
     scoreOf (mkAnalysis 3 sp de) "Floyd-Warshall" = Some 30) /\
  (forall sp de,
     scoreOf (mkAnalysis 5 sp de) "Dijkstra" = Some 100 /\
     scoreOf (mkAnalysis 5 sp de) "Floyd-Warshall" = Some 60).
Proof.
  assert (H : forall s a, scoreAlgorithm s a = mkScored a (table_score s a)).
  { intros s a. rewrite <- score_table. reflexivity. }
  split; [exact H|]. split; [intros s; apply map_ext; apply H|].
  split; [reflexivity|].
  split; intros sp de; unfold scoreOf, scoreAlgorithm; cbn;
    rewrite ?andb_false_r; cbn; repeat split.
Qed.

(** C2: for all graph statistics the ranking is a rearrangement of the
    twelve descriptors as the scoring callback scored them (so every
    entry carries the score of its descriptor), it is in weakly
    decreasing order of score, and two entries of equal score stand in
    the order the catalog has them. *)
Theorem ranking_sorted_and_stable (s : Analysis) :
  Permutation (rank s) (map (scoreAlgorithm s) algorithms) /\
  Permutation (map algo (rank s)) algorithms /\
  StronglySorted (desc score) (rank s) /\
  (forall x y, Before x y (rank s) -> score x = score y ->
               Before (algo x) (algo y) algorithms).
Proof.
  split; [|split; [|split]].
  - apply rank_perm.
  - rewrite (Permutation_map algo (rank_perm s)), scored_catalog. reflexivity.
  - apply (sort_strongly_sorted score).
  - intros x y. apply rank_before.
Qed.

Lemma ranking_sorted_and_stable_witness :
  let s := mkAnalysis 2 3.25 0.5 in
  let x := mkScored (mkAlgorithm "A*" "O(E log V)" 88) 100 in
  let y := mkScored (mkAlgorithm "BFS" "O(V+E)" 82) 100 in
  Before x y (rank s) /\ score x = score y /\
  Before (algo x) (algo y) algorithms.
Proof.
  intros s x y.
  assert (Hb : Before x y (rank s)).
  { exists [], [], (skipn 2 (rank s)). reflexivity. }
  split; [exact Hb|]. split; [reflexivity|].
  exact (proj2 (proj2 (proj2 (ranking_sorted_and_stable s))) x y Hb eq_refl).
Defined.

Section RouteClaims.
Context {E : Engine}.

(** C3: whenever the route is computed for two points or more, the
    ranked list left in [lastScored] has exactly twelve entries, one
    for each descriptor of the catalog with none repeated and none
    missing, and every score lies between 0 and 100. *)
Theorem ranking_complete_and_bounded (st : State) :
  (2 <= List.length (points st))%nat ->
  exists st',
    computeRoute st = Some st' /\
    lastScored st' = rank (analyzeGraph (points st)) /\
    List.length (lastScored st') = 12%nat /\
    Permutation (map algo (lastScored st')) algorithms /\
    NoDup (map (fun x => name (algo x)) (lastScored st')) /\
    Forall (fun x => 0 <= score x <= 100) (lastScored st').
Proof.
  intros Hn.
  destruct (computeRoute_run st Hn) as (best & rest & st' & _ & Hc & _ & Hl & _).
  exists st'. rewrite Hl. set (s := analyzeGraph (points st)).
  assert (Hp : Permutation (map algo (rank s)) algorithms).
  { rewrite (Permutation_map algo (rank_perm s)), scored_catalog. reflexivity. }
  repeat split; auto using rank_length.
  - rewrite <- (map_map algo name).
    apply (Permutation_NoDup (Permutation_map name (Permutation_sym Hp))).
    apply catalog_names_distinct.
  - apply Forall_forall. intros x Hx.
    apply (Permutation_in _ (rank_perm s)) in Hx.
    apply in_map_iff in Hx as (a & <- & _). apply score_range.
Qed.

(** C4: with fewer than two points [computeRoute] only shows the
    notice: points, layers, the last ranking, the page and the timers
    are as before, nothing is drawn, scored or measured. *)
Theorem too_few_points_refused (st : State) :
  (List.length (points st) < 2)%nat ->
  computeRoute st =
  Some (mkState (points st) (markers st) (polylines st) (droneMarker st)
          (lastScored st) (map_layers st) (next_layer st) (innerText st)
          (topAlgorithms st) (timers st)
          (alerts st ++ ["Add at least 2 points"])).
Proof.
  intros Hn. unfold computeRoute.
  destruct (Nat.ltb_spec (List.length (points st)) 2) as [_|Hge]; [reflexivity|lia].
Qed.
End RouteClaims.

Lemma ranking_complete_and_bounded_witness :
  (2 <= List.length (points two_clicks))%nat /\
  exists st',
    computeRoute (E := small_angle_engine) two_clicks = Some st' /\
    lastScored st' = rank (analyzeGraph (points two_clicks)) /\
    List.length (lastScored st') = 12%nat /\
    Permutation (map algo (lastScored st')) algorithms /\
    NoDup (map (fun x => name (algo x)) (lastScored st')) /\
    Forall (fun x => 0 <= score x <= 100) (lastScored st').
Proof.
  assert (H : (2 <= List.length (points two_clicks))%nat) by (cbn; lia).
  split; [exact H|].
  exact (ranking_complete_and_bounded (E := small_angle_engine) two_clicks H).
Defined.

Lemma too_few_points_refused_witness :
  (List.length (points one_click) < 2)%nat /\
  computeRoute (E := small_angle_engine) one_click =
  Some (mkState (points one_click) (markers one_click) (polylines one_click)
          (droneMarker one_click) (lastScored one_click) (map_layers one_click)
          (next_layer one_click) (innerText one_click) (topAlgorithms one_click)
          (timers one_click) (alerts one_click ++ ["Add at least 2 points"])).
Proof.
  assert (H : (List.length (points one_click) < 2)%nat) by (cbn; lia).
  split; [exact H|].
  exact (too_few_points_refused (E := small_angle_engine) one_click H).
Defined.

(** C5, as the specification has it, fails: after a route was computed
    for two clicks, the reset leaves the twelve ranked entries in
    [lastScored]. *)
Lemma reset_keeps_last_ranking :
  computeRoute (E := small_angle_engine) two_clicks = Some after_route /\
  lastScored (resetMap after_route) <> lastScored (initial (fun _ => "")) /\
  List.length (lastScored (resetMap after_route)) = 12%nat.
Proof.
  split; [vm_compute; reflexivity|].
  split; [vm_compute; discriminate|vm_compute; reflexivity].
Qed.

(** C5, amended: the reset empties the points, the markers and the
    polylines and takes their layers and the drone marker off the map;
    the last ranking, the drone marker's handle, the page, the timers
    and the alerts are as before. *)
Theorem reset_clears_points_and_layers (st : State) :
  points (resetMap st) = [] /\
  markers (resetMap st) = [] /\
  polylines (resetMap st) = [] /\
  map_layers (resetMap st) =
    filter (fun x => negb (removed (reset_layers st) x)) (map_layers st) /\
  lastScored (resetMap st) = lastScored st /\
  droneMarker (resetMap st) = droneMarker st /\
  innerText (resetMap st) = innerText st /\
  topAlgorithms (resetMap st) = topAlgorithms st /\
  timers (resetMap st) = timers st /\
  alerts (resetMap st) = alerts st.
Proof.
  rewrite resetMap_eq. cbn. now repeat split.
Qed.

(** C6: the explanation selector is the lookup in the table of the five
    bespoke texts with the generic sentence as default: each of
    Dijkstra, A*, BFS, Bidirectional Dijkstra and Bellman-Ford gets its
    own text, every other string (the seven other names of the catalog
    among them) gets exactly the fallback, and the six texts are
    distinct.  Being a function, it has a value on every string. *)
Theorem explanation_selector_total :
  (forall nm, explain nm = table_explain nm) /\
  explain "Dijkstra" = explanation_Dijkstra /\
  explain "A*" = explanation_AStar /\
  explain "BFS" = explanation_BFS /\
  explain "Bidirectional Dijkstra" = explanation_Bidirectional /\
  explain "Bellman-Ford" = explanation_BellmanFord /\
  (forall nm, ~ In nm bespoke_names -> explain nm = explanation_fallback) /\
  Forall (fun nm => explain nm = explanation_fallback) other_names /\
  Permutation (map name algorithms) (bespoke_names ++ other_names) /\
  NoDup [explanation_Dijkstra; explanation_AStar; explanation_BFS;
         explanation_Bidirectional; explanation_BellmanFord;
         explanation_fallback].
Proof.
  repeat split; try reflexivity.
  - intros nm. unfold explain, table_explain. cbn [find explanation_table fst snd].
    rewrite !(String.eqb_sym nm).
    repeat match goal with
           | |- context [if ?c then _ else _] => destruct c
           end; reflexivity.
  - intros nm Hn. unfold explain, bespoke_names in *. cbn [In] in Hn.
    repeat match goal with
           | |- context [(nm =? ?k)%string] =>
               destruct (String.eqb_spec nm k); [subst nm; exfalso; apply Hn; auto 10|]
           end.
    reflexivity.
  - repeat constructor.
  - apply NoDup_Permutation_bis; [apply catalog_names_distinct|reflexivity|].
    intros x H. cbn in H.
    repeat (destruct H as [<-|H]; [cbn; auto 15|]). contradiction.
  - repeat constructor; cbn; intros H;
      repeat (destruct H as [H|H]; [discriminate H|]); exact H.
Qed.

Lemma explanation_selector_total_witness :
  ~ In "Prim" bespoke_names /\ explain "Prim" = explanation_fallback.
Proof.
  assert (H : ~ In "Prim" bespoke_names).
  { cbn. intros K. repeat (destruct K as [K|K]; [discriminate K|]). exact K. }
  split; [exact H|].
  exact (proj1 (proj2 (proj2 (proj2 (proj2 (proj2 (proj2
           explanation_selector_total)))))) "Prim" H).
Defined.

Section DistanceClaims.
Context {E : Engine}.
Local Open Scope float_scope.

(** C7: the loop of [computeRoute] returns the sum, in path order, of
    the haversine distances (with R = 6371) between consecutive
    points; with fewer than two points it returns exactly 0; and the
    haversine distance from a coordinate of the globe to itself is
    exactly 0, in every engine that keeps to [EngineLaws]. *)
Theorem route_distance_is_haversine_sum (L : EngineLaws E) :
  (forall ps, routeDistance ps = Some (sum_consecutive ps)) /\
  (forall a b, haversine a b =
     2 * 6371 * Math_asin (Math_sqrt (
       Math_pow (Math_sin ((lat b - lat a) * Math_PI / 180 / 2)) 2 +
       Math_cos (lat a * Math_PI / 180) * Math_cos (lat b * Math_PI / 180) *
       Math_pow (Math_sin ((lng b - lng a) * Math_PI / 180 / 2)) 2))) /\
  (forall ps, (List.length ps < 2)%nat -> routeDistance ps = Some 0) /\
  (forall a, on_globe a = true -> haversine a a = 0).
Proof.
  split; [apply routeDistance_sum|]. split; [reflexivity|]. split.
  - intros [|a [|b ps]] H; cbn in H; try reflexivity. lia.
  - intros a. apply haversine_same.
Qed.

(** C10: the haversine distance does not depend on the order of its
    two coordinates, in every engine whose sine is odd and whose
    square is even. *)
Theorem haversine_symmetric (S : EngineSymmetry E) (a b : LatLng) :
  haversine a b = haversine b a.
Proof. apply haversine_sym. Qed.
End DistanceClaims.

Lemma route_distance_is_haversine_sum_witness :
  routeDistance (E := small_angle_engine) [point_a; point_b] =
    Some (sum_consecutive (E := small_angle_engine) [point_a; point_b]) /\
  (List.length [point_a] < 2)%nat /\
  routeDistance (E := small_angle_engine) [point_a] = Some 0%float /\
  on_globe point_a = true /\
  haversine (E := small_angle_engine) point_a point_a = 0%float.
Proof.
  pose proof (route_distance_is_haversine_sum (E := small_angle_engine)
                small_angle_laws) as (H1 & _ & H2 & H3).
  assert (Hn : (List.length [point_a] < 2)%nat) by (cbn; lia).
  assert (Hw : on_globe point_a = true) by reflexivity.
  split; [apply H1|]. split; [exact Hn|]. split; [exact (H2 _ Hn)|].
  split; [exact Hw|exact (H3 _ Hw)].
Defined.

Lemma haversine_symmetric_witness :
  haversine (E := small_angle_engine) point_a point_b =
  haversine (E := small_angle_engine) point_b point_a.
Proof.
  exact (haversine_symmetric (E := small_angle_engine) small_angle_symmetry
           point_a point_b).
Defined.

(** C8: the statistics of a list of points are its length, the sum of
    the latitude range and the longitude range, and the length divided
    by the spread plus 0.0001; whatever the points, that divisor is not
    zero.  For a non-empty list of copies of one point with finite
    coordinates the spread is 0, the divisor is 0.0001, the density is
    the length divided by 0.0001, and the scoring yields its twelve
    entries. *)
Theorem statistics_of_points :
  (forall ps,
     n (analyzeGraph ps) = List.length ps /\
     spread (analyzeGraph ps) =
       ((max_of (map lat ps) - min_of (map lat ps)) +
        (max_of (map lng ps) - min_of (map lng ps)))%float /\
     density (analyzeGraph ps) =
       (Number_of_nat (List.length ps) / (spread (analyzeGraph ps) + epsilon))%float /\
     (spread (analyzeGraph ps) + epsilon =? 0)%float = false) /\
  (forall p k,
     finite (lat p) = true -> finite (lng p) = true ->
     let s := analyzeGraph (repeat p (S k)) in
     n s = S k /\
     spread s = 0%float /\
     (spread s + epsilon)%float = epsilon /\
     density s = (Number_of_nat (S k) / epsilon)%float /\
     List.length (rank s) = 12%nat).
Proof.
  split.
  - intros ps. destruct (analyzeGraph_fields ps) as (Hn & Hs & Hd).
    repeat split; auto using divisor_not_zero.
  - intros p k Hlat Hlng s.
    destruct (analyzeGraph_fields (repeat p (S k))) as (Hn & _ & Hd).
    fold s in Hn, Hd. rewrite repeat_length in Hn, Hd.
    assert (Hs : spread s = 0%float) by now apply spread_repeat.
    rewrite Hd, Hs. repeat split; auto using rank_length.
Qed.

Lemma statistics_of_points_witness :
  finite (lat point_a) = true /\ finite (lng point_a) = true /\
  let s := analyzeGraph (repeat point_a 3) in
  n s = 3%nat /\
  spread s = 0%float /\
  (spread s + epsilon)%float = epsilon /\
  density s = (Number_of_nat 3 / epsilon)%float /\
  List.length (rank s) = 12%nat.
Proof.
  assert (H1 : finite (lat point_a) = true) by reflexivity.
  assert (H2 : finite (lng point_a) = true) by reflexivity.
  split; [exact H1|]. split; [exact H2|].
  exact (proj2 statistics_of_points point_a 2%nat H1 H2).
Defined.

Section DeterminismClaim.
Context {E : Engine}.

(** C9: what a route computation leaves as ranking, explanation and
    distance is a function of the points alone: two pages holding the
    same two points or more get the same three results, and so does
    a second computation on the page the first one left. *)
Theorem route_determined_by_points (st1 st2 : State) :
  points st1 = points st2 ->
  (2 <= List.length (points st1))%nat ->
  exists r1 r2 r3,
    computeRoute st1 = Some r1 /\ computeRoute st2 = Some r2 /\
    computeRoute r1 = Some r3 /\
    routeDistance (points st1) = routeDistance (points st2) /\
    routeDistance (points st1) = routeDistance (points r1) /\
    lastScored r1 = lastScored r2 /\ lastScored r1 = lastScored r3 /\
    innerText r1 "aiExplanation" = innerText r2 "aiExplanation" /\
    innerText r1 "aiExplanation" = innerText r3 "aiExplanation" /\
    innerText r1 "distance" = innerText r2 "distance" /\
    innerText r1 "distance" = innerText r3 "distance".
Proof.
  intros Hp Hn.
  destruct (computeRoute_run st1 Hn)
    as (b1 & t1 & r1 & Hr1 & Hc1 & Hp1 & Hl1 & Hd1 & He1 & _).
  assert (Hn2 : (2 <= List.length (points st2))%nat) by now rewrite <- Hp.
  destruct (computeRoute_run st2 Hn2)
    as (b2 & t2 & r2 & Hr2 & Hc2 & Hp2 & Hl2 & Hd2 & He2 & _).
  assert (Hn3 : (2 <= List.length (points r1))%nat) by now rewrite Hp1.
  destruct (computeRoute_run r1 Hn3)
    as (b3 & t3 & r3 & Hr3 & Hc3 & Hp3 & Hl3 & Hd3 & He3 & _).
  rewrite Hp1 in Hr3, Hl3, Hd3. rewrite <- Hp in Hr2, Hl2, Hd2.
  assert (b2 = b1) by congruence. assert (b3 = b1) by congruence. subst b2 b3.
  exists r1, r2, r3. rewrite Hp1, <- Hp.
  repeat split; congruence.
Qed.
End DeterminismClaim.

Lemma route_determined_by_points_witness :
  points two_clicks = points after_route /\
  (2 <= List.length (points two_clicks))%nat /\
  exists r1 r2 r3,
    computeRoute (E := small_angle_engine) two_clicks = Some r1 /\
    computeRoute (E := small_angle_engine) after_route = Some r2 /\
    computeRoute (E := small_angle_engine) r1 = Some r3 /\
    routeDistance (E := small_angle_engine) (points two_clicks) =
      routeDistance (E := small_angle_engine) (points after_route) /\
    routeDistance (E := small_angle_engine) (points two_clicks) =
      routeDistance (E := small_angle_engine) (points r1) /\
    lastScored r1 = lastScored r2 /\ lastScored r1 = lastScored r3 /\
    innerText r1 "aiExplanation" = innerText r2 "aiExplanation" /\
    innerText r1 "aiExplanation" = innerText r3 "aiExplanation" /\
    innerText r1 "distance" = innerText r2 "distance" /\
    innerText r1 "distance" = innerText r3 "distance".
Proof.
  assert (H1 : points two_clicks = points after_route) by reflexivity.
  assert (H2 : (2 <= List.length (points two_clicks))%nat) by (cbn; lia).
  split; [exact H1|]. split; [exact H2|].
  exact (route_determined_by_points (E := small_angle_engine)
           two_clicks after_route H1 H2).
Defined.

(** * Further properties of the script

    The layers, the timers, the panel and the listeners around the map:
    first the lemmas, then the statements. *)

(** ** Lemmas *)

Lemma NoDup_map_inj {A B} (f : A -> B) l x y :
  NoDup (map f l) -> In x l -> In y l -> f x = f y -> x = y.
Proof.
  induction l as [|a l IH]; cbn; [tauto|].
  intros Hn Hx Hy He. apply NoDup_cons_iff in Hn as [Ha Hn].
  destruct Hx as [->|Hx], Hy as [->|Hy]; auto.
  - exfalso. apply Ha. rewrite He. now apply in_map.
  - exfalso. apply Ha. rewrite <- He. now apply in_map.
Qed.

Lemma removed_In ids x : removed ids x = true <-> In (layer_id x) ids.
Proof.
  unfold removed. rewrite existsb_exists. split.
  - intros (i & Hi & He). apply Nat.eqb_eq in He. now rewrite He.
  - intros H. exists (layer_id x). split; [exact H|apply Nat.eqb_refl].
Qed.

(** Removing the layers of one kind by their identities removes that
    kind and nothing else. *)
Lemma remove_kind (k : Layer -> bool) L ids :
  NoDup (map layer_id L) -> map layer_id (filter k L) = ids ->
  filter (fun x => negb (removed ids x)) L = filter (fun x => negb (k x)) L.
Proof.
  intros Hn Hk. apply filter_ext_in. intros x Hx. f_equal.
  destruct (k x) eqn:Kx.
  - apply removed_In. rewrite <- Hk. apply in_map. apply filter_In. auto.
  - destruct (removed ids x) eqn:R; [|reflexivity].
    apply removed_In in R. rewrite <- Hk in R.
    apply in_map_iff in R as (y & Hy & Hin). apply filter_In in Hin as [Hin Ky].
    assert (y = x) by (eapply NoDup_map_inj; eauto). congruence.
Qed.

Lemma remove_absent L ids :
  (forall i, In i ids -> ~ In i (map layer_id L)) ->
  filter (fun x => negb (removed ids x)) L = L.
Proof.
  intros H. rewrite <- (filter_all L) at 2. apply filter_ext_in. intros x Hx.
  destruct (removed ids x) eqn:R; [|reflexivity].
  apply removed_In in R. exfalso. apply (H _ R). now apply in_map.
Qed.

Lemma new_layers_ids base shapes :
  map layer_id (new_layers base shapes) = seq base (List.length shapes).
Proof.
  revert base. induction shapes as [|s r IH]; intros base; cbn; [reflexivity|].
  now rewrite IH.
Qed.

Lemma new_layers_app base s1 s2 :
  new_layers base (s1 ++ s2) = new_layers base s1 ++ new_layers (base + List.length s1) s2.
Proof.
  revert base. induction s1 as [|s r IH]; intros base; cbn.
  - now rewrite Nat.add_0_r.
  - rewrite IH. do 3 f_equal. lia.
Qed.

Lemma state_eta st :
  mkState (points st) (markers st) (polylines st) (droneMarker st)
    (lastScored st) (map_layers st) (next_layer st) (innerText st)
    (topAlgorithms st) (timers st) (alerts st) = st.
Proof. now destruct st. Qed.

Lemma drawSteps_eq ps : forall pre st,
  points st = pre ++ ps ->
  fold_left drawStep (seq (List.length pre) (List.length ps - 1)) (Some st) =
  Some (mkState (points st) (markers st)
          (polylines st ++ seq (next_layer st) (List.length ps - 1))
          (droneMarker st) (lastScored st)
          (map_layers st ++ new_layers (next_layer st) (segments ps))
          (next_layer st + (List.length ps - 1)) (innerText st)
          (topAlgorithms st) (timers st) (alerts st)).
Proof.
  induction ps as [|a ps IH]; intros pre st Hp.
  - cbn. rewrite !app_nil_r, Nat.add_0_r. now rewrite state_eta.
  - destruct ps as [|b ps].
    + cbn. rewrite !app_nil_r, Nat.add_0_r. now rewrite state_eta.
    + cbn [List.length Nat.sub seq fold_left]. unfold drawStep at 2.
      rewrite Hp.
      rewrite nth_error_app2, Nat.sub_diag by lia. cbn [nth_error].
      rewrite nth_error_app2 by lia.
      replace (List.length pre + 1 - List.length pre)%nat with 1%nat by lia.
      cbn [nth_error addTo].
      match goal with |- fold_left _ _ (Some ?s) = _ => set (st' := s) end.
      specialize (IH (pre ++ [a]) st').
      rewrite length_app in IH. cbn [List.length] in IH.
      rewrite Nat.add_1_r in IH. cbn [Nat.sub] in IH. rewrite Nat.sub_0_r in IH.
      rewrite IH.
      * subst st'. cbn. rewrite <- Hp. f_equal. f_equal.
        -- now rewrite <- app_assoc.
        -- now rewrite <- app_assoc.
        -- lia.
      * subst st'. cbn. rewrite Hp, <- app_assoc. reflexivity.
Qed.

Lemma drawPath_eq st :
  drawPath st =
  Some (mkState (points st) (markers st)
          (seq (next_layer st) (List.length (points st) - 1))
          (droneMarker st) (lastScored st)
          (filter (fun x => negb (removed (polylines st) x)) (map_layers st)
           ++ new_layers (next_layer st) (segments (points st)))
          (next_layer st + (List.length (points st) - 1)) (innerText st)
          (topAlgorithms st) (timers st) (alerts st)).
Proof.
  unfold drawPath. rewrite removeLayers_eq.
  match goal with |- fold_left _ (seq 0 (List.length (points ?s) - 1)) _ = _ =>
    etransitivity; [exact (drawSteps_eq (points s) [] s eq_refl)|] end.
  reflexivity.
Qed.

Lemma setLatLng_fresh L d s :
  Forall (fun l => (layer_id l < d)%nat) L ->
  map (fun x => if (layer_id x =? d)%nat then mkLayer d s else x) (L ++ [mkLayer d s]) =
  L ++ [mkLayer d s].
Proof.
  intros H. rewrite map_app. cbn. rewrite Nat.eqb_refl. f_equal.
  rewrite <- (map_id L) at 2. apply map_ext_in. intros x Hx.
  rewrite Forall_forall in H. specialize (H x Hx).
  destruct (Nat.eqb_spec (layer_id x) d); [lia|reflexivity].
Qed.

Lemma removed_one d x : removed [d] x = (layer_id x =? d)%nat.
Proof. unfold removed. cbn. apply orb_false_r. Qed.

(** [animateDrone] on a page whose layer identities are all in use. *)
Lemma animateDrone_eq p0 ps st :
  Forall (fun l => (layer_id l < next_layer st)%nat) (map_layers st) ->
  animateDrone (p0 :: ps) st =
  Some (mkState (points st) (markers st) (polylines st) (Some (next_layer st))
          (lastScored st)
          (filter (fun x => negb (removed (match droneMarker st with
                                           | Some d => [d] | None => [] end) x))
                  (map_layers st)
           ++ [mkLayer (next_layer st) (DroneShape p0)])
          (S (next_layer st)) (innerText st) (topAlgorithms st)
          (timers st ++ [mkTimer 900 1]) (alerts st)).
Proof.
  intros Hf. unfold animateDrone.
  assert (Hf' : forall ids, Forall (fun l => (layer_id l < next_layer st)%nat)
            (filter (fun x => negb (removed ids x)) (map_layers st))).
  { intros ids. rewrite Forall_forall in *. intros x Hx. apply filter_In in Hx. now apply Hf. }
  destruct (droneMarker st) as [d|];
    unfold setTimeout, setLatLng, set_droneMarker, removeLayer, addTo; cbn.
  - rewrite (filter_ext (fun x => negb (layer_id x =? d)%nat)
                        (fun x => negb (removed [d] x)))
      by (intros x; now rewrite removed_one).
    now rewrite (setLatLng_fresh _ _ _ (Hf' [d])).
  - rewrite <- (filter_all (map_layers st)) at 1.
    rewrite (filter_ext (fun _ => true) (fun x => negb (removed [] x)))
      by reflexivity.
    now rewrite (setLatLng_fresh _ _ _ (Hf' [])).
Qed.

Lemma renderTop_cards l : forall st i,
  fst (fold_left
    (fun '(st, i) a =>
       (set_topAlgorithms
          (topAlgorithms st ++
           [mkTopCard (i + 1) (name (algo a)) (time (algo a)) (score a) (i =? 0)%nat])
          st, S i)) l (st, i)) =
  set_topAlgorithms (topAlgorithms st ++ cards i l) st.
Proof.
  induction l as [|a l IH]; intros st i; cbn [fold_left cards fst].
  - rewrite app_nil_r. unfold set_topAlgorithms. symmetry. apply state_eta.
  - rewrite IH. unfold set_topAlgorithms. cbn. now rewrite <- app_assoc.
Qed.

Lemma renderTopAlgorithms_eq st :
  renderTopAlgorithms st = set_topAlgorithms (cards 0 (firstn 3 (lastScored st))) st.
Proof.
  unfold renderTopAlgorithms. rewrite renderTop_cards. reflexivity.
Qed.

Lemma new_layers_fresh base shapes :
  Forall (fun l => (layer_id l < base + List.length shapes)%nat) (new_layers base shapes).
Proof.
  apply Forall_forall. intros x Hx.
  assert (In (layer_id x) (map layer_id (new_layers base shapes))) as H by now apply in_map.
  rewrite new_layers_ids in H. apply in_seq in H. lia.
Qed.

Lemma segments_length ps : List.length (segments ps) = (List.length ps - 1)%nat.
Proof.
  unfold segments. rewrite length_map, length_combine.
  destruct ps as [|a ps]; [reflexivity|]. cbn [tl List.length]. lia.
Qed.

Lemma state_ext st st' :
  points st = points st' -> markers st = markers st' ->
  polylines st = polylines st' -> droneMarker st = droneMarker st' ->
  lastScored st = lastScored st' -> map_layers st = map_layers st' ->
  next_layer st = next_layer st' -> innerText st = innerText st' ->
  topAlgorithms st = topAlgorithms st' -> timers st = timers st' ->
  alerts st = alerts st' -> st = st'.
Proof. destruct st, st'; cbn; intros; subst; reflexivity. Qed.

Section RouteShape.
Context {E : Engine}.

(** The page [computeRoute] leaves, field by field. *)
Lemma computeRoute_eq st p0 ps best rest :
  Forall (fun l => (layer_id l < next_layer st)%nat) (map_layers st) ->
  points st = p0 :: ps -> ps <> [] ->
  rank (analyzeGraph (points st)) = best :: rest ->
  computeRoute st =
  Some (mkState (points st) (markers st)
          (seq (next_layer st) (List.length ps))
          (Some (next_layer st + List.length ps)%nat)
          (best :: rest)
          (filter (fun x => negb (removed (match droneMarker st with
                                           | Some d => [d] | None => [] end) x))
             (filter (fun x => negb (removed (polylines st) x)) (map_layers st)
              ++ new_layers (next_layer st) (segments (points st)))
           ++ [mkLayer (next_layer st + List.length ps) (DroneShape p0)])
          (S (next_layer st + List.length ps))
          (result_text best (sum_consecutive (points st)) (List.length (points st))
             (innerText st))
          (cards 0 (firstn 3 (best :: rest)))
          (timers st ++ [mkTimer 900 1]) (alerts st)).
Proof.
  intros Hf Hp Hne Hr. unfold computeRoute.
  destruct (Nat.ltb_spec (List.length (points st)) 2) as [Hlt|_].
  { rewrite Hp in Hlt. destruct ps; cbn in Hlt; [congruence|lia]. }
  rewrite drawPath_eq. cbn [points].
  rewrite Hp at 1.
  rewrite animateDrone_eq.
  2:{ cbn [map_layers next_layer]. apply Forall_app. split.
      - rewrite Forall_forall in *. intros x Hx. apply filter_In in Hx as [Hx _].
        specialize (Hf x Hx). lia.
      - pose proof (new_layers_fresh (next_layer st) (segments (points st))) as H.
        now rewrite segments_length in H. }
  cbn [points]. rewrite routeDistance_sum.
  cbn [lastScored set_lastScored].
  fold (rank (analyzeGraph (points st))). rewrite Hr.
  rewrite renderTopAlgorithms_eq. f_equal.
  rewrite Hp. cbn [List.length Nat.sub]. rewrite Nat.sub_0_r.
  apply state_ext; reflexivity.
Qed.
End RouteShape.

Lemma NoDup_map_filter {A B} (f : A -> B) (p : A -> bool) l :
  NoDup (map f l) -> NoDup (map f (filter p l)).
Proof.
  induction l as [|a l IH]; cbn; [auto|].
  intros H. apply NoDup_cons_iff in H as [Ha Hn].
  destruct (p a); cbn; [|auto]. constructor; [|auto].
  intros Hin. apply Ha. apply in_map_iff in Hin as (x & Hx & Hin).
  apply filter_In in Hin as [Hin _]. rewrite <- Hx. now apply in_map.
Qed.

Lemma filter_none {A} (p : A -> bool) l :
  (forall x, In x l -> p x = false) -> filter p l = [].
Proof.
  induction l as [|a l IH]; cbn; [auto|]. intros H.
  rewrite (H a (or_introl eq_refl)). apply IH. auto.
Qed.

Lemma filter_every {A} (p : A -> bool) l :
  (forall x, In x l -> p x = true) -> filter p l = l.
Proof.
  induction l as [|a l IH]; cbn; [auto|]. intros H.
  rewrite (H a (or_introl eq_refl)). f_equal. apply IH. auto.
Qed.

Lemma filter_nil_forall {A} (p : A -> bool) l :
  filter p l = [] -> forall x, In x l -> p x = false.
Proof.
  induction l as [|a l IH]; cbn; [tauto|].
  destruct (p a) eqn:Pa; [discriminate|]. intros H x [<-|Hx]; auto.
Qed.

Lemma new_layers_shape base shapes x :
  In x (new_layers base shapes) -> In (shape x) shapes.
Proof.
  revert base. induction shapes as [|s r IH]; intros base; cbn; [tauto|].
  intros [<-|H]; [now left|right; eauto].
Qed.

Lemma removed_kind (k : Layer -> bool) L ids x :
  NoDup (map layer_id L) -> map layer_id (filter k L) = ids ->
  In x L -> removed ids x = k x.
Proof.
  intros Hn Hk Hx. destruct (k x) eqn:Kx.
  - apply removed_In. rewrite <- Hk. apply in_map. apply filter_In. auto.
  - destruct (removed ids x) eqn:R; [|reflexivity].
    apply removed_In in R. rewrite <- Hk in R.
    apply in_map_iff in R as (y & Hy & Hin). apply filter_In in Hin as [Hin Ky].
    assert (y = x) by (eapply NoDup_map_inj; eauto). congruence.
Qed.

(** The handle of the drone marker stands for the drone layers. *)
Lemma removed_drone st x :
  wf st -> In x (map_layers st) ->
  removed (match droneMarker st with Some d => [d] | None => [] end) x = is_drone x.
Proof.
  intros W Hx. pose proof (wf_drone st W) as Hd.
  destruct (droneMarker st) as [d|].
  - destruct Hd as [_ [[p Hp] | [Hnone Hnot]]].
    + apply (removed_kind is_drone (map_layers st)); auto using wf_nodup.
      now rewrite Hp.
    + rewrite (filter_nil_forall _ _ Hnone x Hx).
      destruct (removed [d] x) eqn:R; [|reflexivity].
      apply removed_In in R. cbn in R. destruct R as [->|[]].
      exfalso. apply Hnot. now apply in_map.
  - now rewrite (filter_nil_forall _ _ Hd x Hx).
Qed.

Lemma removed_markers st x :
  wf st -> In x (map_layers st) -> removed (markers st) x = is_marker x.
Proof.
  intros W Hx. apply (removed_kind is_marker (map_layers st)); auto using wf_nodup.
  rewrite (wf_markers st W). unfold marker_layers. rewrite map_map. cbn.
  pose proof (wf_count st W) as Hc. revert Hc. generalize (points st).
  induction (markers st) as [|m ms IH]; intros [|p ps] Hc; cbn in *; try lia; auto.
  f_equal. apply IH. lia.
Qed.

Lemma removed_polylines st x :
  wf st -> In x (map_layers st) -> removed (polylines st) x = is_polyline x.
Proof.
  intros W Hx. apply (removed_kind is_polyline (map_layers st));
    auto using wf_nodup, wf_polylines.
Qed.

Lemma tile_in st : wf st -> In (mkLayer 0 TileShape) (map_layers st).
Proof.
  intros W. pose proof (wf_tile st W) as H.
  assert (In (mkLayer 0 TileShape) (filter is_tile (map_layers st))) as K
    by (rewrite H; now left).
  now apply filter_In in K.
Qed.

Lemma next_layer_pos st : wf st -> (0 < next_layer st)%nat.
Proof.
  intros W. pose proof (wf_fresh st W) as H. rewrite Forall_forall in H.
  exact (H _ (tile_in st W)).
Qed.

(** The drone marker's handle is never the tile layer's. *)
Lemma drone_not_tile st d : wf st -> droneMarker st = Some d -> d <> 0%nat.
Proof.
  intros W Hd Hz. subst d. pose proof (wf_drone st W) as H. rewrite Hd in H.
  destruct H as [_ [[p Hp] | [_ Hnot]]].
  - assert (In (mkLayer 0 (DroneShape p)) (map_layers st)) as K.
    { assert (In (mkLayer 0 (DroneShape p)) (filter is_drone (map_layers st))) as K
        by (rewrite Hp; now left).
      now apply filter_In in K. }
    pose proof (NoDup_map_inj layer_id _ _ _ (wf_nodup st W) K (tile_in st W) eq_refl).
    discriminate.
  - apply Hnot. apply (in_map layer_id _ _ (tile_in st W)).
Qed.

Lemma filter_kind_of_rest (k k' : Layer -> bool) L :
  (forall x, negb (k' x) && k x = k x) ->
  filter k (filter (fun x => negb (k' x)) L) = filter k L.
Proof. intros H. rewrite filter_filter. now apply filter_ext. Qed.

Lemma wf_frame st st' :
  points st' = points st -> markers st' = markers st ->
  polylines st' = polylines st -> droneMarker st' = droneMarker st ->
  map_layers st' = map_layers st -> next_layer st' = next_layer st ->
  wf st -> wf st'.
Proof.
  intros Hp Hm Hl Hd HL Hn [F N T M C P D].
  constructor; unfold marker_layers; rewrite ?Hp, ?Hm, ?Hl, ?Hd, ?HL, ?Hn; auto.
Qed.

Lemma wf_initial dom : wf (initial dom).
Proof.
  constructor; cbn; auto; repeat constructor; cbn; tauto.
Qed.

Lemma combine_snoc {A B} (l : list A) (l' : list B) a b :
  List.length l = List.length l' ->
  combine (l ++ [a]) (l' ++ [b]) = combine l l' ++ [(a, b)].
Proof.
  revert l'. induction l as [|x l IH]; intros [|y l'] H; cbn in *; try lia; auto.
  f_equal. apply IH. lia.
Qed.

Lemma fresh_not_in L d :
  Forall (fun l => (layer_id l < d)%nat) L -> ~ In d (map layer_id L).
Proof.
  intros H Hin. apply in_map_iff in Hin as (x & Hx & Hin).
  rewrite Forall_forall in H. specialize (H x Hin). lia.
Qed.

Lemma Forall_lt_mono L a b :
  (a <= b)%nat -> Forall (fun l : Layer => (layer_id l < a)%nat) L ->
  Forall (fun l => (layer_id l < b)%nat) L.
Proof. intros Hab. apply Forall_impl. intros x Hx. lia. Qed.

Lemma NoDup_app_fresh L N d :
  NoDup (map layer_id L) -> NoDup (map layer_id N) ->
  Forall (fun l => (layer_id l < d)%nat) L ->
  Forall (fun l => (d <= layer_id l)%nat) N ->
  NoDup (map layer_id (L ++ N)).
Proof.
  intros HL HN FL FN. rewrite map_app. apply NoDup_app; auto.
  intros i Hi Hj.
  apply in_map_iff in Hi as (x & <- & Hx). apply in_map_iff in Hj as (y & Hy & Hyin).
  rewrite Forall_forall in FL, FN. specialize (FL x Hx). specialize (FN y Hyin). lia.
Qed.

Lemma wf_addPoint p st : wf st -> wf (addPoint p st).
Proof.
  intros W. destruct W as [F N T M C P D].
  constructor; cbn; rewrite ?filter_app; cbn; rewrite ?app_nil_r; auto.
  - apply Forall_app. split; [eapply Forall_lt_mono; [|exact F]; lia|].
    repeat constructor.
  - apply (NoDup_app_fresh _ [mkLayer (next_layer st) (MarkerShape p)] (next_layer st));
      auto; repeat constructor; cbn; auto.
  - rewrite M. unfold marker_layers. cbn. rewrite combine_snoc by exact C.
    now rewrite map_app.
  - rewrite !length_app. cbn. lia.
  - destruct (droneMarker st) as [d|]; [|exact D].
    destruct D as [Hd [Hp | [Hn Hnot]]]; split; try lia; [now left|right].
    split; [exact Hn|]. rewrite map_app, in_app_iff. cbn. intros [H|[H|[]]]; [tauto|lia].
Qed.

Lemma keep_polylines st :
  wf st ->
  filter (fun x => negb (removed (polylines st) x)) (map_layers st) =
  filter (fun x => negb (is_polyline x)) (map_layers st).
Proof.
  intros W. apply filter_ext_in. intros x Hx. now rewrite removed_polylines.
Qed.

Lemma keep_drone st :
  wf st ->
  filter (fun x => negb (removed (match droneMarker st with
                                  | Some d => [d] | None => [] end) x))
         (map_layers st) =
  filter (fun x => negb (is_drone x)) (map_layers st).
Proof.
  intros W. apply filter_ext_in. intros x Hx. now rewrite removed_drone.
Qed.

Lemma segments_are_polylines base ps :
  filter is_polyline (new_layers base (segments ps)) = new_layers base (segments ps) /\
  filter is_tile (new_layers base (segments ps)) = [] /\
  filter is_marker (new_layers base (segments ps)) = [] /\
  filter is_drone (new_layers base (segments ps)) = [].
Proof.
  assert (H : forall x, In x (new_layers base (segments ps)) ->
                        exists a b, shape x = PolylineShape a b).
  { intros x Hx. apply new_layers_shape in Hx. unfold segments in Hx.
    apply in_map_iff in Hx as ([a b] & <- & _). now exists a, b. }
  repeat split; [apply filter_every|apply filter_none ..]; intros x Hx;
    destruct (H x Hx) as (a & b & Hs);
    unfold is_polyline, is_tile, is_marker, is_drone; now rewrite Hs.
Qed.

Lemma new_layers_above base shapes :
  Forall (fun l => (base <= layer_id l)%nat) (new_layers base shapes).
Proof.
  apply Forall_forall. intros x Hx.
  assert (In (layer_id x) (map layer_id (new_layers base shapes))) as H by now apply in_map.
  rewrite new_layers_ids in H. apply in_seq in H. lia.
Qed.

Lemma Forall_filter_layers (P : Layer -> Prop) f L :
  Forall P L -> Forall P (filter f L).
Proof.
  rewrite !Forall_forall. intros H x Hx. apply filter_In in Hx. now apply H.
Qed.

Lemma not_in_filter_ids f L d :
  ~ In d (map layer_id L) -> ~ In d (map layer_id (filter f L)).
Proof.
  intros H Hin. apply H. apply in_map_iff in Hin as (x & <- & Hx).
  apply filter_In in Hx as [Hx _]. now apply in_map.
Qed.

(** Drawing the path keeps the bookkeeping. *)
Lemma wf_drawPath st st' : wf st -> drawPath st = Some st' -> wf st'.
Proof.
  intros W. rewrite drawPath_eq. intros [= <-].
  rewrite (keep_polylines st W).
  destruct (segments_are_polylines (next_layer st) (points st)) as (Sp & St & Sm & Sd).
  pose proof W as [F N T M C P D].
  constructor; cbn [points markers polylines droneMarker map_layers next_layer];
    rewrite ?filter_app, ?Sp, ?St, ?Sm, ?Sd, ?app_nil_r.
  - apply Forall_app. split.
    + apply Forall_filter_layers. eapply Forall_lt_mono; [|exact F]. lia.
    + pose proof (new_layers_fresh (next_layer st) (segments (points st))) as H.
      now rewrite segments_length in H.
  - apply (NoDup_app_fresh _ _ (next_layer st)).
    + now apply NoDup_map_filter.
    + rewrite new_layers_ids. apply seq_NoDup.
    + now apply Forall_filter_layers.
    + apply new_layers_above.
  - rewrite filter_kind_of_rest by kinds. exact T.
  - rewrite filter_kind_of_rest by kinds. exact M.
  - exact C.
  - rewrite filter_filter, (filter_none _ (map_layers st)).
    + cbn. now rewrite new_layers_ids, segments_length.
    + intros x _. now destruct (is_polyline x).
  - destruct (droneMarker st) as [d|].
    + destruct D as [Hd [[p Hp] | [Hn Hnot]]]; (split; [lia|]).
      * left. exists p. rewrite filter_kind_of_rest by kinds. exact Hp.
      * right. split; [rewrite filter_kind_of_rest by kinds; exact Hn|].
        rewrite map_app, in_app_iff. intros [H|H].
        -- now apply not_in_filter_ids in H.
        -- rewrite new_layers_ids in H. apply in_seq in H. lia.
    + rewrite filter_kind_of_rest by kinds. exact D.
Qed.

(** Starting the animation keeps the bookkeeping. *)
Lemma wf_animateDrone st st' p0 ps :
  wf st -> animateDrone (p0 :: ps) st = Some st' -> wf st'.
Proof.
  intros W. rewrite animateDrone_eq by apply (wf_fresh st W). intros [= <-].
  rewrite (keep_drone st W).
  pose proof W as [F N T M C P D].
  constructor; cbn [points markers polylines droneMarker map_layers next_layer];
    rewrite ?filter_app; cbn [filter is_tile is_marker is_polyline is_drone shape];
    rewrite ?app_nil_r.
  - apply Forall_app. split.
    + apply Forall_filter_layers. eapply Forall_lt_mono; [|exact F]. lia.
    + repeat constructor.
  - apply (NoDup_app_fresh _ _ (next_layer st)).
    + now apply NoDup_map_filter.
    + repeat constructor. cbn. tauto.
    + now apply Forall_filter_layers.
    + repeat constructor.
  - rewrite filter_kind_of_rest by kinds. exact T.
  - rewrite filter_kind_of_rest by kinds. exact M.
  - exact C.
  - rewrite filter_kind_of_rest by kinds. exact P.
  - split; [lia|]. left. exists p0.
    rewrite filter_filter, (filter_none _ (map_layers st)); [reflexivity|].
    intros x _. now destruct (is_drone x).
Qed.

(** Of the layers the script put on the map, the reset leaves the tile
    layer alone. *)
Lemma resetMap_layers st :
  wf st -> map_layers (resetMap st) = [mkLayer 0 TileShape].
Proof.
  intros W. rewrite resetMap_eq. cbn [map_layers]. rewrite <- (wf_tile st W).
  apply filter_ext_in. intros x Hx. unfold reset_layers.
  rewrite !removed_app, removed_markers, removed_polylines, removed_drone by assumption.
  unfold is_tile, is_marker, is_polyline, is_drone. now destruct (shape x).
Qed.

Lemma wf_resetMap st : wf st -> wf (resetMap st).
Proof.
  intros W. pose proof (resetMap_layers st W) as HL.
  pose proof (next_layer_pos st W) as Hn.
  rewrite resetMap_eq in *. cbn [map_layers] in HL.
  constructor; cbn [points markers polylines droneMarker map_layers next_layer];
    rewrite ?HL; try reflexivity.
  - repeat constructor. exact Hn.
  - repeat constructor. cbn. tauto.
  - destruct (droneMarker st) as [d|] eqn:Hd; [|reflexivity].
    pose proof (wf_drone st W) as D. rewrite Hd in D.
    split; [tauto|].
    right. split; [reflexivity|]. cbn. intros [H|[]].
    exact (drone_not_tile st d W Hd (eq_sym H)).
Qed.

Lemma relocate_id d p x : layer_id (relocate d p x) = layer_id x.
Proof.
  unfold relocate. destruct (Nat.eqb_spec (layer_id x) d); [now subst|reflexivity].
Qed.

Lemma relocate_ids d p L : map layer_id (map (relocate d p) L) = map layer_id L.
Proof. rewrite map_map. apply map_ext. apply relocate_id. Qed.

Lemma relocate_absent d p L :
  ~ In d (map layer_id L) -> map (relocate d p) L = L.
Proof.
  intros H. rewrite <- (map_id L) at 2. apply map_ext_in. intros x Hx.
  unfold relocate. destruct (Nat.eqb_spec (layer_id x) d) as [E|]; [|reflexivity].
  destruct H. rewrite <- E. now apply in_map.
Qed.

Lemma filter_map_commute {A} (k : A -> bool) (f : A -> A) L :
  (forall x, In x L -> k (f x) = k x) ->
  filter k (map f L) = map f (filter k L).
Proof.
  induction L as [|a L IH]; intros H; [reflexivity|].
  cbn. rewrite (H a) by now left. rewrite IH by (intros; apply H; now right).
  now destruct (k a).
Qed.

Section Relocate.
Variables (st : State) (d : nat) (p : LatLng).
Hypothesis W : wf st.
Hypothesis Hd : droneMarker st = Some d.

Lemma drone_layer x :
  In x (map_layers st) -> layer_id x = d -> is_drone x = true.
Proof.
  intros Hx Hi. rewrite <- (removed_drone st x W Hx), Hd, removed_one.
  now apply Nat.eqb_eq.
Qed.

Lemma relocate_keeps_kind (k : Layer -> bool) x :
  In x (map_layers st) ->
  (forall a b, is_drone a = true -> is_drone b = true -> k a = k b) ->
  k (relocate d p x) = k x.
Proof.
  intros Hx Hk. unfold relocate.
  destruct (Nat.eqb_spec (layer_id x) d) as [E|]; [|reflexivity].
  apply Hk; [reflexivity|now apply drone_layer].
Qed.

Lemma relocate_other (k : Layer -> bool) :
  (forall a, is_drone a = true -> k a = false) ->
  (forall a b, is_drone a = true -> is_drone b = true -> k a = k b) ->
  filter k (map (relocate d p) (map_layers st)) = filter k (map_layers st).
Proof.
  intros Hk Hk2. rewrite filter_map_commute
    by (intros; now apply relocate_keeps_kind).
  rewrite <- (map_id (filter k (map_layers st))) at 2.
  apply map_ext_in. intros x Hx. apply filter_In in Hx as [Hx Hkx].
  unfold relocate. destruct (Nat.eqb_spec (layer_id x) d) as [E|]; [|reflexivity].
  rewrite (Hk x (drone_layer x Hx E)) in Hkx. discriminate.
Qed.

Lemma relocate_drone q :
  filter is_drone (map_layers st) = [mkLayer d (DroneShape q)] ->
  filter is_drone (map (relocate d p) (map_layers st)) = [mkLayer d (DroneShape p)].
Proof.
  intros Hq. rewrite filter_map_commute, Hq.
  - cbn. unfold relocate. cbn. now rewrite Nat.eqb_refl.
  - intros x Hx. apply relocate_keeps_kind; [exact Hx|]. congruence.
Qed.

Lemma relocate_rest :
  filter (fun x => negb (is_drone x)) (map (relocate d p) (map_layers st)) =
  filter (fun x => negb (is_drone x)) (map_layers st).
Proof.
  apply relocate_other.
  - now intros a ->.
  - now intros a b -> ->.
Qed.

Lemma wf_setLatLng : wf (setLatLng d p st).
Proof.
  pose proof W as [F N T M C P D].
  assert (K : forall a b, is_drone a = true -> is_drone b = true ->
                forall k, In k [is_tile; is_marker; is_polyline; is_drone] -> k a = k b).
  { intros a b Ha Hb k Hk. unfold is_drone in Ha, Hb.
    cbn in Hk. destruct Hk as [<-|[<-|[<-|[<-|[]]]]];
      unfold is_tile, is_marker, is_polyline, is_drone;
      destruct (shape a), (shape b); congruence. }
  assert (K0 : forall a, is_drone a = true ->
                forall k, In k [is_tile; is_marker; is_polyline] -> k a = false).
  { intros a Ha k Hk. unfold is_drone in Ha.
    cbn in Hk. destruct Hk as [<-|[<-|[<-|[]]]];
      unfold is_tile, is_marker, is_polyline;
      destruct (shape a); congruence. }
  unfold setLatLng. fold (relocate d p).
  constructor; cbn [points markers polylines droneMarker map_layers next_layer].
  - apply Forall_forall. intros x Hx. apply in_map_iff in Hx as (y & <- & Hy).
    rewrite relocate_id. rewrite Forall_forall in F. now apply F.
  - now rewrite relocate_ids.
  - rewrite relocate_other; [exact T| |];
      intros; [apply K0|apply K]; cbn; auto.
  - rewrite relocate_other; [exact M| |];
      intros; [apply K0|apply K]; cbn; auto.
  - exact C.
  - rewrite relocate_other; [exact P| |];
      intros; [apply K0|apply K]; cbn; auto.
  - rewrite Hd in *. destruct D as [Hlt [[q Hq] | [Hn Hnot]]]; (split; [exact Hlt|]).
    + left. exists p. rewrite filter_map_commute, Hq.
      * cbn. unfold relocate. cbn. now rewrite Nat.eqb_refl.
      * intros x Hx. apply relocate_keeps_kind; [exact Hx|].
        intros; apply K; cbn; auto.
    + right. rewrite relocate_ids. split; [|exact Hnot].
      now rewrite relocate_absent.
Qed.
End Relocate.

(** A timer callback keeps the bookkeeping, whichever path its
    closure holds. *)
Lemma wf_move path i st st' : wf st -> move path i st = Some st' -> wf st'.
Proof.
  intros W. unfold move. destruct (List.length path <=? i)%nat; [now intros [= <-]|].
  destruct (droneMarker st) as [d|] eqn:Hd; [|discriminate].
  destruct (nth_error path i) as [p|]; [|discriminate].
  intros [= <-].
  apply (wf_frame (setLatLng d p st)); try reflexivity.
  now apply wf_setLatLng.
Qed.

Lemma wf_fire path st st' : wf st -> fire path st = Some st' -> wf st'.
Proof.
  intros W. unfold fire. destruct (timers st) as [|t rest]; [now intros [= <-]|].
  apply wf_move. apply (wf_frame st); try reflexivity. exact W.
Qed.

Section Route.
Context {E : Engine}.

(** What [computeRoute] does to the map is what [drawPath] followed by
    [animateDrone] does. *)
Lemma computeRoute_map st st' :
  (2 <= List.length (points st))%nat ->
  computeRoute st = Some st' ->
  exists st1 st2,
    drawPath st = Some st1 /\ animateDrone (points st1) st1 = Some st2 /\
    points st1 = points st /\
    points st' = points st2 /\ markers st' = markers st2 /\
    polylines st' = polylines st2 /\ droneMarker st' = droneMarker st2 /\
    map_layers st' = map_layers st2 /\ next_layer st' = next_layer st2 /\
    timers st' = timers st2.
Proof.
  intros Hn. unfold computeRoute.
  destruct (Nat.ltb_spec (List.length (points st)) 2) as [Hlt|_]; [lia|].
  destruct (drawPath_some st) as (st1 & -> & Hp1 & _).
  destruct (points st1) as [|p ps] eqn:Hps; [rewrite <- Hp1 in Hn; cbn in Hn; lia|].
  destruct (animateDrone_some p ps st1) as (st2 & Ha & _). rewrite Ha.
  destruct (routeDistance (points st2)); [|discriminate].
  cbn [lastScored set_lastScored].
  destruct (sort byScoreDesc _) as [|best rest]; [discriminate|].
  rewrite renderTopAlgorithms_eq. intros [= <-].
  exists st1, st2. split; [reflexivity|]. split; [now rewrite Hps|].
  split; [congruence|]. repeat split; reflexivity.
Qed.

Lemma wf_computeRoute st st' : wf st -> computeRoute st = Some st' -> wf st'.
Proof.
  intros W H.
  destruct (Nat.ltb_spec (List.length (points st)) 2) as [Hlt|Hge].
  - unfold computeRoute in H. apply Nat.ltb_lt in Hlt. rewrite Hlt in H.
    injection H as <-. apply (wf_frame st); try reflexivity. exact W.
  - destruct (computeRoute_map st st' Hge H)
      as (st1 & st2 & H1 & H2 & Hp & E1 & E2 & E3 & E4 & E5 & E6 & _).
    apply (wf_frame st2); try assumption.
    destruct (points st1) as [|p0 ps] eqn:Hps;
      [rewrite <- Hp in Hge; cbn in Hge; lia|].
    eapply wf_animateDrone; [|exact H2]. eapply wf_drawPath; eassumption.
Qed.

Lemma reachable_wf dom st : reachable dom st -> wf st.
Proof.
  induction 1.
  - apply wf_initial.
  - now apply wf_addPoint.
  - eapply wf_computeRoute; eassumption.
  - now apply wf_resetMap.
  - eapply wf_fire; eassumption.
Qed.
End Route.

Lemma rank_head s :
  exists best rest,
    rank s = best :: rest /\ score best = 100 /\ name (algo best) = recommended s /\
    time (algo best) = recommended_time s.
Proof.
  unfold recommended_time, rank, recommended, algorithms, scoreAlgorithm. cbn [map name base].
  cbn [String.eqb Ascii.eqb Bool.eqb andb orb].
  rewrite ?andb_false_r, ?andb_true_r.
  set (c := gtb (spread s) spread_threshold && PrimFloat.ltb (density s) density_threshold).
  destruct (Nat.leb_spec (n s) 3) as [H3|H3];
  destruct (Nat.leb_spec 4 (n s)) as [H4|H4]; try lia;
  destruct (Nat.leb_spec (n s) 7) as [H7|H7]; try lia;
  destruct (Nat.ltb_spec 7 (n s)) as [H8|H8]; try lia;
  destruct (Nat.ltb_spec (n s) 5) as [H5|H5]; try lia;
  destruct c; cbn; eexists; eexists; split; try reflexivity; repeat split; reflexivity.
Qed.

Lemma explanations_apart :
  NoDup [explanation_Dijkstra; explanation_AStar; explanation_BFS;
         explanation_Bidirectional; explanation_BellmanFord; explanation_fallback].
Proof.
  repeat constructor; cbn [In]; intros H;
    repeat (destruct H as [H|H]; [vm_compute in H; discriminate H|]); exact H.
Qed.

Lemma explain_recommended s :
  In (explain (recommended s))
     [explanation_Dijkstra; explanation_AStar; explanation_BFS; explanation_Bidirectional].
Proof.
  unfold recommended.
  destruct (_ && _); [now left|].
  destruct (_ && _); [right; now left|].
  destruct (_ <=? _)%nat; [right; right; now left|right; right; right; now left].
Qed.

Lemma nth_error_cards l : forall j i,
  nth_error (cards j l) i =
  option_map (fun a => mkTopCard (j + i + 1) (name (algo a)) (time (algo a)) (score a)
                         (j + i =? 0)%nat)
             (nth_error l i).
Proof.
  induction l as [|a l IH]; intros j [|i]; cbn [cards nth_error option_map];
    try reflexivity.
  - now rewrite Nat.add_0_r.
  - rewrite IH. now replace (S j + i)%nat with (j + S i)%nat by lia.
Qed.

Lemma cards_length l : forall j, List.length (cards j l) = List.length l.
Proof. induction l as [|a l IH]; intros j; cbn; [reflexivity|now rewrite IH]. Qed.

Section Page.
Context {E : Engine}.

(** What [computeRoute] leaves in [lastScored], on the page and in the
    panel. *)
Lemma computeRoute_page st :
  (2 <= List.length (points st))%nat ->
  exists best rest st',
    rank (analyzeGraph (points st)) = best :: rest /\
    computeRoute st = Some st' /\
    lastScored st' = best :: rest /\
    innerText st' =
      result_text best (sum_consecutive (points st)) (List.length (points st))
        (innerText st) /\
    topAlgorithms st' = cards 0 (firstn 3 (best :: rest)).
Proof.
  intros Hn. destruct (rank_cons (analyzeGraph (points st))) as (best & rest & Hr).
  exists best, rest. unfold computeRoute.
  destruct (Nat.ltb_spec (List.length (points st)) 2) as [Hlt|_]; [lia|].
  destruct (drawPath_some st) as (st1 & -> & Hp1 & _ & _ & Hi1 & _).
  destruct (points st1) as [|p ps] eqn:Hps; [rewrite <- Hp1 in Hn; cbn in Hn; lia|].
  destruct (animateDrone_some p ps st1) as (st2 & -> & Hp2 & _ & _ & Hi2 & _).
  rewrite routeDistance_sum.
  cbn [lastScored set_lastScored].
  fold (rank (analyzeGraph (points st2))).
  assert (Hpts : points st2 = points st) by congruence.
  rewrite Hpts, Hr, renderTopAlgorithms_eq.
  eexists. split; [reflexivity|]. split; [reflexivity|]. split; [reflexivity|].
  split; [|reflexivity].
  unfold result_text. rewrite <- Hi1, <- Hi2, <- Hpts. reflexivity.
Qed.
End Page.

Section Snoc.
Context {E : Engine}.

Lemma combine_tl_snoc ps (a b : LatLng) :
  combine (ps ++ [a; b]) (tl (ps ++ [a; b])) =
  combine (ps ++ [a]) (tl (ps ++ [a])) ++ [(a, b)].
Proof.
  induction ps as [|x ps IH]; [reflexivity|].
  destruct ps as [|y ps]; [reflexivity|].
  cbn [app tl combine] in *. now rewrite IH.
Qed.

Lemma sum_consecutive_snoc ps a b :
  sum_consecutive (ps ++ [a; b]) = (sum_consecutive (ps ++ [a]) + haversine a b)%float.
Proof.
  unfold sum_consecutive. rewrite combine_tl_snoc, fold_left_app. reflexivity.
Qed.
End Snoc.

Section Box.
Local Open Scope float_scope.

Lemma fold_min_below l : forall lo,
  is_nan lo = false -> Forall (fun x => is_nan x = false) l ->
  is_nan (fold_left Math_min l lo) = false /\
  (fold_left Math_min l lo <=? lo) = true /\
  Forall (fun x => (fold_left Math_min l lo <=? x) = true) l.
Proof.
  induction l as [|x l IH]; intros lo Hlo Hl; cbn [fold_left].
  - split; [exact Hlo|]. split; [now apply leb_refl|constructor].
  - inversion Hl as [|? ? Hx Hl']; subst.
    destruct (Math_min_le lo x Hlo Hx) as [H1 H2].
    destruct (leb_not_nan _ _ H1) as [Hm _].
    destruct (IH (Math_min lo x) Hm Hl') as (Hn & Hle & Hall).
    split; [exact Hn|]. split; [eapply leb_trans; eassumption|].
    constructor; [eapply leb_trans; eassumption|exact Hall].
Qed.

Lemma fold_max_above l : forall hi,
  is_nan hi = false -> Forall (fun x => is_nan x = false) l ->
  is_nan (fold_left Math_max l hi) = false /\
  (hi <=? fold_left Math_max l hi) = true /\
  Forall (fun x => (x <=? fold_left Math_max l hi) = true) l.
Proof.
  induction l as [|x l IH]; intros hi Hhi Hl; cbn [fold_left].
  - split; [exact Hhi|]. split; [now apply leb_refl|constructor].
  - inversion Hl as [|? ? Hx Hl']; subst.
    destruct (Math_max_ge hi x Hhi Hx) as [H1 H2].
    destruct (leb_not_nan _ _ H1) as [_ Hm].
    destruct (IH (Math_max hi x) Hm Hl') as (Hn & Hle & Hall).
    split; [exact Hn|]. split; [eapply leb_trans; eassumption|].
    constructor; [eapply leb_trans; eassumption|exact Hall].
Qed.
End Box.

Lemma animateDrone_handle path st st' :
  animateDrone path st = Some st' ->
  droneMarker st' <> None /\ timers st' = timers st ++ [mkTimer 900 1].
Proof.
  unfold animateDrone. destruct path as [|p0 ps]; [discriminate|].
  intros [= <-]. destruct (droneMarker st); split; cbn; congruence.
Qed.

Lemma drawPath_timers st st' : drawPath st = Some st' -> timers st' = timers st.
Proof. rewrite drawPath_eq. now intros [= <-]. Qed.

Lemma move_handle path i st st' :
  move path i st = Some st' ->
  droneMarker st' = droneMarker st /\ topAlgorithms st' = topAlgorithms st /\
  lastScored st' = lastScored st /\
  (timers st' = timers st \/ droneMarker st <> None).
Proof.
  unfold move. destruct (List.length path <=? i)%nat; [intros [= <-]; auto|].
  destruct (droneMarker st) as [d|] eqn:Hd; [|discriminate].
  destruct (nth_error path i); [|discriminate].
  intros [= <-]. split; [exact Hd|]. split; [reflexivity|]. split; [reflexivity|].
  right. discriminate.
Qed.

Section Reach.
Context {E : Engine}.

Lemma reachable_ok dom st : reachable dom st -> page_ok st.
Proof.
  induction 1 as [|st p _ [T P R]|st st' _ [T P R] Hc|st _ [T P R]
                  |st st' path _ [T P R] Hf].
  - constructor; [now intros []|reflexivity|now left].
  - constructor; [exact T|exact P|exact R].
  - destruct (Nat.ltb_spec (List.length (points st)) 2) as [Hlt|Hge].
    + unfold computeRoute in Hc. apply Nat.ltb_lt in Hlt. rewrite Hlt in Hc.
      injection Hc as <-. constructor; [exact T|exact P|exact R].
    + destruct (computeRoute_map st st' Hge Hc)
        as (st1 & st2 & _ & H2 & _ & _ & _ & _ & Hd & _).
      destruct (computeRoute_page st Hge) as (best & rest & st'' & Hr & Hc' & Hl & _ & Ht).
      rewrite Hc in Hc'. injection Hc' as <-.
      constructor.
      * intros _. rewrite Hd. now apply (animateDrone_handle _ _ _ H2).
      * now rewrite Ht, Hl.
      * right. exists (points st). split; [exact Hge|congruence].
  - rewrite resetMap_eq. constructor; [exact T|exact P|exact R].
  - unfold fire in Hf. destruct (timers st) as [|t rest] eqn:Ht.
    + injection Hf as <-. constructor; [now rewrite Ht|exact P|exact R].
    + apply move_handle in Hf as (Hd & Hp & Hl & _).
      constructor; [|now rewrite Hp, Hl|rewrite Hl; exact R].
      intros _. rewrite Hd. now apply T.
Qed.

(** A timer callback finds its marker: it never stops on a
    [TypeError]. *)
Lemma fire_some dom st path :
  reachable dom st -> exists st', fire path st = Some st'.
Proof.
  intros H. pose proof (ok_timers st (reachable_ok dom st H)) as T.
  unfold fire. destruct (timers st) as [|t rest]; [now eexists|].
  unfold move. destruct (Nat.leb_spec (List.length path) (timer_index t)) as [_|Hlt];
    [now eexists|].
  cbn [droneMarker set_timers].
  destruct (droneMarker st) as [d|]; [|now destruct T].
  destruct (nth_error path (timer_index t)) eqn:Hn; [now eexists|].
  apply nth_error_None in Hn. lia.
Qed.

Lemma route_layers st st' p0 ps :
  wf st -> points st = p0 :: ps -> ps <> [] ->
  computeRoute st = Some st' ->
  map_layers st' =
    filter (fun x => negb (is_drone x))
      (filter (fun x => negb (is_polyline x)) (map_layers st)) ++
    new_layers (next_layer st) (segments (points st)) ++
    [mkLayer (next_layer st + List.length ps) (DroneShape p0)] /\
  polylines st' = seq (next_layer st) (List.length ps) /\
  droneMarker st' = Some (next_layer st + List.length ps)%nat.
Proof.
  intros W Hp Hps Hc.
  destruct (rank_cons (analyzeGraph (points st))) as (best & rest & Hr).
  rewrite (computeRoute_eq st p0 ps best rest (wf_fresh st W) Hp Hps Hr) in Hc.
  injection Hc as <-. cbn [map_layers polylines droneMarker].
  split; [|split; reflexivity].
  rewrite (keep_polylines st W), filter_app, <- app_assoc. f_equal.
  - rewrite !filter_filter. apply filter_ext_in. intros x Hx.
    destruct (is_polyline x) eqn:Hk; [reflexivity|]. cbn [negb andb].
    now rewrite removed_drone.
  - f_equal. apply filter_every. intros x Hx.
    pose proof (new_layers_above (next_layer st) (segments (points st))) as Ha.
    rewrite Forall_forall in Ha. specialize (Ha x Hx).
    pose proof (wf_drone st W) as D.
    destruct (droneMarker st) as [d|]; [|reflexivity].
    rewrite removed_one. destruct D as [Hd _].
    destruct (Nat.eqb_spec (layer_id x) d); [lia|reflexivity].
Qed.
End Reach.

Lemma marker_layers_ids st :
  List.length (markers st) = List.length (points st) ->
  map layer_id (marker_layers st) = markers st /\
  map shape (marker_layers st) = map MarkerShape (points st).
Proof.
  unfold marker_layers. generalize (points st). induction (markers st) as [|m ms IH];
    intros [|p ps] H; cbn in *; try discriminate; [now split|].
  destruct (IH ps) as [H1 H2]; [lia|]. now rewrite H1, H2.
Qed.

Lemma new_layers_shapes base shapes : map shape (new_layers base shapes) = shapes.
Proof.
  revert base. induction shapes as [|s l IH]; intros base; cbn; [reflexivity|].
  now rewrite IH.
Qed.

Section Animation.
Variables (path : list LatLng) (d : nat).

Lemma fire_next k p q st :
  showing d k p st -> nth_error path (S k) = Some q ->
  exists st', fire path st = Some st' /\ showing d (S k) q st' /\
    filter (fun x => negb (is_drone x)) (map_layers st') =
    filter (fun x => negb (is_drone x)) (map_layers st).
Proof.
  intros (W & Hd & Hf & Ht) Hq. unfold fire. rewrite Ht. cbn [timer_index].
  unfold move. cbn [droneMarker set_timers].
  assert (Hlt : (S k < List.length path)%nat)
    by (apply nth_error_Some; congruence).
  destruct (Nat.leb_spec (List.length path) (S k)) as [Hle|_]; [lia|].
  rewrite Hd, Hq. eexists. split; [reflexivity|].
  assert (W0 : wf (set_timers [] st)) by (apply (wf_frame st); auto).
  pose proof (wf_setLatLng (set_timers [] st) d q W0 Hd) as W1.
  split; [split; [|split; [|split]]|].
  - apply (wf_frame (setLatLng d q (set_timers [] st))); auto.
  - exact Hd.
  - exact (relocate_drone (set_timers [] st) d q W0 Hd p Hf).
  - cbn. now rewrite Nat.add_1_r.
  - exact (relocate_rest (set_timers [] st) d q W0 Hd).
Qed.

Lemma fire_last k p st :
  showing d k p st -> (List.length path <= S k)%nat ->
  exists st', fire path st = Some st' /\ timers st' = [] /\
    map_layers st' = map_layers st /\ fire path st' = Some st'.
Proof.
  intros (W & Hd & Hf & Ht) Hle. unfold fire at 1. rewrite Ht. cbn [timer_index].
  unfold move. apply Nat.leb_le in Hle. rewrite Hle.
  eexists. split; [reflexivity|]. repeat split.
Qed.

Lemma fire_run k : forall j p st,
  showing d j p st -> forall q, nth_error path (j + k) = Some q ->
  nth_error path j = Some p ->
  exists st', fire_times path k st = Some st' /\ showing d (j + k) q st' /\
    filter (fun x => negb (is_drone x)) (map_layers st') =
    filter (fun x => negb (is_drone x)) (map_layers st).
Proof.
  induction k as [|k IH]; intros j p st Hs q Hq Hp; cbn [fire_times].
  - rewrite Nat.add_0_r in *. exists st. split; [reflexivity|].
    split; [|reflexivity]. congruence.
  - assert (Hlt : (S j < List.length path)%nat).
    { assert (j + S k < List.length path)%nat by (apply nth_error_Some; congruence).
      lia. }
    destruct (nth_error path (S j)) as [p1|] eqn:H1;
      [|apply nth_error_None in H1; lia].
    destruct (fire_next j p p1 st Hs H1) as (st1 & -> & Hs1 & Hr1).
    replace (j + S k)%nat with (S j + k)%nat in * by lia.
    destruct (IH (S j) p1 st1 Hs1 q Hq H1) as (st' & Hf & Hs' & Hr').
    exists st'. split; [exact Hf|]. split; [exact Hs'|congruence].
Qed.
End Animation.

Lemma fire_times_snoc path k : forall st,
  fire_times path (k + 1) st =
  match fire_times path k st with Some s => fire path s | None => None end.
Proof.
  induction k as [|k IH]; intros st; cbn [fire_times Nat.add].
  - now destruct (fire path st).
  - destruct (fire path st); [apply IH|reflexivity].
Qed.

Section Started.
Context {E : Engine}.

(** [computeRoute] leaves the drone on the first point with one timer
    pending, if none was pending before. *)
Lemma route_started st st0 p0 ps :
  wf st -> timers st = [] -> points st = p0 :: ps -> ps <> [] ->
  computeRoute st = Some st0 ->
  showing (next_layer st + List.length ps) 0 p0 st0.
Proof.
  intros W Ht Hp Hps Hc.
  destruct (route_layers st st0 p0 ps W Hp Hps Hc) as (HL & _ & Hd).
  assert (Hn : (2 <= List.length (points st))%nat).
  { rewrite Hp. destruct ps; [congruence|cbn; lia]. }
  destruct (computeRoute_map st st0 Hn Hc)
    as (st1 & st2 & H1 & H2 & _ & _ & _ & _ & _ & _ & _ & Htm).
  split; [eapply wf_computeRoute; eassumption|]. split; [exact Hd|]. split.
  - rewrite HL, !filter_app.
    destruct (segments_are_polylines (next_layer st) (points st)) as (_ & _ & _ & ->).
    rewrite filter_filter, (filter_none _ (filter _ _)); [reflexivity|].
    intros x _. now destruct (is_drone x).
  - rewrite Htm. destruct (animateDrone_handle _ _ _ H2) as [_ ->].
    now rewrite (drawPath_timers _ _ H1), Ht.
Qed.
End Started.

Lemma contains_app c l1 l2 :
  classList_contains c (l1 ++ l2) = classList_contains c l1 || classList_contains c l2.
Proof. apply existsb_app. Qed.

Lemma contains_add c x cl :
  classList_contains c (classList_add x cl) = (c =? x)%string || classList_contains c cl.
Proof.
  unfold classList_add. destruct (classList_contains x cl) eqn:Hx.
  - destruct (String.eqb_spec c x) as [->|]; [now rewrite Hx|reflexivity].
  - rewrite contains_app. cbn. rewrite orb_false_r. apply orb_comm.
Qed.

Lemma contains_remove c x cl :
  classList_contains c (classList_remove x cl) =
  negb (c =? x)%string && classList_contains c cl.
Proof.
  unfold classList_remove, classList_contains.
  induction cl as [|y cl IH]; cbn; [now rewrite andb_false_r|].
  destruct (String.eqb_spec x y) as [->|Hxy]; cbn.
  - rewrite IH. destruct (String.eqb_spec c y); cbn; [reflexivity|reflexivity].
  - rewrite IH. destruct (String.eqb_spec c y) as [->|]; cbn.
    + destruct (String.eqb_spec y x); [congruence|reflexivity].
    + reflexivity.
Qed.

Lemma contains_toggle c x b cl :
  classList_contains c (classList_toggle x b cl) =
  if (c =? x)%string then b else classList_contains c cl.
Proof.
  unfold classList_toggle. destruct b; [rewrite contains_add|rewrite contains_remove];
    now destruct (c =? x)%string.
Qed.

(** The observer. *)
Lemma reveal_contains c doc e el :
  classList_contains c (reveal doc e el) =
  ((c =? "visible")%string && (el =? target e)%nat && isIntersecting e)
  || classList_contains c (doc el).
Proof.
  unfold reveal. destruct (isIntersecting e); [|now rewrite !andb_false_r].
  destruct (Nat.eqb_spec el (target e)) as [->|]; [|now rewrite andb_false_r].
  rewrite contains_add. now rewrite !andb_true_r.
Qed.

Lemma observer_contains c es : forall doc el,
  classList_contains c (observerCallback es doc el) =
  ((c =? "visible")%string &&
   existsb (fun e => (el =? target e)%nat && isIntersecting e) es)
  || classList_contains c (doc el).
Proof.
  unfold observerCallback.
  induction es as [|e es IH]; intros doc el; cbn [fold_left existsb].
  - now rewrite andb_false_r.
  - rewrite IH, reveal_contains.
    destruct (c =? "visible")%string, (el =? target e)%nat, (isIntersecting e),
      (existsb _ es), (classList_contains c (doc el)); reflexivity.
Qed.

(** The navbar. *)
Lemma onScroll_contains c y cl cl' :
  onScroll y (Some cl) = Some cl' ->
  classList_contains c cl' =
  if (c =? "shrink")%string then gtb y 60%float else classList_contains c cl.
Proof.
  unfold onScroll. intros [= <-].
  destruct (gtb y 60%float); [rewrite contains_add|rewrite contains_remove];
    now destruct (c =? "shrink")%string.
Qed.

Lemma onScroll_fold ys :
  fold_left (fun nav y => onScroll y nav) ys None = None.
Proof. induction ys as [|y ys IH]; [reflexivity|exact IH]. Qed.

Lemma onScroll_run ys : forall cl,
  exists cl', fold_left (fun nav y => onScroll y nav) ys (Some cl) = Some cl' /\
    forall c, classList_contains c cl' =
      if (c =? "shrink")%string
      then match ys with [] => classList_contains c cl | _ => gtb (last ys 0%float) 60%float end
      else classList_contains c cl.
Proof.
  induction ys as [|y ys IH]; intros cl.
  - exists cl. split; [reflexivity|]. intros c. now destruct (c =? "shrink")%string.
  - cbn [fold_left]. unfold onScroll at 2.
    set (cl1 := if gtb y 60%float then _ else _).
    destruct (IH cl1) as (cl' & Hf & Hc). exists cl'. split; [exact Hf|].
    intros c. rewrite Hc.
    assert (H1 : classList_contains c cl1 =
                 if (c =? "shrink")%string then gtb y 60%float else classList_contains c cl)
      by (apply (onScroll_contains c y cl cl1); reflexivity).
    destruct (c =? "shrink")%string; [|exact H1].
    destruct ys as [|y' ys]; [exact H1|reflexivity].
Qed.

(** The theme. *)
Lemma savedTheme_light pg :
  (savedTheme pg =? "light")%string =
  match storage_theme pg with Some s => (s =? "light")%string | None => false end.
Proof.
  unfold savedTheme. destruct (storage_theme pg) as [s|]; [|reflexivity].
  destruct (String.eqb_spec s "") as [->|]; reflexivity.
Qed.

Lemma setTheme_sync mode pg :
  toggle_listens pg = true -> theme_sync (setTheme mode pg).
Proof.
  intros H. exists mode. unfold setTheme. cbn [has_toggle body_classes storage_theme toggle_text toggle_listens].
  rewrite contains_toggle, String.eqb_refl. now repeat split.
Qed.

Lemma load_sync pg : has_toggle pg = true -> theme_sync (onDOMContentLoaded pg).
Proof.
  intros H. unfold onDOMContentLoaded. rewrite H. cbn [negb].
  exists (savedTheme pg). unfold setTheme. cbn [has_toggle body_classes storage_theme toggle_text toggle_listens].
  rewrite contains_toggle, String.eqb_refl. now repeat split.
Qed.

Lemma click_sync pg : theme_sync pg -> theme_sync (onToggleClick pg).
Proof.
  intros (mode & _ & _ & _ & Hl). unfold onToggleClick. rewrite Hl.
  now apply setTheme_sync.
Qed.

Lemma click_flips pg :
  toggle_listens pg = true ->
  classList_contains "light" (body_classes (onToggleClick pg)) =
  negb (classList_contains "light" (body_classes pg)).
Proof.
  intros Hl. unfold onToggleClick. rewrite Hl. unfold setTheme. cbn [has_toggle body_classes storage_theme toggle_text toggle_listens].
  rewrite contains_toggle, String.eqb_refl.
  now destruct (classList_contains "light" (body_classes pg)).
Qed.

Lemma click_other c pg :
  c <> "light" ->
  classList_contains c (body_classes (onToggleClick pg)) =
  classList_contains c (body_classes pg).
Proof.
  intros Hc. unfold onToggleClick. destruct (toggle_listens pg); [|reflexivity].
  unfold setTheme. cbn [has_toggle body_classes storage_theme toggle_text toggle_listens].
  rewrite contains_toggle. now destruct (String.eqb_spec c "light").
Qed.

Lemma result_text_other {E : Engine} best dist count old k :
  ~ In k result_ids -> result_text best dist count old k = old k.
Proof.
  intros H. unfold result_text.
  repeat match goal with
  | |- context [String.eqb k ?s] =>
      destruct (String.eqb_spec k s) as [->|_];
      [exfalso; apply H; unfold result_ids; cbn; tauto|]
  end.
  reflexivity.
Qed.

Lemma last_cons {A} (ps : list A) : forall p p0, last (p :: ps) p0 = last ps p.
Proof.
  induction ps as [|q ps IH]; intros p p0; [reflexivity|].
  change (last (p :: q :: ps) p0) with (last (q :: ps) p0).
  now rewrite !IH.
Qed.

Lemma nth_error_last {A} (ps : list A) : forall p0,
  nth_error (p0 :: ps) (List.length ps) = Some (last ps p0).
Proof.
  induction ps as [|p ps IH]; intros p0; [reflexivity|].
  cbn [List.length nth_error]. now rewrite IH, last_cons.
Qed.

Lemma observer_app es1 es2 doc :
  observerCallback (es1 ++ es2) doc = observerCallback es2 (observerCallback es1 doc).
Proof. apply fold_left_app. Qed.

Lemma observer_calls calls : forall doc,
  fold_left (fun d es => observerCallback es d) calls doc =
  observerCallback (List.concat calls) doc.
Proof.
  induction calls as [|es calls IH]; intros doc; [reflexivity|].
  cbn [fold_left List.concat]. now rewrite IH, observer_app.
Qed.

Section RouteKinds.
Context {E : Engine}.

Lemma route_kinds st st' p0 ps :
  wf st -> points st = p0 :: ps -> ps <> [] ->
  computeRoute st = Some st' ->
  filter is_tile (map_layers st') = filter is_tile (map_layers st) /\
  filter is_marker (map_layers st') = filter is_marker (map_layers st) /\
  filter is_polyline (map_layers st') =
    new_layers (next_layer st) (segments (points st)) /\
  filter is_drone (map_layers st') =
    [mkLayer (next_layer st + List.length ps) (DroneShape p0)].
Proof.
  intros W Hp Hps Hc.
  destruct (route_layers st st' p0 ps W Hp Hps Hc) as (-> & _ & _).
  destruct (segments_are_polylines (next_layer st) (points st)) as (Sp & St & Sm & Sd).
  rewrite !filter_app, Sp, St, Sm, Sd. cbn [filter is_tile is_marker is_polyline is_drone shape].
  rewrite !app_nil_r.
  split; [|split; [|split]].
  - now rewrite !filter_kind_of_rest by kinds.
  - now rewrite !filter_kind_of_rest by kinds.
  - rewrite filter_kind_of_rest by kinds.
    rewrite filter_filter, (filter_none _ (map_layers st)); [reflexivity|].
    intros x _. now destruct (is_polyline x).
  - rewrite filter_filter, (filter_none _ (filter _ _)); [reflexivity|].
    intros x _. now destruct (is_drone x).
Qed.

Lemma reachable_two_clicks : reachable (fun _ => "") two_clicks.
Proof. unfold two_clicks. apply reach_click, reach_click, reach_initial. Qed.
End RouteKinds.

Lemma two_clicks_route :
  computeRoute (E := small_angle_engine) two_clicks = Some after_route.
Proof. vm_compute. reflexivity. Qed.

Lemma reachable_after_route :
  reachable (E := small_angle_engine) (fun _ => "") after_route.
Proof.
  exact (reach_compute _ _ _ (reachable_two_clicks (E := small_angle_engine))
           two_clicks_route).
Qed.

(** ** Statements *)

(** X1: for all graph statistics the entry at the head of the ranking
    scores 100, and it is Dijkstra for four to seven points, else A*
    when the spread exceeds 0.3 and the density is below 10, else BFS
    up to three points and Bidirectional Dijkstra from eight on; its
    complexity label is O(V+E) for BFS and O(E log V) for the others. *)
Theorem recommendation_closed_form (s : Analysis) :
  exists best rest,
    rank s = best :: rest /\ score best = 100 /\
    name (algo best) = recommended s /\ time (algo best) = recommended_time s.
Proof. exact (rank_head s). Qed.

Section PageExtras.
Context {E : Engine}.

(** X2: a route computation for two points or more shows the
    explanation of Dijkstra, A*, BFS or Bidirectional Dijkstra: the
    Bellman-Ford text and the generic sentence are never shown. *)
Theorem explanation_never_generic (st : State) :
  (2 <= List.length (points st))%nat ->
  exists st',
    computeRoute st = Some st' /\
    innerText st' "aiExplanation" = explain (recommended (analyzeGraph (points st))) /\
    In (innerText st' "aiExplanation")
       [explanation_Dijkstra; explanation_AStar; explanation_BFS;
        explanation_Bidirectional] /\
    innerText st' "aiExplanation" <> explanation_BellmanFord /\
    innerText st' "aiExplanation" <> explanation_fallback.
Proof.
  intros Hn.
  destruct (computeRoute_page st Hn) as (best & rest & st' & Hr & Hc & _ & Hi & _).
  destruct (rank_head (analyzeGraph (points st))) as (b & r & Hr' & _ & Hname & _).
  rewrite Hr in Hr'. injection Hr' as <- <-.
  exists st'. split; [exact Hc|].
  assert (Ht : innerText st' "aiExplanation" =
               explain (recommended (analyzeGraph (points st)))).
  { rewrite Hi. unfold result_text. cbn [String.eqb Ascii.eqb Bool.eqb].
    now rewrite Hname. }
  split; [exact Ht|]. rewrite Ht.
  pose proof (explain_recommended (analyzeGraph (points st))) as Hin.
  split; [exact Hin|].
  pose proof explanations_apart as N.
  inversion N as [|? ? N1 N']; inversion N' as [|? ? N2 N'']; subst.
  inversion N'' as [|? ? N3 N3']; inversion N3' as [|? ? N4 N4']; subst.
  cbn [In] in *.
  split; intros Heq; rewrite Heq in Hin;
    destruct Hin as [H|[H|[H|[H|[]]]]];
    first [apply N1; rewrite H; tauto | apply N2; rewrite H; tauto
          | apply N3; rewrite H; tauto | apply N4; rewrite H; tauto].
Qed.

(** X3: a route computation for two points or more writes the name of
    the recommended algorithm to [algoName] and [bestAlgo], its
    complexity label to [complexity], the number of points to [points]
    and to [iterations], the distance with two decimals and the unit
    to [distance]; an element that is neither one of the eight it
    writes to nor the panel [topAlgorithms], whose content the
    rendering of the cards replaces, keeps the text it had (the texts
    being kept per element, as the ids name them). *)
Theorem result_texts (st : State) :
  (2 <= List.length (points st))%nat ->
  exists st',
    computeRoute st = Some st' /\
    innerText st' "algoName" = recommended (analyzeGraph (points st)) /\
    innerText st' "bestAlgo" = recommended (analyzeGraph (points st)) /\
    innerText st' "complexity" = recommended_time (analyzeGraph (points st)) /\
    innerText st' "points" = String_of_nat (List.length (points st)) /\
    innerText st' "iterations" = String_of_nat (List.length (points st)) /\
    innerText st' "distance" =
      (toFixed2 (sum_consecutive (points st)) ++ " km")%string /\
    (forall k, ~ In k result_ids -> k <> "topAlgorithms" ->
               innerText st' k = innerText st k).
Proof.
  intros Hn.
  destruct (computeRoute_page st Hn) as (best & rest & st' & Hr & Hc & _ & Hi & _).
  destruct (rank_head (analyzeGraph (points st))) as (b & r & Hr' & _ & Hname & Htime).
  rewrite Hr in Hr'. injection Hr' as <- <-.
  exists st'. split; [exact Hc|]. rewrite Hi, <- Hname, <- Htime.
  repeat split. intros k Hk _. now apply result_text_other.
Qed.

(** X4: the panel shows one card for each of the first three entries
    of [lastScored], numbered from 1 in their order, each with the
    entry's name, complexity and score, and the badge on the first one
    only; what the panel showed before is gone, so rendering twice is
    rendering once. *)
Theorem top_panel_shows_first_three (st : State) :
  List.length (topAlgorithms (renderTopAlgorithms st)) =
    Nat.min 3 (List.length (lastScored st)) /\
  (forall i a, (i < 3)%nat -> nth_error (lastScored st) i = Some a ->
     nth_error (topAlgorithms (renderTopAlgorithms st)) i =
     Some (mkTopCard (i + 1) (name (algo a)) (time (algo a)) (score a) (i =? 0)%nat)) /\
  renderTopAlgorithms (renderTopAlgorithms st) = renderTopAlgorithms st.
Proof.
  rewrite !renderTopAlgorithms_eq. cbn [topAlgorithms set_topAlgorithms lastScored].
  split; [|split].
  - now rewrite cards_length, length_firstn.
  - intros i a Hi Ha. rewrite nth_error_cards, nth_error_firstn.
    apply Nat.ltb_lt in Hi. rewrite Hi, Ha. reflexivity.
  - reflexivity.
Qed.

(** X5: one more point at the end of the path adds the haversine
    distance of the new last leg to the distance of the path so far. *)
Theorem route_distance_extends (ps : list LatLng) (a b : LatLng) :
  routeDistance (ps ++ [a; b]) =
  option_map (fun d => (d + haversine a b)%float) (routeDistance (ps ++ [a])).
Proof.
  rewrite !routeDistance_sum. cbn [option_map]. now rewrite sum_consecutive_snoc.
Qed.
End PageExtras.

(** X6: the ranking does not depend on the sorting algorithm of the
    engine: every arrangement of the scored catalog that is in weakly
    decreasing order of score and keeps the entries of each score in
    catalog order is the ranking. *)
Theorem ranking_is_the_stable_sort (s : Analysis) (l : list Scored) :
  StronglySorted (desc score) l ->
  (forall v, filter (fun e => score e =? v) l =
             filter (fun e => score e =? v) (map (scoreAlgorithm s) algorithms)) ->
  l = rank s.
Proof. intros S H. exact (stable_sort_is_sort score _ l S H). Qed.

(** X7: the bounding box [analyzeGraph] folds up contains every point
    of the list, as long as no coordinate is NaN. *)
Theorem bounding_box_contains_points (ps : list LatLng) (p : LatLng) :
  Forall (fun q => is_nan (lat q) = false /\ is_nan (lng q) = false) ps ->
  In p ps ->
  let b := fold_left extend ps (mkBounds infinity neg_infinity infinity neg_infinity) in
  (minLat b <=? lat p)%float = true /\ (lat p <=? maxLat b)%float = true /\
  (minLng b <=? lng p)%float = true /\ (lng p <=? maxLng b)%float = true.
Proof.
  intros Hn Hp b. subst b. rewrite extend_fold. cbn [minLat maxLat minLng maxLng].
  assert (Hlat : Forall (fun x => is_nan x = false) (map lat ps)).
  { apply Forall_map. eapply Forall_impl; [|exact Hn]. now intros q [H _]. }
  assert (Hlng : Forall (fun x => is_nan x = false) (map lng ps)).
  { apply Forall_map. eapply Forall_impl; [|exact Hn]. now intros q [_ H]. }
  destruct (fold_min_below _ infinity eq_refl Hlat) as (_ & _ & A1).
  destruct (fold_max_above _ neg_infinity eq_refl Hlat) as (_ & _ & A2).
  destruct (fold_min_below _ infinity eq_refl Hlng) as (_ & _ & A3).
  destruct (fold_max_above _ neg_infinity eq_refl Hlng) as (_ & _ & A4).
  rewrite Forall_forall in A1, A2, A3, A4.
  repeat split; [apply A1|apply A2|apply A3|apply A4]; now apply in_map.
Qed.

Section MapExtras.
Context {E : Engine}.
Variable dom : string -> string.

(** X8: in every state the page can be in, the markers on the map are
    one per clicked point, at that point and in the order of the
    clicks, and their handles are the entries of [markers]. *)
Theorem markers_follow_points (st : State) :
  reachable dom st ->
  map shape (filter is_marker (map_layers st)) = map MarkerShape (points st) /\
  map layer_id (filter is_marker (map_layers st)) = markers st /\
  List.length (markers st) = List.length (points st).
Proof.
  intros H. pose proof (reachable_wf dom st H) as W.
  rewrite (wf_markers st W).
  destruct (marker_layers_ids st (wf_count st W)) as [H1 H2].
  split; [exact H2|]. split; [exact H1|exact (wf_count st W)].
Qed.

(** X9: in every state the page can be in, no two layers of the map
    share an identity, the tile layer is on the map, the polylines on
    the map are those recorded in [polylines], and there is at most
    one drone marker on the map; if there is one, [droneMarker] is its
    handle. *)
Theorem map_layers_accounted (st : State) :
  reachable dom st ->
  NoDup (map layer_id (map_layers st)) /\
  filter is_tile (map_layers st) = [mkLayer 0 TileShape] /\
  map layer_id (filter is_polyline (map_layers st)) = polylines st /\
  (List.length (filter is_drone (map_layers st)) <= 1)%nat /\
  (forall x, In x (filter is_drone (map_layers st)) ->
             droneMarker st = Some (layer_id x)).
Proof.
  intros H. pose proof (reachable_wf dom st H) as W.
  split; [exact (wf_nodup st W)|]. split; [exact (wf_tile st W)|].
  split; [exact (wf_polylines st W)|].
  pose proof (wf_drone st W) as D.
  destruct (droneMarker st) as [d|].
  - destruct D as [_ [[p ->] | [-> _]]]; cbn [List.length In].
    + split; [lia|]. now intros x [<-|[]].
    + split; [lia|]. now intros x [].
  - rewrite D. cbn [List.length In]. split; [lia|now intros x []].
Qed.

(** X10: in every state the page can be in, the reset takes every
    marker, every polyline and the drone marker off the map, none of
    them stays behind, and the tile layer stays on it. *)
Theorem reset_removes_drawn_layers (st : State) :
  reachable dom st ->
  filter is_marker (map_layers (resetMap st)) = [] /\
  filter is_polyline (map_layers (resetMap st)) = [] /\
  filter is_drone (map_layers (resetMap st)) = [] /\
  filter is_tile (map_layers (resetMap st)) = [mkLayer 0 TileShape].
Proof.
  intros H. rewrite (resetMap_layers st (reachable_wf dom st H)).
  now repeat split.
Qed.

(** X11: from every state the page can be in with two points or more,
    the route computation leaves on the map exactly one polyline for
    each pair of consecutive points, in path order, exactly one drone
    marker, on the first point, and the tile layer and the markers as
    they were: nothing of an earlier route stays. *)
Theorem route_redraws_path (st : State) (p0 : LatLng) (ps : list LatLng) :
  reachable dom st -> points st = p0 :: ps -> ps <> [] ->
  exists st',
    computeRoute st = Some st' /\
    map shape (filter is_polyline (map_layers st')) = segments (points st) /\
    map layer_id (filter is_polyline (map_layers st')) = polylines st' /\
    List.length (polylines st') = List.length ps /\
    map shape (filter is_drone (map_layers st')) = [DroneShape p0] /\
    filter is_marker (map_layers st') = filter is_marker (map_layers st) /\
    filter is_tile (map_layers st') = filter is_tile (map_layers st).
Proof.
  intros H Hp Hps. pose proof (reachable_wf dom st H) as W.
  assert (Hn : (2 <= List.length (points st))%nat).
  { rewrite Hp. destruct ps; [congruence|cbn; lia]. }
  destruct (computeRoute_page st Hn) as (_ & _ & st' & _ & Hc & _).
  exists st'. split; [exact Hc|].
  destruct (route_kinds st st' p0 ps W Hp Hps Hc) as (Kt & Km & Kp & Kd).
  destruct (route_layers st st' p0 ps W Hp Hps Hc) as (_ & Hpl & _).
  rewrite Kp, Kd, Km, Kt, Hpl, new_layers_shapes, new_layers_ids, length_seq,
    segments_length, Hp.
  cbn [List.length Nat.sub]. rewrite Nat.sub_0_r. now repeat split.
Qed.

(** X12: a route computation for two points or more sets exactly one
    timer, for the second point, and cancels none: the timers pending
    before are still pending. *)
Theorem route_adds_one_timer (st st' : State) :
  (2 <= List.length (points st))%nat -> computeRoute st = Some st' ->
  timers st' = timers st ++ [mkTimer 900 1].
Proof.
  intros Hn Hc.
  destruct (computeRoute_map st st' Hn Hc)
    as (st1 & st2 & H1 & H2 & _ & _ & _ & _ & _ & _ & _ & ->).
  destruct (animateDrone_handle _ _ _ H2) as [_ ->].
  now rewrite (drawPath_timers _ _ H1).
Qed.

(** X13: after a route computation with no timer pending before, and
    as long as nothing but the timer happens, the k-th firing of the
    timer puts the drone marker on point k of the path and sets the
    timer for point k+1, everything else on the map staying as it is;
    the firing after the last point sets no timer, and the drone
    marker rests on the last point. *)
Theorem animation_follows_route (st st0 : State) (p0 : LatLng) (ps : list LatLng) :
  reachable dom st -> timers st = [] -> points st = p0 :: ps -> ps <> [] ->
  computeRoute st = Some st0 ->
  (forall k p, nth_error (points st) k = Some p ->
     exists stk,
       fire_times (points st) k st0 = Some stk /\
       map shape (filter is_drone (map_layers stk)) = [DroneShape p] /\
       timers stk = [mkTimer 900 (S k)] /\
       filter (fun x => negb (is_drone x)) (map_layers stk) =
       filter (fun x => negb (is_drone x)) (map_layers st0)) /\
  (exists st_end,
     fire_times (points st) (List.length (points st)) st0 = Some st_end /\
     timers st_end = [] /\
     map shape (filter is_drone (map_layers st_end)) = [DroneShape (last ps p0)] /\
     fire (points st) st_end = Some st_end).
Proof.
  intros H Ht Hp Hps Hc. pose proof (reachable_wf dom st H) as W.
  pose proof (route_started st st0 p0 ps W Ht Hp Hps Hc) as Hs.
  set (d := (next_layer st + List.length ps)%nat) in *.
  assert (H0 : nth_error (points st) 0 = Some p0) by now rewrite Hp.
  split.
  - intros k p Hk.
    destruct (fire_run (points st) d k 0 p0 st0 Hs p Hk H0) as (stk & Hf & Hsk & Hr).
    exists stk. split; [exact Hf|]. destruct Hsk as (_ & _ & -> & Htk).
    split; [reflexivity|]. split; [exact Htk|exact Hr].
  - assert (Hl : nth_error (points st) (List.length ps) = Some (last ps p0))
      by (rewrite Hp; apply nth_error_last).
    destruct (fire_run (points st) d (List.length ps) 0 p0 st0 Hs _ Hl H0)
      as (stk & Hf & Hsk & _).
    cbn [Nat.add] in Hsk.
    destruct (fire_last (points st) d (List.length ps) _ stk Hsk)
      as (st_end & Hfe & Hte & HLe & Hagain).
    { rewrite Hp. cbn. lia. }
    exists st_end. rewrite Hp at 2. cbn [List.length].
    rewrite <- Nat.add_1_r, fire_times_snoc, Hf.
    split; [exact Hfe|]. split; [exact Hte|]. split; [|exact Hagain].
    rewrite HLe. destruct Hsk as (_ & _ & -> & _). reflexivity.
Qed.

(** X14: in every state the page can be in, a timer callback runs
    through whichever path its closure holds: a pending timer always
    finds a drone marker to move, so it never stops on a TypeError. *)
Theorem timer_never_throws (st : State) (path : list LatLng) :
  reachable dom st -> exists st', fire path st = Some st'.
Proof. apply fire_some. Qed.

(** X15: the reset cancels no timer, and a timer that fires after it
    brings nothing back: there is still no marker, no polyline and no
    drone marker on the map, and the tile layer is still on it. *)
Theorem timers_after_reset_move_nothing (st : State) (path : list LatLng) :
  reachable dom st ->
  timers (resetMap st) = timers st /\
  exists st', fire path (resetMap st) = Some st' /\
              filter is_marker (map_layers st') = [] /\
              filter is_polyline (map_layers st') = [] /\
              filter is_drone (map_layers st') = [] /\
              filter is_tile (map_layers st') = [mkLayer 0 TileShape].
Proof.
  intros H. split; [now rewrite resetMap_eq|].
  pose proof (reach_reset dom st H) as Hr.
  pose proof (reachable_wf dom _ Hr) as W.
  pose proof (resetMap_layers st (reachable_wf dom st H)) as HL.
  destruct (fire_some dom _ path Hr) as (st' & Hf). exists st'. split; [exact Hf|].
  assert (HL' : map_layers st' = [mkLayer 0 TileShape]).
  { unfold fire in Hf. destruct (timers (resetMap st)) as [|t rest].
    - injection Hf as <-. exact HL.
    - unfold move in Hf. destruct (_ <=? _)%nat; [injection Hf as <-; exact HL|].
      cbn [droneMarker set_timers] in Hf.
      destruct (droneMarker (resetMap st)) as [d|] eqn:Hd; [|discriminate].
      destruct (nth_error path (timer_index t)) as [p|]; [|discriminate].
      injection Hf as <-. unfold setTimeout, setLatLng. cbn [map_layers set_timers].
      rewrite HL. cbn [map layer_id].
      pose proof (drone_not_tile _ d W Hd) as Hz.
      destruct (Nat.eqb_spec 0 d); [congruence|reflexivity]. }
  rewrite HL'. now repeat split.
Qed.

(** X16: in every state the page can be in, the panel shows the cards
    of the first three entries of [lastScored], and [lastScored] is
    empty (no route was computed yet) or the ranking for some two
    points or more: hence of twelve entries. *)
Theorem panel_follows_ranking (st : State) :
  reachable dom st ->
  topAlgorithms st = cards 0 (firstn 3 (lastScored st)) /\
  (lastScored st = [] \/
   exists pts, (2 <= List.length pts)%nat /\
               lastScored st = rank (analyzeGraph pts) /\
               List.length (lastScored st) = 12%nat).
Proof.
  intros H. destruct (reachable_ok dom st H) as [_ P R].
  split; [exact P|]. destruct R as [R|(pts & Hn & R)]; [now left|right].
  exists pts. split; [exact Hn|]. split; [exact R|]. rewrite R. apply rank_length.
Qed.
End MapExtras.

(** X17: once the handler of [DOMContentLoaded] ran on a page with the
    button, and after any number of clicks on it, the class of the
    body, the stored item and the text of the button agree: the body
    is light exactly if the stored theme is [light], and the button
    shows the icon of that theme. *)
Theorem theme_stays_consistent (pg : ThemePage) (k : nat) :
  has_toggle pg = true ->
  theme_sync (Nat.iter k onToggleClick (onDOMContentLoaded pg)).
Proof.
  intros H. induction k as [|k IH]; cbn [Nat.iter].
  - now apply load_sync.
  - now apply click_sync.
Qed.

(** X18: a click on the listening button flips the theme: the body is
    light after it exactly if it was not before, the other classes of
    the body stay, the new theme is stored, and a second click brings
    the first theme back. *)
Theorem theme_click_flips (pg : ThemePage) :
  toggle_listens pg = true ->
  classList_contains "light" (body_classes (onToggleClick pg)) =
    negb (classList_contains "light" (body_classes pg)) /\
  storage_theme (onToggleClick pg) =
    Some (if classList_contains "light" (body_classes pg) then "dark" else "light") /\
  (forall c, c <> "light" ->
     classList_contains c (body_classes (onToggleClick pg)) =
     classList_contains c (body_classes pg)) /\
  classList_contains "light" (body_classes (onToggleClick (onToggleClick pg))) =
    classList_contains "light" (body_classes pg).
Proof.
  intros Hl. split; [now apply click_flips|]. split.
  { unfold onToggleClick. now rewrite Hl. }
  split; [intros c Hc; now apply click_other|].
  rewrite !click_flips; [apply negb_involutive|exact Hl|].
  unfold onToggleClick. now rewrite Hl.
Qed.

(** X19: the theme survives a reload: when the page is loaded again,
    whatever classes its HTML gives the body, the handler makes the
    body light exactly if it was light before the reload. *)
Theorem theme_survives_reload (html pg : ThemePage) :
  theme_sync pg -> has_toggle html = true ->
  classList_contains "light" (body_classes (onDOMContentLoaded (reload html pg))) =
  classList_contains "light" (body_classes pg).
Proof.
  intros (mode & Hs & Hc & _) Hh. unfold onDOMContentLoaded.
  cbn [reload has_toggle]. rewrite Hh. cbn [negb]. unfold setTheme.
  cbn [has_toggle body_classes storage_theme toggle_text toggle_listens].
  rewrite contains_toggle, String.eqb_refl, savedTheme_light.
  cbn [storage_theme reload]. now rewrite Hs, Hc.
Qed.

(** X20: after any sequence of observer callbacks an element is
    [visible] exactly if it was before or one of the entries reported
    it as intersecting; no callback hides an element again, and no
    other class of any element changes. *)
Theorem observer_reveals_for_good (calls : list (list Entry)) (doc : Document)
    (el : nat) (c : string) :
  classList_contains c (fold_left (fun d es => observerCallback es d) calls doc el) =
  ((c =? "visible")%string &&
   existsb (fun e => (el =? target e)%nat && isIntersecting e) (List.concat calls))
  || classList_contains c (doc el).
Proof. rewrite observer_calls. apply observer_contains. Qed.

(** X21: after any sequence of scroll events the navbar is shrunk
    exactly if the last scroll position is above 60; its other classes
    are as before; without a navbar nothing happens. *)
Theorem navbar_follows_last_scroll (ys : list float) (y : float) (cl : list string) :
  fold_left (fun nav y => onScroll y nav) (ys ++ [y]) None = None /\
  exists cl',
    fold_left (fun nav y => onScroll y nav) (ys ++ [y]) (Some cl) = Some cl' /\
    classList_contains "shrink" cl' = gtb y 60%float /\
    forall c, c <> "shrink" -> classList_contains c cl' = classList_contains c cl.
Proof.
  split; [apply onScroll_fold|].
  destruct (onScroll_run (ys ++ [y]) cl) as (cl' & Hf & Hc).
  exists cl'. split; [exact Hf|]. split.
  - rewrite Hc. cbn [String.eqb Ascii.eqb Bool.eqb]. rewrite last_last.
    now destruct ys.
  - intros c Hn. rewrite Hc. now destruct (String.eqb_spec c "shrink").
Qed.

(** ** Instances of the statements with hypotheses *)

Lemma explanation_never_generic_witness :
  (2 <= List.length (points two_clicks))%nat /\
  exists st',
    computeRoute (E := small_angle_engine) two_clicks = Some st' /\
    innerText st' "aiExplanation" =
      explain (recommended (analyzeGraph (points two_clicks))) /\
    In (innerText st' "aiExplanation")
       [explanation_Dijkstra; explanation_AStar; explanation_BFS;
        explanation_Bidirectional] /\
    innerText st' "aiExplanation" <> explanation_BellmanFord /\
    innerText st' "aiExplanation" <> explanation_fallback.
Proof.
  assert (H : (2 <= List.length (points two_clicks))%nat) by (cbn; lia).
  split; [exact H|].
  exact (explanation_never_generic (E := small_angle_engine) two_clicks H).
Defined.

Lemma result_texts_witness :
  (2 <= List.length (points two_clicks))%nat /\
  exists st',
    computeRoute (E := small_angle_engine) two_clicks = Some st' /\
    innerText st' "algoName" = recommended (analyzeGraph (points two_clicks)) /\
    innerText st' "bestAlgo" = recommended (analyzeGraph (points two_clicks)) /\
    innerText st' "complexity" = recommended_time (analyzeGraph (points two_clicks)) /\
    innerText st' "points" = String_of_nat (List.length (points two_clicks)) /\
    innerText st' "iterations" = String_of_nat (List.length (points two_clicks)) /\
    innerText st' "distance" =
      (toFixed2 (Engine := small_angle_engine)
         (sum_consecutive (E := small_angle_engine) (points two_clicks)) ++ " km")%string /\
    (forall k, ~ In k result_ids -> k <> "topAlgorithms" ->
               innerText st' k = innerText two_clicks k).
Proof.
  assert (H : (2 <= List.length (points two_clicks))%nat) by (cbn; lia).
  split; [exact H|].
  exact (result_texts (E := small_angle_engine) two_clicks H).
Defined.

Lemma ranking_is_the_stable_sort_witness :
  let s := mkAnalysis 2 3.25 0.5 in
  StronglySorted (desc score) (rank s) /\
  (forall v, filter (fun e => score e =? v) (rank s) =
             filter (fun e => score e =? v) (map (scoreAlgorithm s) algorithms)) /\
  rank s = rank s.
Proof.
  intros s.
  assert (H1 : StronglySorted (desc score) (rank s))
    by apply (sort_strongly_sorted score).
  assert (H2 : forall v, filter (fun e => score e =? v) (rank s) =
             filter (fun e => score e =? v) (map (scoreAlgorithm s) algorithms))
    by (intros v; apply (sort_filter score)).
  split; [exact H1|]. split; [exact H2|].
  exact (ranking_is_the_stable_sort s (rank s) H1 H2).
Defined.

Lemma bounding_box_contains_points_witness :
  let ps := [point_a; point_b] in
  Forall (fun q => is_nan (lat q) = false /\ is_nan (lng q) = false) ps /\
  In point_b ps /\
  let b := fold_left extend ps (mkBounds infinity neg_infinity infinity neg_infinity) in
  (minLat b <=? lat point_b)%float = true /\ (lat point_b <=? maxLat b)%float = true /\
  (minLng b <=? lng point_b)%float = true /\ (lng point_b <=? maxLng b)%float = true.
Proof.
  intros ps.
  assert (H1 : Forall (fun q => is_nan (lat q) = false /\ is_nan (lng q) = false) ps)
    by (repeat constructor).
  assert (H2 : In point_b ps) by (right; left; reflexivity).
  split; [exact H1|]. split; [exact H2|].
  exact (bounding_box_contains_points ps point_b H1 H2).
Defined.

Lemma markers_follow_points_witness :
  reachable (E := small_angle_engine) (fun _ => "") after_route /\
  map shape (filter is_marker (map_layers after_route)) =
    map MarkerShape (points after_route) /\
  map layer_id (filter is_marker (map_layers after_route)) = markers after_route /\
  List.length (markers after_route) = List.length (points after_route).
Proof.
  split; [exact reachable_after_route|].
  exact (markers_follow_points (E := small_angle_engine) _ after_route
           reachable_after_route).
Defined.

Lemma map_layers_accounted_witness :
  reachable (E := small_angle_engine) (fun _ => "") after_route /\
  NoDup (map layer_id (map_layers after_route)) /\
  filter is_tile (map_layers after_route) = [mkLayer 0 TileShape] /\
  map layer_id (filter is_polyline (map_layers after_route)) = polylines after_route /\
  (List.length (filter is_drone (map_layers after_route)) <= 1)%nat /\
  (forall x, In x (filter is_drone (map_layers after_route)) ->
             droneMarker after_route = Some (layer_id x)).
Proof.
  split; [exact reachable_after_route|].
  exact (map_layers_accounted (E := small_angle_engine) _ after_route
           reachable_after_route).
Defined.

Lemma reset_removes_drawn_layers_witness :
  reachable (E := small_angle_engine) (fun _ => "") after_route /\
  filter is_marker (map_layers (resetMap after_route)) = [] /\
  filter is_polyline (map_layers (resetMap after_route)) = [] /\
  filter is_drone (map_layers (resetMap after_route)) = [] /\
  filter is_tile (map_layers (resetMap after_route)) = [mkLayer 0 TileShape].
Proof.
  split; [exact reachable_after_route|].
  exact (reset_removes_drawn_layers (E := small_angle_engine) _ after_route
           reachable_after_route).
Defined.

Lemma route_redraws_path_witness :
  reachable (E := small_angle_engine) (fun _ => "") after_route /\
  points after_route = point_a :: [point_b] /\ [point_b] <> [] /\
  exists st',
    computeRoute (E := small_angle_engine) after_route = Some st' /\
    map shape (filter is_polyline (map_layers st')) = segments (points after_route) /\
    map layer_id (filter is_polyline (map_layers st')) = polylines st' /\
    List.length (polylines st') = List.length [point_b] /\
    map shape (filter is_drone (map_layers st')) = [DroneShape point_a] /\
    filter is_marker (map_layers st') = filter is_marker (map_layers after_route) /\
    filter is_tile (map_layers st') = filter is_tile (map_layers after_route).
Proof.
  assert (Hp : points after_route = point_a :: [point_b]) by (vm_compute; reflexivity).
  assert (Hn : [point_b] <> []) by discriminate.
  split; [exact reachable_after_route|]. split; [exact Hp|]. split; [exact Hn|].
  exact (route_redraws_path (E := small_angle_engine) _ after_route point_a [point_b]
           reachable_after_route Hp Hn).
Defined.

Lemma route_adds_one_timer_witness :
  (2 <= List.length (points two_clicks))%nat /\
  computeRoute (E := small_angle_engine) two_clicks = Some after_route /\
  timers after_route = timers two_clicks ++ [mkTimer 900 1].
Proof.
  assert (H : (2 <= List.length (points two_clicks))%nat) by (cbn; lia).
  split; [exact H|]. split; [exact two_clicks_route|].
  exact (route_adds_one_timer (E := small_angle_engine) two_clicks after_route H
           two_clicks_route).
Defined.

Lemma animation_follows_route_witness :
  reachable (E := small_angle_engine) (fun _ => "") two_clicks /\
  timers two_clicks = [] /\ points two_clicks = point_a :: [point_b] /\
  [point_b] <> [] /\
  computeRoute (E := small_angle_engine) two_clicks = Some after_route /\
  (forall k p, nth_error (points two_clicks) k = Some p ->
     exists stk,
       fire_times (points two_clicks) k after_route = Some stk /\
       map shape (filter is_drone (map_layers stk)) = [DroneShape p] /\
       timers stk = [mkTimer 900 (S k)] /\
       filter (fun x => negb (is_drone x)) (map_layers stk) =
       filter (fun x => negb (is_drone x)) (map_layers after_route)) /\
  (exists st_end,
     fire_times (points two_clicks) (List.length (points two_clicks)) after_route =
       Some st_end /\
     timers st_end = [] /\
     map shape (filter is_drone (map_layers st_end)) =
       [DroneShape (last [point_b] point_a)] /\
     fire (points two_clicks) st_end = Some st_end).
Proof.
  assert (Hn : [point_b] <> []) by discriminate.
  split; [exact (reachable_two_clicks (E := small_angle_engine))|].
  split; [reflexivity|]. split; [reflexivity|]. split; [exact Hn|].
  split; [exact two_clicks_route|].
  exact (animation_follows_route (E := small_angle_engine) _ two_clicks after_route
           point_a [point_b] (reachable_two_clicks (E := small_angle_engine))
           eq_refl eq_refl Hn two_clicks_route).
Defined.

Lemma timer_never_throws_witness :
  reachable (E := small_angle_engine) (fun _ => "") after_route /\
  exists st', fire [point_a; point_b] after_route = Some st'.
Proof.
  split; [exact reachable_after_route|].
  exact (timer_never_throws (E := small_angle_engine) _ after_route
           [point_a; point_b] reachable_after_route).
Defined.

Lemma timers_after_reset_move_nothing_witness :
  reachable (E := small_angle_engine) (fun _ => "") after_route /\
  timers (resetMap after_route) = timers after_route /\
  exists st', fire [point_a; point_b] (resetMap after_route) = Some st' /\
              filter is_marker (map_layers st') = [] /\
              filter is_polyline (map_layers st') = [] /\
              filter is_drone (map_layers st') = [] /\
              filter is_tile (map_layers st') = [mkLayer 0 TileShape].
Proof.
  split; [exact reachable_after_route|].
  exact (timers_after_reset_move_nothing (E := small_angle_engine) _ after_route
           [point_a; point_b] reachable_after_route).
Defined.

Lemma panel_follows_ranking_witness :
  reachable (E := small_angle_engine) (fun _ => "") after_route /\
  topAlgorithms after_route = cards 0 (firstn 3 (lastScored after_route)) /\
  (lastScored after_route = [] \/
   exists pts, (2 <= List.length pts)%nat /\
               lastScored after_route = rank (analyzeGraph pts) /\
               List.length (lastScored after_route) = 12%nat).
Proof.
  split; [exact reachable_after_route|].
  exact (panel_follows_ranking (E := small_angle_engine) _ after_route
           reachable_after_route).
Defined.

Lemma theme_stays_consistent_witness :
  has_toggle theme_first_visit = true /\
  theme_sync (Nat.iter 3 onToggleClick (onDOMContentLoaded theme_first_visit)).
Proof.
  split; [reflexivity|].
  exact (theme_stays_consistent theme_first_visit 3 eq_refl).
Defined.

Lemma theme_click_flips_witness :
  let pg := onDOMContentLoaded theme_first_visit in
  toggle_listens pg = true /\
  classList_contains "light" (body_classes (onToggleClick pg)) =
    negb (classList_contains "light" (body_classes pg)) /\
  storage_theme (onToggleClick pg) =
    Some (if classList_contains "light" (body_classes pg) then "dark" else "light") /\
  (forall c, c <> "light" ->
     classList_contains c (body_classes (onToggleClick pg)) =
     classList_contains c (body_classes pg)) /\
  classList_contains "light" (body_classes (onToggleClick (onToggleClick pg))) =
    classList_contains "light" (body_classes pg).
Proof.
  intros pg. split; [reflexivity|].
  exact (theme_click_flips pg eq_refl).
Defined.

Lemma theme_survives_reload_witness :
  let pg := onToggleClick (onDOMContentLoaded theme_first_visit) in
  theme_sync pg /\ has_toggle theme_first_visit = true /\
  classList_contains "light"
    (body_classes (onDOMContentLoaded (reload theme_first_visit pg))) =
  classList_contains "light" (body_classes pg).
Proof.
  intros pg.
  assert (H : theme_sync pg) by (exists "light"; repeat split).
  split; [exact H|]. split; [reflexivity|].
  exact (theme_survives_reload theme_first_visit pg H eq_refl).
Defined.
